(** * Shop Login widget: presentation state, messaging and telemetry filters

  A shallow embedding of the decision logic of the embeddable
  Shop Login / Authorize widget: the shop-login reducer and its
  presentation-mode policy, the windoid message demultiplexer, the
  deferred postMessage helper, the dynamic-import error classifiers,
  the Bugsnag [onError] filter and the retrying OpenTelemetry exporter.

  JavaScript strings are modelled as [string] (sequences of code units
  below 256), [undefined] as [None], the wall clock ([Date.now()]) and
  browser built-ins ([URL]) as explicit inputs, and effects as traces. *)

From Stdlib Require Import String Ascii List ZArith QArith Qround Bool Lia.
Import ListNotations.
Close Scope Q_scope.
Open Scope string_scope.

(* ------------------------------------------------------------------ *)
(** ** The string primitives the sources rely on *)

Module JsString.

(** [s.startsWith(p)] *)
Fixpoint startsWith (s p : string) : bool :=
  match p, s with
  | EmptyString, _ => true
  | String _ _, EmptyString => false
  | String c p', String d s' => Ascii.eqb c d && startsWith s' p'
  end.

(** [s.includes(needle)]: [needle] occurs somewhere in [s]. *)
Fixpoint includes (s needle : string) : bool :=
  startsWith s needle
  || match s with
     | EmptyString => false
     | String _ s' => includes s' needle
     end.

(** [s.slice(n)] *)
Fixpoint drop (n : nat) (s : string) : string :=
  match n, s with
  | O, _ => s
  | S _, EmptyString => EmptyString
  | S n', String _ s' => drop n' s'
  end.

(** [s.replace(pat, rep)] for a string pattern: only the first
    occurrence is replaced.  [rep] is taken literally (the sources only
    ever pass the empty string). *)
Fixpoint replace (s pat rep : string) : string :=
  if startsWith s pat then rep ++ drop (String.length pat) s
  else match s with
       | EmptyString => EmptyString
       | String c s' => String c (replace s' pat rep)
       end.

(** White space as [String.prototype.trim] sees it, restricted to code
    units below 256: TAB, LF, VT, FF, CR, SP and NBSP. *)
Definition isWhiteSpace (c : ascii) : bool :=
  match N_of_ascii c with
  | 9%N | 10%N | 11%N | 12%N | 13%N | 32%N | 160%N => true
  | _ => false
  end.

Fixpoint trimStart (s : string) : string :=
  match s with
  | EmptyString => EmptyString
  | String c s' => if isWhiteSpace c then trimStart s' else s
  end.

Fixpoint trimEnd (s : string) : string :=
  match s with
  | EmptyString => EmptyString
  | String c s' =>
      match trimEnd s' with
      | EmptyString => if isWhiteSpace c then EmptyString else String c EmptyString
      | t => String c t
      end
  end.

(** [s.trim()] *)
Definition trim (s : string) : string := trimEnd (trimStart s).

(** [message?.includes(marker)] on a possibly undefined message; the
    result [undefined] is falsy. *)
Definition optIncludes (message : option string) (marker : string) : bool :=
  match message with
  | Some m => includes m marker
  | None => false
  end.

(** [list.includes(x)] on an array of strings. *)
Definition arrayIncludes (l : list string) (x : string) : bool :=
  existsb (String.eqb x) l.

End JsString.

(* ------------------------------------------------------------------ *)
(** ** Shop-login state, presentation policy and reducer *)

Module ShopLogin.

Inductive PresentationMode : Type := button | card.

Definition PresentationMode_eqb (a b : PresentationMode) : bool :=
  match a, b with
  | button, button | card, card => true
  | _, _ => false
  end.

(** [Boolean(x)] for an optional boolean: [undefined] is falsy. *)
Definition Boolean (x : option bool) : bool :=
  match x with
  | Some b => b
  | None => false
  end.

Record GetLocalPresentationModeParams : Type := {
  gp_dismissed : bool;
  gp_originalPresentationMode : PresentationMode;
  gp_userMatched : option bool;
  gp_userRecognized : bool
}.

Definition getLocalPresentationMode (p : GetLocalPresentationModeParams)
  : PresentationMode :=
  (* Email matching always shows card (unless dismissed) *)
  if Boolean (gp_userMatched p) && negb (gp_dismissed p) then card
  (* Original presentation mode determines behavior as the second layer. *)
  else if PresentationMode_eqb (gp_originalPresentationMode p) button then button
  (* Card presentation depends on recognition and dismissal *)
  else if gp_userRecognized p && negb (gp_dismissed p) then card else button.

Record ShopLoginState : Type := {
  consented : bool;
  cookied : bool;
  dismissed : bool;
  footerPolicy : option string;
  loaded : bool;
  localPresentationMode : PresentationMode;
  loginHint : option string;
  matched : bool;
  mountedTimestamp : option Z;
  parentTheme : string;
  processing : bool;
  textVariant : option string
}.

Definition initialState : ShopLoginState := {|
  consented := false;
  cookied := false;
  dismissed := false;
  footerPolicy := None;
  loaded := false;
  localPresentationMode := button;
  loginHint := None;
  matched := false;
  mountedTimestamp := None;
  parentTheme := "light";
  processing := false;
  textVariant := None
|}.

(** [createInitialState]: [urlLoginHint] is the [login_hint] search
    parameter of the current page, [None] when it is absent or the
    location cannot be parsed; [presentationMode] defaults to button. *)
Definition createInitialState (presentationMode : option PresentationMode)
    (textVariant0 : option string) (urlLoginHint : option string)
  : ShopLoginState := {|
  consented := consented initialState;
  cookied := cookied initialState;
  dismissed := dismissed initialState;
  footerPolicy := footerPolicy initialState;
  loaded := loaded initialState;
  localPresentationMode :=
    match presentationMode with Some m => m | None => button end;
  loginHint := urlLoginHint;
  matched := matched initialState;
  mountedTimestamp := mountedTimestamp initialState;
  parentTheme := parentTheme initialState;
  processing := processing initialState;
  textVariant := textVariant0
|}.

Record IframeLoadedPayload : Type := {
  pl_consented : option bool;
  pl_userFound : bool;
  pl_footerPolicy : option string;
  pl_presentation : PresentationMode;
  pl_loginHintMatch : option bool
}.

(** Actions, discriminated by their [type] field.  [otherAction t]
    stands for an object whose [type] is some other string [t]. *)
Inductive ShopLoginAction : Type :=
| dismiss
| iframeLoaded (payload : IframeLoadedPayload)
| mounted
| resetState
| setLocalPresentationMode (payload : PresentationMode)
| setParentTheme (payloadParentTheme : string)
| setProcessing (payload : bool)
| userMatched (userCookieExists : bool)
| otherAction (type : string).

Definition actionType (a : ShopLoginAction) : string :=
  match a with
  | dismiss => "dismiss"
  | iframeLoaded _ => "iframeLoaded"
  | mounted => "mounted"
  | resetState => "resetState"
  | setLocalPresentationMode _ => "setLocalPresentationMode"
  | setParentTheme _ => "setParentTheme"
  | setProcessing _ => "setProcessing"
  | userMatched _ => "userMatched"
  | otherAction t => t
  end.

Definition handledTypes : list string :=
  ["dismiss"; "iframeLoaded"; "mounted"; "resetState";
   "setLocalPresentationMode"; "setParentTheme"; "setProcessing";
   "userMatched"].

(** Functional record updates, one per field the reducer writes. *)
Definition set_consented (v : bool) (s : ShopLoginState) :=
  {| consented := v; cookied := cookied s; dismissed := dismissed s;
     footerPolicy := footerPolicy s; loaded := loaded s;
     localPresentationMode := localPresentationMode s;
     loginHint := loginHint s; matched := matched s;
     mountedTimestamp := mountedTimestamp s; parentTheme := parentTheme s;
     processing := processing s; textVariant := textVariant s |}.
Definition set_cookied (v : bool) (s : ShopLoginState) :=
  {| consented := consented s; cookied := v; dismissed := dismissed s;
     footerPolicy := footerPolicy s; loaded := loaded s;
     localPresentationMode := localPresentationMode s;
     loginHint := loginHint s; matched := matched s;
     mountedTimestamp := mountedTimestamp s; parentTheme := parentTheme s;
     processing := processing s; textVariant := textVariant s |}.
Definition set_dismissed (v : bool) (s : ShopLoginState) :=
  {| consented := consented s; cookied := cookied s; dismissed := v;
     footerPolicy := footerPolicy s; loaded := loaded s;
     localPresentationMode := localPresentationMode s;
     loginHint := loginHint s; matched := matched s;
     mountedTimestamp := mountedTimestamp s; parentTheme := parentTheme s;
     processing := processing s; textVariant := textVariant s |}.
Definition set_footerPolicy (v : option string) (s : ShopLoginState) :=
  {| consented := consented s; cookied := cookied s; dismissed := dismissed s;
     footerPolicy := v; loaded := loaded s;
     localPresentationMode := localPresentationMode s;
     loginHint := loginHint s; matched := matched s;
     mountedTimestamp := mountedTimestamp s; parentTheme := parentTheme s;
     processing := processing s; textVariant := textVariant s |}.
Definition set_loaded (v : bool) (s : ShopLoginState) :=
  {| consented := consented s; cookied := cookied s; dismissed := dismissed s;
     footerPolicy := footerPolicy s; loaded := v;
     localPresentationMode := localPresentationMode s;
     loginHint := loginHint s; matched := matched s;
     mountedTimestamp := mountedTimestamp s; parentTheme := parentTheme s;
     processing := processing s; textVariant := textVariant s |}.
Definition set_localPresentationMode (v : PresentationMode) (s : ShopLoginState) :=
  {| consented := consented s; cookied := cookied s; dismissed := dismissed s;
     footerPolicy := footerPolicy s; loaded := loaded s;
     localPresentationMode := v;
     loginHint := loginHint s; matched := matched s;
     mountedTimestamp := mountedTimestamp s; parentTheme := parentTheme s;
     processing := processing s; textVariant := textVariant s |}.
Definition set_loginHint (v : option string) (s : ShopLoginState) :=
  {| consented := consented s; cookied := cookied s; dismissed := dismissed s;
     footerPolicy := footerPolicy s; loaded := loaded s;
     localPresentationMode := localPresentationMode s;
     loginHint := v; matched := matched s;
     mountedTimestamp := mountedTimestamp s; parentTheme := parentTheme s;
     processing := processing s; textVariant := textVariant s |}.
Definition set_matched (v : bool) (s : ShopLoginState) :=
  {| consented := consented s; cookied := cookied s; dismissed := dismissed s;
     footerPolicy := footerPolicy s; loaded := loaded s;
     localPresentationMode := localPresentationMode s;
     loginHint := loginHint s; matched := v;
     mountedTimestamp := mountedTimestamp s; parentTheme := parentTheme s;
     processing := processing s; textVariant := textVariant s |}.
Definition set_mountedTimestamp (v : option Z) (s : ShopLoginState) :=
  {| consented := consented s; cookied := cookied s; dismissed := dismissed s;
     footerPolicy := footerPolicy s; loaded := loaded s;
     localPresentationMode := localPresentationMode s;
     loginHint := loginHint s; matched := matched s;
     mountedTimestamp := v; parentTheme := parentTheme s;
     processing := processing s; textVariant := textVariant s |}.
Definition set_parentTheme (v : string) (s : ShopLoginState) :=
  {| consented := consented s; cookied := cookied s; dismissed := dismissed s;
     footerPolicy := footerPolicy s; loaded := loaded s;
     localPresentationMode := localPresentationMode s;
     loginHint := loginHint s; matched := matched s;
     mountedTimestamp := mountedTimestamp s; parentTheme := v;
     processing := processing s; textVariant := textVariant s |}.
Definition set_processing (v : bool) (s : ShopLoginState) :=
  {| consented := consented s; cookied := cookied s; dismissed := dismissed s;
     footerPolicy := footerPolicy s; loaded := loaded s;
     localPresentationMode := localPresentationMode s;
     loginHint := loginHint s; matched := matched s;
     mountedTimestamp := mountedTimestamp s; parentTheme := parentTheme s;
     processing := v; textVariant := textVariant s |}.

(** [shopLoginReducer].  [now] is the value [Date.now()] returns when
    the reducer runs (milliseconds since the epoch). *)
Definition shopLoginReducer (now : Z) (state : ShopLoginState)
    (action : ShopLoginAction) : ShopLoginState :=
  match action with
  | dismiss =>
      set_localPresentationMode button (set_dismissed true state)
  | iframeLoaded payload =>
      set_matched (Boolean (pl_loginHintMatch payload))
        (set_localPresentationMode (pl_presentation payload)
           (set_loaded true
              (set_footerPolicy (pl_footerPolicy payload)
                 (set_cookied (pl_userFound payload)
                    (set_consented (Boolean (pl_consented payload)) state)))))
  | mounted =>
      set_mountedTimestamp (Some now) state
  | resetState => initialState
  | setLocalPresentationMode payload =>
      set_localPresentationMode payload state
  | setParentTheme theme =>
      set_parentTheme theme state
  | setProcessing payload =>
      set_processing payload state
  | userMatched userCookieExists =>
      set_matched true
        (set_loginHint None
           (set_localPresentationMode (if userCookieExists then button else card)
              (set_cookied userCookieExists state)))
  | otherAction _ => state
  end.

(** The state component of the provider's [reducerWithDispatchedEventing]:
    for [iframeLoaded] the payload's [presentation] is overwritten with
    the policy's answer before the reducer runs; every other action goes
    to the reducer as it is.  [presentationMode] is the provider's prop
    (already defaulted to button). *)
Definition reducerWithDispatchedEventing (presentationMode : PresentationMode)
    (now : Z) (state : ShopLoginState) (action : ShopLoginAction)
  : ShopLoginState :=
  match action with
  | iframeLoaded payload =>
      let presentation :=
        getLocalPresentationMode
          {| gp_dismissed := dismissed state;
             gp_originalPresentationMode := presentationMode;
             gp_userMatched := None;
             gp_userRecognized := pl_userFound payload |} in
      let enhancedAction :=
        iframeLoaded
          {| pl_consented := pl_consented payload;
             pl_userFound := pl_userFound payload;
             pl_footerPolicy := pl_footerPolicy payload;
             pl_presentation := presentation;
             pl_loginHintMatch := pl_loginHintMatch payload |} in
      shopLoginReducer now state enhancedAction
  | _ => shopLoginReducer now state action
  end.

(** States reachable from [s0] by reducer steps, the clock being free
    at every step. *)
Inductive reachable (s0 : ShopLoginState) : ShopLoginState -> Prop :=
| reachable_init : reachable s0 s0
| reachable_step : forall s now a,
    reachable s0 s -> reachable s0 (shopLoginReducer now s a).

(** Actions that write the card mode while the widget is dismissed: the
    explicit setter with payload card, and a user match without cookie. *)
Definition reopensDismissed (s : ShopLoginState) (a : ShopLoginAction) : bool :=
  dismissed s &&
  match a with
  | setLocalPresentationMode card => true
  | userMatched false => true
  | _ => false
  end.

(** States reachable through the provider by actions that do not reopen
    a dismissed widget. *)
Inductive providerReachable (mode : PresentationMode) (s0 : ShopLoginState)
  : ShopLoginState -> Prop :=
| providerReachable_init : providerReachable mode s0 s0
| providerReachable_step : forall s now a,
    providerReachable mode s0 s ->
    reopensDismissed s a = false ->
    providerReachable mode s0 (reducerWithDispatchedEventing mode now s a).

(** The dismissed widget shows the button. *)
Definition dismissedIsButton (s : ShopLoginState) : Prop :=
  dismissed s = true -> localPresentationMode s = button.

(** The claim that the reducer's result does not depend on the clock. *)
Definition clockIndependent : Prop :=
  forall (now1 now2 : Z) (s : ShopLoginState) (a : ShopLoginAction),
    shopLoginReducer now1 s a = shopLoginReducer now2 s a.

(** Two states that agree on every field but the one named. *)
Definition agreeExceptProcessing (s t : ShopLoginState) : Prop :=
  consented s = consented t /\ cookied s = cookied t
  /\ dismissed s = dismissed t /\ footerPolicy s = footerPolicy t
  /\ loaded s = loaded t
  /\ localPresentationMode s = localPresentationMode t
  /\ loginHint s = loginHint t /\ matched s = matched t
  /\ mountedTimestamp s = mountedTimestamp t
  /\ parentTheme s = parentTheme t /\ textVariant s = textVariant t.

Definition agreeExceptParentTheme (s t : ShopLoginState) : Prop :=
  consented s = consented t /\ cookied s = cookied t
  /\ dismissed s = dismissed t /\ footerPolicy s = footerPolicy t
  /\ loaded s = loaded t
  /\ localPresentationMode s = localPresentationMode t
  /\ loginHint s = loginHint t /\ matched s = matched t
  /\ mountedTimestamp s = mountedTimestamp t
  /\ processing s = processing t /\ textVariant s = textVariant t.

Definition agreeExceptMountedTimestamp (s t : ShopLoginState) : Prop :=
  consented s = consented t /\ cookied s = cookied t
  /\ dismissed s = dismissed t /\ footerPolicy s = footerPolicy t
  /\ loaded s = loaded t
  /\ localPresentationMode s = localPresentationMode t
  /\ loginHint s = loginHint t /\ matched s = matched t
  /\ parentTheme s = parentTheme t
  /\ processing s = processing t /\ textVariant s = textVariant t.

End ShopLogin.

(* ------------------------------------------------------------------ *)
(** ** The Bugsnag [onError] filter *)

Module Bugsnag.
Import JsString.

Definition MONORAIL_NETWORK_ERROR_BACKPRESSURE_MARKER : string :=
  "Backpressure applied".
Definition MONORAIL_NETWORK_ERROR_MARKER : string :=
  "A network failure may have prevented the request from completing".

Definition UNACTIONABLE_NETWORK_ERRORS : list string :=
  [ (* Safari *) "Load failed";
    (* Chrome *) "Failed to fetch";
    (* Firefox *) "when attempting to fetch resource" ].

Definition DYNAMIC_IMPORT_ERRORS : list string :=
  [ (* Chrome/Firefox *) "Failed to fetch dynamically imported module";
    (* Safari/WebViews *) "Importing a module script failed" ].

Definition SANDBOXED_COOKIE_ERROR_MARKER : string :=
  "Failed to read the 'cookie' property from 'Document'".
Definition SANDBOXED_MESSAGE_MARKER : string := "sandboxed".
Definition CROSS_ORIGIN_FRAME_ERROR_MARKER : string :=
  "Blocked a frame with origin".
Definition CROSS_ORIGIN_FRAME_ACCESS_MARKER : string :=
  "from accessing a cross-origin frame".

Definition SHOP_PAY_PAYMENT_REQUEST_FEATURE_ALLOWLIST : list string :=
  [ "ShopPayPaymentRequest";
    "ShopPayPaymentRequestButton";
    "ShopPayPaymentRequestLogin" ].

Definition UNACTIONABLE_ERROR_CLASSES : list string :=
  [ "NotFoundError"; "NotSupportedError"; "ReferenceError"; "SyntaxError";
    "TypeError" ].

Inductive NetworkErrorType : Type := NetworkError | DynamicImportError.

Record StackFrame : Type := { inProject : bool }.

Record BugsnagException : Type := {
  errorClass : string;
  message : option string;
  stacktrace : list StackFrame
}.

(** The value found under [metadata.custom.feature]: a string, or
    something that is not a string. *)
Inductive FeatureValue : Type :=
| FeatureString (s : string)
| FeatureOther.

Record Custom : Type := { feature : option FeatureValue }.
Record Metadata : Type := { custom : option Custom }.

(** A report.  [decorated] records that the filter attached [device],
    [metaData] and [request] to a report it lets through, and with which
    constructor metadata; the attached values themselves are read from the
    browser (navigator, window, document, clock) and are not modelled.  It
    is [None] on a report the filter did not decorate. *)
Record BugsnagEvent : Type := {
  exceptions : list BugsnagException;
  decorated : option Metadata
}.

Definition _isMonorailNetworkError (errorMessage : option string) : bool :=
  optIncludes errorMessage MONORAIL_NETWORK_ERROR_MARKER
  || optIncludes errorMessage MONORAIL_NETWORK_ERROR_BACKPRESSURE_MARKER.

Definition isSandboxedCookieError (exception : BugsnagException) : bool :=
  String.eqb (errorClass exception) "SecurityError"
  && optIncludes (message exception) SANDBOXED_COOKIE_ERROR_MARKER
  && optIncludes (message exception) SANDBOXED_MESSAGE_MARKER.

Definition isCrossOriginFrameAccessError (exception : BugsnagException) : bool :=
  String.eqb (errorClass exception) "SecurityError"
  && optIncludes (message exception) CROSS_ORIGIN_FRAME_ERROR_MARKER
  && optIncludes (message exception) CROSS_ORIGIN_FRAME_ACCESS_MARKER.

Definition isShopPayPaymentRequestFeature (feature0 : option string) : bool :=
  match feature0 with
  | Some f => arrayIncludes SHOP_PAY_PAYMENT_REQUEST_FEATURE_ALLOWLIST f
  | None => false
  end.

(** Ignore errors not related to the SDK *)
Definition isInProject (exception : BugsnagException) : bool :=
  existsb inProject (stacktrace exception).

Definition isIgnorable (exception : BugsnagException) (feature0 : option string)
  : bool :=
  negb (isInProject exception)
  || isSandboxedCookieError exception
  || (isCrossOriginFrameAccessError exception
      && isShopPayPaymentRequestFeature feature0).

Definition isUnactionable (exception : BugsnagException) : bool :=
  arrayIncludes UNACTIONABLE_ERROR_CLASSES (errorClass exception).

Definition isNetworkError (exception : BugsnagException) : bool :=
  String.eqb (errorClass exception) "NetworkError"
  || existsb (fun networkMessage => optIncludes (message exception) networkMessage)
       UNACTIONABLE_NETWORK_ERRORS
  || _isMonorailNetworkError (message exception).

Definition isDynamicImportError (exception : BugsnagException) : bool :=
  existsb (fun importErrorMessage =>
             optIncludes (message exception) importErrorMessage)
    DYNAMIC_IMPORT_ERRORS.

(** What the filter hands back to Bugsnag: the literal [false], or nothing
    ([undefined], the function falls off its end). *)
Inductive OnErrorReturn : Type := ReturnsFalse | ReturnsUndefined.

(** The observable outcome of one run of the filter: its return value,
    the calls it made to [onNetworkError] in order ([None] is the call
    without argument), and the report as it leaves the function. *)
Record Outcome : Type := {
  returned : OnErrorReturn;
  onNetworkErrorCalls : list (option NetworkErrorType);
  eventAfter : BugsnagEvent
}.

(** [typeof feature === 'string' ? feature : undefined] on
    [metadata.custom?.feature] *)
Definition featureOf (metadata : Metadata) : option string :=
  match custom metadata with
  | Some c =>
      match feature c with
      | Some (FeatureString f) => Some f
      | _ => None
      end
  | None => None
  end.

Definition handleCreateBugsnagParamsError (event : BugsnagEvent)
    (metadata : Metadata) : Outcome :=
  match exceptions event with
  | [] =>
      {| returned := ReturnsFalse; onNetworkErrorCalls := [];
         eventAfter := event |}
  | exception :: _ =>
      if isIgnorable exception (featureOf metadata) then
        {| returned := ReturnsFalse; onNetworkErrorCalls := [];
           eventAfter := event |}
      else if isUnactionable exception then
        {| returned := ReturnsFalse; onNetworkErrorCalls := [];
           eventAfter := event |}
      else if isDynamicImportError exception then
        (* Record dynamic import errors for Observe, but don't notify Bugsnag *)
        {| returned := ReturnsFalse;
           onNetworkErrorCalls := [Some DynamicImportError];
           eventAfter := event |}
      else if isNetworkError exception then
        (* Record network errors for Observe, but don't notify Bugsnag *)
        {| returned := ReturnsFalse; onNetworkErrorCalls := [None];
           eventAfter := event |}
      else
        {| returned := ReturnsUndefined; onNetworkErrorCalls := [];
           eventAfter := {| exceptions := exceptions event;
                            decorated := Some metadata |} |}
  end.

(** [Bugsnag.handleNetworkError]: the error type recorded on the
    [shop_js_network_error] counter; a call without argument records the
    default. *)
Definition handleNetworkError (errorType : option NetworkErrorType)
  : NetworkErrorType :=
  match errorType with
  | Some t => t
  | None => NetworkError
  end.


(** The conditions of the claim, spelled out on the report. *)
Definition noInProjectFrame (e : BugsnagException) : Prop :=
  forall frame, In frame (stacktrace e) -> inProject frame = false.

Definition securityErrorWith (e : BugsnagException) (marker1 marker2 : string)
  : Prop :=
  errorClass e = "SecurityError"
  /\ exists m, message e = Some m
             /\ includes m marker1 = true /\ includes m marker2 = true.

Definition inShopPayPaymentRequestFeature (metadata : Metadata) : Prop :=
  exists c f, custom metadata = Some c
              /\ feature c = Some (FeatureString f)
              /\ In f SHOP_PAY_PAYMENT_REQUEST_FEATURE_ALLOWLIST.

Definition ignorable (e : BugsnagException) (metadata : Metadata) : Prop :=
  noInProjectFrame e
  \/ securityErrorWith e SANDBOXED_COOKIE_ERROR_MARKER SANDBOXED_MESSAGE_MARKER
  \/ (securityErrorWith e CROSS_ORIGIN_FRAME_ERROR_MARKER
         CROSS_ORIGIN_FRAME_ACCESS_MARKER
       /\ inShopPayPaymentRequestFeature metadata).

Definition messageHasOneOf (e : BugsnagException) (markers : list string)
  : Prop :=
  exists m marker, message e = Some m /\ In marker markers
                   /\ includes m marker = true.

Definition dynamicImportError (e : BugsnagException) : Prop :=
  messageHasOneOf e DYNAMIC_IMPORT_ERRORS.

Definition networkError (e : BugsnagException) : Prop :=
  errorClass e = "NetworkError"
  \/ messageHasOneOf e UNACTIONABLE_NETWORK_ERRORS
  \/ messageHasOneOf e
       [MONORAIL_NETWORK_ERROR_MARKER;
        MONORAIL_NETWORK_ERROR_BACKPRESSURE_MARKER].


End Bugsnag.

(* ------------------------------------------------------------------ *)
(** ** The exporter that retries after the server's back-off *)

Module ExporterWithRetries.

Record RetryAfter : Type := { seconds : Z }.

(** [error.metadata]; [retryAfter] is an object, hence truthy whenever it
    is there. *)
Record ErrorMetadata : Type := { retryAfter : option RetryAfter }.

(** What the wrapped exporter can throw: an [OpenTelemetryClientError]
    with its optional metadata, or anything else. *)
Inductive Thrown : Type :=
| OpenTelemetryClientError (metadata : option ErrorMetadata)
| OtherError (description : string).

Inductive CallOutcome : Type :=
| Fulfilled
| Rejected (error : Thrown).

Inductive Signal : Type := Metrics | Logs.

(** What an observer of one export sees, in order: calls of the wrapped
    exporter (with the [keepalive] flag passed), timers armed with their
    delay in milliseconds, and rejections nobody handles. *)
Inductive Event : Type :=
| ExporterCall (signal : Signal) (keepalive : bool)
| SetTimeout (ms : Z)
| UnhandledRejection (error : Thrown).

(** How the promise returned by an export settles. *)
Inductive Settled : Type :=
| Resolved
| Threw (error : Thrown).

(** [error.metadata?.retryAfter] when [error instanceof
    OpenTelemetryClientError] *)
Definition retryAfterOf (error : Thrown) : option RetryAfter :=
  match error with
  | OpenTelemetryClientError (Some m) => retryAfter m
  | OpenTelemetryClientError None => None
  | OtherError _ => None
  end.

(** The rejection a retry leaves behind when it fails in its turn. *)
Definition leftover (inner : Settled) : list Event :=
  match inner with
  | Resolved => []
  | Threw e => [UnhandledRejection e]
  end.

Section Exporter.

(** The environment of one export: the outcome of the wrapped exporter's
    [n]-th call and the answer of [getKeepalive] at the [n]-th attempt. *)
Variable exporter : Signal -> nat -> CallOutcome.
Variable getKeepalive : nat -> bool.

(** One export starting at attempt number [attempt]; [fuel] bounds the
    number of attempts followed, [None] means the promise is still pending
    when the bound is reached.  A retry runs inside the timer callback and
    the outer promise resolves through [finally], whatever the retry's own
    result; a rejected retry is left unhandled. *)
Fixpoint exportWithRetries (signal : Signal) (fuel attempt : nat)
  : option (Settled * list Event) :=
  match fuel with
  | O => None
  | S fuel' =>
      let call := ExporterCall signal (getKeepalive attempt) in
      match exporter signal attempt with
      | Fulfilled => Some (Resolved, [call])
      | Rejected error =>
          match retryAfterOf error with
          | Some after =>
              match exportWithRetries signal fuel' (S attempt) with
              | None => None
              | Some (inner, trace) =>
                  Some (Resolved,
                        call :: SetTimeout (seconds after * 1000)
                          :: trace ++ leftover inner)
              end
          | None => Some (Threw error, [call])
          end
      end
  end.

Definition exportMetrics (fuel attempt : nat) : option (Settled * list Event) :=
  exportWithRetries Metrics fuel attempt.

Definition exportLogs (fuel attempt : nat) : option (Settled * list Event) :=
  exportWithRetries Logs fuel attempt.

End Exporter.

(** The method of [ExporterWithRetries] that exports a given signal. *)
Definition exportOf (exporter : Signal -> nat -> CallOutcome)
    (getKeepalive : nat -> bool) (signal : Signal)
  : nat -> nat -> option (Settled * list Event) :=
  match signal with
  | Metrics => exportMetrics exporter getKeepalive
  | Logs => exportLogs exporter getKeepalive
  end.

(** The error is an [OpenTelemetryClientError] whose metadata carries
    [retryAfter]. *)
Definition carriesRetryAfter (error : Thrown) (after : RetryAfter) : Prop :=
  exists m, error = OpenTelemetryClientError (Some m)
            /\ retryAfter m = Some after.

(** A server that asks once to come back in two seconds and then accepts. *)
Definition backoffOnce (signal : Signal) (attempt : nat) : CallOutcome :=
  match attempt with
  | O => Rejected
           (OpenTelemetryClientError
              (Some {| retryAfter := Some {| seconds := 2 |} |}))
  | S _ => Fulfilled
  end.

(** The calls of the wrapped exporter in a trace. *)
Definition exporterCalls (trace : list Event) : nat :=
  List.length
    (filter (fun e => match e with ExporterCall _ _ => true | _ => false end)
       trace).

(** The timers armed in a trace. *)
Definition timers (trace : list Event) : list Z :=
  flat_map (fun e => match e with SetTimeout ms => [ms] | _ => [] end) trace.

(** What an export has done by the time [fuel] attempts have been
    followed, whether its promise has settled or not: each attempt calls
    the wrapped exporter, and a failure that carries [retryAfter] arms the
    timer whose callback is the next attempt. *)
Fixpoint exportProgress (exporter : Signal -> nat -> CallOutcome)
    (getKeepalive : nat -> bool) (signal : Signal) (fuel attempt : nat)
  : list Event :=
  match fuel with
  | O => []
  | S fuel' =>
      ExporterCall signal (getKeepalive attempt)
        :: match exporter signal attempt with
           | Fulfilled => []
           | Rejected error =>
               match retryAfterOf error with
               | Some after =>
                   SetTimeout (seconds after * 1000)
                     :: exportProgress exporter getKeepalive signal fuel'
                          (S attempt)
               | None => []
               end
           end
  end.

(** One call and the timer armed after it, for each of [count] attempts
    from [attempt] on. *)
Definition backoffRounds (getKeepalive : nat -> bool) (signal : Signal)
    (delays : nat -> RetryAfter) (attempt count : nat) : list Event :=
  flat_map (fun n => [ExporterCall signal (getKeepalive n);
                      SetTimeout (seconds (delays n) * 1000)])
    (seq attempt count).

End ExporterWithRetries.

(* ------------------------------------------------------------------ *)
(** ** The windoid message demultiplexer *)

Module Windoid.

Record MessageEventData : Type := {
  type : string;
  body : string
}.

(** How an awaited callback ends. *)
Inductive Completion : Type := Normal | Abrupt.

Inductive Handler : Type :=
| HandleComplete
| HandleCustomFlowSideEffect
| HandleError
| HandleOpen
| HandleClose.

Inductive Effect : Type :=
| Invoke (h : Handler)
| DispatchEvent (name : string) (detail : option MessageEventData)
    (bubbles : option bool)
| CloseWindoid.

(** The hook's props.  Optional handlers may be absent; [windoidPresent]
    says whether [windoidRef.current] holds a window. *)
Record Props : Type := {
  handleClose : option Completion;
  handleComplete : MessageEventData -> Completion;
  handleError : option (MessageEventData -> Completion);
  handleOpen : option Completion;
  handleCustomFlowSideEffect : option (MessageEventData -> Completion);
  windoidPresent : bool
}.

(** A small writer-with-abort monad: effects performed so far and how the
    computation ended. *)
Definition M : Type := Completion * list Effect.

Definition ret : M := (Normal, []).

Definition emit (e : Effect) : M := (Normal, [e]).

Definition bind (m : M) (k : M) : M :=
  match fst m with
  | Normal => (fst k, (snd m ++ snd k)%list)
  | Abrupt => m
  end.

Notation "m ;; k" := (bind m k) (at level 61, right associativity).

(** [await handler(data)] *)
Definition await (h : Handler) (c : Completion) : M := (c, [Invoke h]).

(** [await handler?.(data)] *)
Definition awaitOptional {A} (h : Handler) (f : option A) (run : A -> Completion)
  : M :=
  match f with
  | Some g => await h (run g)
  | None => ret
  end.

(** [windoidRef.current?.close()] *)
Definition closeWindoid (p : Props) : M :=
  if windoidPresent p then emit CloseWindoid else ret.

Definition handleWindoidMessage (p : Props) (data : MessageEventData) : M :=
  let t := type data in
  if String.eqb t "completed" then
    await HandleComplete (handleComplete p data) ;;
    emit (DispatchEvent "completed" (Some data) (Some true)) ;;
    closeWindoid p
  else if String.eqb t "custom_flow_side_effect" then
    awaitOptional HandleCustomFlowSideEffect (handleCustomFlowSideEffect p)
      (fun f => f data)
  else if String.eqb t "error" then
    awaitOptional HandleError (handleError p) (fun f => f data) ;;
    emit (DispatchEvent "error" (Some data) None) ;;
    closeWindoid p
  else if String.eqb t "windoidopened" then
    emit (DispatchEvent "windoidopened" None None) ;;
    awaitOptional HandleOpen (handleOpen p) (fun c => c)
  else if String.eqb t "close" || String.eqb t "windoidclosed" then
    emit (DispatchEvent "windoidclosed" None None) ;;
    awaitOptional HandleClose (handleClose p) (fun c => c) ;;
    closeWindoid p
  else if String.eqb t "prequal_buyer_upsert_successful" then
    closeWindoid p ;;
    emit (DispatchEvent "buyerOnboardingSuccess" None None)
  else ret.

(** The handler the claim assigns to each message type. *)
Definition handlerFor (t : string) : option Handler :=
  if String.eqb t "completed" then Some HandleComplete
  else if String.eqb t "custom_flow_side_effect" then Some HandleCustomFlowSideEffect
  else if String.eqb t "error" then Some HandleError
  else if String.eqb t "windoidopened" then Some HandleOpen
  else if String.eqb t "close" then Some HandleClose
  else if String.eqb t "windoidclosed" then Some HandleClose
  else None.



(** Every handler that is supplied returns normally. *)
Definition wellBehaved (p : Props) : Prop :=
  (forall d, handleComplete p d = Normal)
  /\ (forall f d, handleError p = Some f -> f d = Normal)
  /\ (forall f d, handleCustomFlowSideEffect p = Some f -> f d = Normal)
  /\ handleOpen p <> Some Abrupt
  /\ handleClose p <> Some Abrupt.


(** How the props' handler ends when called with the message; an absent
    handler is skipped by [?.], which is a normal end. *)
Definition outcomeOf (p : Props) (h : Handler) (data : MessageEventData)
  : Completion :=
  match h with
  | HandleComplete => handleComplete p data
  | HandleCustomFlowSideEffect =>
      match handleCustomFlowSideEffect p with
      | Some f => f data
      | None => Normal
      end
  | HandleError =>
      match handleError p with
      | Some f => f data
      | None => Normal
      end
  | HandleOpen =>
      match handleOpen p with
      | Some c => c
      | None => Normal
      end
  | HandleClose =>
      match handleClose p with
      | Some c => c
      | None => Normal
      end
  end.

(** The event already dispatched when a handler is awaited: the handlers
    of the open and close messages come after their event, the others
    before. *)
Definition dispatchedBefore (h : Handler) : list Effect :=
  match h with
  | HandleOpen => [DispatchEvent "windoidopened" None None]
  | HandleClose => [DispatchEvent "windoidclosed" None None]
  | HandleComplete | HandleCustomFlowSideEffect | HandleError => []
  end.

End Windoid.

(* ------------------------------------------------------------------ *)
(** ** Posting to the iframe, optionally after it has loaded *)

Module IframePostMessage.

(** [IframePostMessageOptions] *)
Record IframePostMessageOptions : Type := { afterLoaded : option bool }.

(** The two things the helper does, in program order. *)
Inductive Instr : Type :=
| AwaitMessage (messageType : string)
| PostMessage (event : string) (tracked : bool).

(** What an observer of the channel sees: messages coming in from the
    iframe while the helper waits, and calls of [postMessage] on the
    iframe's [contentWindow]. *)
Inductive Obs : Type :=
| Received (messageType : string)
| Posted (event : string) (tracked : bool).

(** Modelled from the spec: [waitForMessage] of [useAuthorizeEventListener],
    whose source is not part of the repository snapshot.  The promise
    resolves when a message of the awaited type is received from the
    iframe; [incoming] lists the types of the messages that arrive after
    the call, in order.  The result holds what was observed while waiting
    and, when the awaited message came, the messages still to arrive. *)
Fixpoint waitForMessage (messageType : string) (incoming : list string)
  : list Obs * option (list string) :=
  match incoming with
  | [] => ([], None)
  | m :: rest =>
      if String.eqb m messageType then ([Received m], Some rest)
      else
        let (obs, k) := waitForMessage messageType rest in
        (Received m :: obs, k)
  end.

(** Running a helper against the messages that arrive after it is
    called. *)
Fixpoint run (prog : list Instr) (incoming : list string) : list Obs :=
  match prog with
  | [] => []
  | PostMessage event tracked :: k => Posted event tracked :: run k incoming
  | AwaitMessage messageType :: k =>
      let (obs, r) := waitForMessage messageType incoming in
      (obs ++ match r with
              | Some rest => run k rest
              | None => []
              end)%list
  end.

Module AuthorizeIframe.

(** [{afterLoaded = false}: IframePostMessageOptions = {}]; every message
    sent is reported to [trackPostMessageTransmission]. *)
Definition postMessageHelper (loaded : bool) (event : string)
    (options : option IframePostMessageOptions) : list Instr :=
  let afterLoaded0 :=
    match options with
    | Some o => match afterLoaded o with Some b => b | None => false end
    | None => false
    end in
  ((if afterLoaded0 && negb loaded then [AwaitMessage "loaded"] else [])
   ++ [PostMessage event true])%list.

End AuthorizeIframe.

Module LoginIframe.

(** [Boolean(options?.afterLoaded)] *)
Definition postMessageHelper (loaded : bool) (event : string)
    (options : option IframePostMessageOptions) : list Instr :=
  let afterLoaded0 :=
    ShopLogin.Boolean
      match options with
      | Some o => afterLoaded o
      | None => None
      end in
  ((if afterLoaded0 && negb loaded then [AwaitMessage "loaded"] else [])
   ++ [PostMessage event false])%list.

End LoginIframe.

Definition isPosted (o : Obs) : bool :=
  match o with Posted _ _ => true | Received _ => false end.

(** No message is posted before a message of type [loaded] came in. *)
Definition postsOnlyAfterLoaded (trace : list Obs) : Prop :=
  forall pre event tracked post,
    trace = (pre ++ Posted event tracked :: post)%list ->
    In (Received "loaded") pre.

(** The caller asked for the message to be held back until the iframe
    has loaded. *)
Definition wantsAfterLoaded (options : option IframePostMessageOptions) : Prop :=
  exists o, options = Some o /\ afterLoaded o = Some true.

End IframePostMessage.

(* ------------------------------------------------------------------ *)
(** ** Classifying dynamic-import failures *)

Module RetryImport.
Import JsString.

(** An [Error] as the classifiers see it. *)
Record Error : Type := { message : string }.

Definition FAILED_TO_FETCH_PREFIX : string :=
  "Failed to fetch dynamically imported module: ".

Definition GENERIC_MODULE_ERROR : string :=
  "Importing a module script failed".

Section WithURL.

(** The browser's [URL] constructor: [None] when it throws. *)
Variable URL : Type.
Variable newURL : string -> option URL.

Definition convertStringToUrl (url : string) : option URL :=
  match newURL url with
  | Some u => Some u
  | None => None
  end.

(** Extracts the module URL from a Chrome/Firefox "Failed to fetch" error.
    Returns null if the URL cannot be parsed. *)
Definition extractUrlFromError (error : Error) : option URL :=
  convertStringToUrl
    (trim (replace (message error) FAILED_TO_FETCH_PREFIX "")).

(** The claim's reading of the extraction: the text is removed where it
    is a prefix of the message, and only there. *)
Definition spec_stripPrefix (prefix s : string) : string :=
  if startsWith s prefix then drop (String.length prefix) s else s.

Definition spec_extractUrlFromError (error : Error) : option URL :=
  convertStringToUrl
    (trim (spec_stripPrefix FAILED_TO_FETCH_PREFIX (message error))).

End WithURL.

(** Some browsers (Safari, WebViews) throw a generic module error without
    the URL. *)
Definition isGenericModuleError (error : Error) : bool :=
  includes (message error) GENERIC_MODULE_ERROR.

(** A stand-in for the [URL] constructor that accepts exactly the strings
    starting with [https://] and keeps them as they are.  On the two
    strings used below it decides as the browser does: an absolute https
    URL parses, a sentence without scheme does not. *)
Definition httpsOnly (s : string) : option string :=
  if startsWith s "https://" then Some s else None.

End RetryImport.

(* ------------------------------------------------------------------ *)
(** ** Grouping OpenTelemetry export errors *)

Module OpenTelemetryUtils.
Import JsString.

(** The record [opentelErrorGrouping], keys in insertion order. *)
Definition opentelErrorGrouping : list (string * string) :=
  [ ("blockedRequest", "Blocked Request");
    ("emptyeEventCreatedAtMs",
     "event_created_at_ms metadata field cannot be empty");
    ("errorParsingCreatedAtMs",
     "Error parsing: X-Monorail-Edge-Event-Created-At-Ms");
    ("failedToReadRequestBody", "Failed to read request body");
    ("incorrectContentType",
     "Incorrect Content-Type. Expected: application/json or text/plain");
    ("methodNotAllowed", "Method Not Allowed");
    ("noPermissionToGetURL",
     "Your client does not have permission to get URL");
    ("noResponseFromEdge", "No response from edge");
    ("schemaValidationError", "Schema validation error") ].

(** [Object.values(record)] *)
Definition objectValues (record : list (string * string)) : list string :=
  map snd record.

(** [Object.keys(record)] *)
Definition objectKeys (record : list (string * string)) : list string :=
  map fst record.

(** The [n]-th element an array pattern takes out of a string: the
    character at that index, [undefined] past the end. *)
Definition charAt (s : string) (n : nat) : option string :=
  match String.get n s with
  | Some c => Some (String c EmptyString)
  | None => None
  end.

(** [message.includes(value)] where [value] may be [undefined], which
    [includes] turns into the text "undefined". *)
Definition includesValue (message : string) (value : option string) : bool :=
  includes message
    match value with
    | Some v => v
    | None => "undefined"
    end.

(** [groupOpentelError] on the record [grouping].  The callback's
    parameter pattern [[_, value]] is applied to each element of
    [Object.values], which is a string: [value] is its second character.
    The result is [groupEntry?.[0] || 'otherErrors'], the first character
    of the string found. *)
Definition groupOpentelErrorIn (grouping : list (string * string))
    (message : string) : string :=
  let groupEntry :=
    find (fun entry => includesValue message (charAt entry 1))
      (objectValues grouping) in
  match groupEntry with
  | Some entry =>
      match charAt entry 0 with
      | Some first => first
      | None => "otherErrors"
      end
  | None => "otherErrors"
  end.

Definition groupOpentelError (message : string) : string :=
  groupOpentelErrorIn opentelErrorGrouping message.

(** The grouping the claim describes: the key whose grouped message is
    contained in the error's message, [otherErrors] when there is none. *)
Definition spec_groupOpentelError (message : string) : string :=
  match find (fun kv => includes message (snd kv)) opentelErrorGrouping with
  | Some kv => fst kv
  | None => "otherErrors"
  end.

End OpenTelemetryUtils.

(* ------------------------------------------------------------------ *)
(** ** The provider: reducer steps with their side effects *)

Module ShopLoginProvider.
Import ShopLogin.

(** Running the reducer over a sequence of actions, each with the clock
    reading at its step. *)
Definition runReducer (s : ShopLoginState) (steps : list (Z * ShopLoginAction))
  : ShopLoginState :=
  fold_left (fun acc step => shopLoginReducer (fst step) acc (snd step)) steps s.

Definition isResetState (a : ShopLoginAction) : bool :=
  match a with
  | resetState => true
  | _ => false
  end.

(** [mapToSupportedFlowVersion] *)
Definition mapToSupportedFlowVersion (value : option string) : string :=
  match value with
  | Some v =>
      if String.eqb v "account_menu" || String.eqb v "customer_accounts"
         || String.eqb v "email_capture" || String.eqb v "phone_capture"
      then v
      else "0"
  | None => "unspecified"
  end.

Inductive TrackPresentationModeChangeReason : Type :=
| dismissed_reason
| email_matched
| user_not_recognized
| user_recognized.

(** What [processSideEffects] does to the outside world. *)
Inductive SideEffect : Type :=
| DispatchLoaded (presentation : PresentationMode) (userFound : bool)
| RecordLoadDuration (flowVersion : string) (value : Z)
| LogNoMountedTimestamp (flowVersion : string)
| TrackPresentationModeChange (currentMode previousMode : PresentationMode)
    (reason : TrackPresentationModeChangeReason)
| DispatchShopUserMatched (presentation : PresentationMode)
| DispatchLookupEnd.

(** [processSideEffects].  [loadedTracked] is the value of the ref of that
    name before the call and the second component of the result its value
    after; [now] is the clock reading taken when the load duration is
    recorded.  A timestamp of [0] is falsy, like a missing one. *)
Definition processSideEffects (flowVersion : string) (loadedTracked : bool)
    (now : Z) (action : ShopLoginAction)
    (previousState state : ShopLoginState) : list SideEffect * bool :=
  match action with
  | iframeLoaded payload =>
      let loadedEvent :=
        DispatchLoaded (localPresentationMode state) (pl_userFound payload) in
      (* Break out of the side effect processing if we've already tracked
         an event for this action. *)
      if loadedTracked then ([loadedEvent], loadedTracked)
      else
        let cardToButton :=
          PresentationMode_eqb (localPresentationMode previousState) card
          && PresentationMode_eqb (localPresentationMode state) button
          && negb (pl_userFound payload) in
        let toRecognizedButton :=
          PresentationMode_eqb (localPresentationMode previousState) button
          && PresentationMode_eqb (localPresentationMode state) button
          && pl_userFound payload in
        let timing :=
          match mountedTimestamp state with
          | Some t =>
              if Z.eqb t 0 then LogNoMountedTimestamp flowVersion
              else RecordLoadDuration flowVersion (now - t)
          | None => LogNoMountedTimestamp flowVersion
          end in
        (loadedEvent :: timing
           :: (if cardToButton then
                 [TrackPresentationModeChange button card user_not_recognized]
               else if toRecognizedButton then
                 [TrackPresentationModeChange button button user_recognized]
               else []),
         true)
  | userMatched _ =>
      ([DispatchShopUserMatched (localPresentationMode state);
        DispatchLookupEnd;
        TrackPresentationModeChange card button email_matched],
       loadedTracked)
  | dismiss =>
      (* Guard against invalid dismiss invocations. *)
      if PresentationMode_eqb (localPresentationMode previousState) card
         && PresentationMode_eqb (localPresentationMode state) button
      then ([TrackPresentationModeChange button card dismissed_reason],
            loadedTracked)
      else ([], loadedTracked)
  | _ => ([], loadedTracked)
  end.

(** The provider's mutable surroundings of the reducer: the state held by
    [useReducer] and the [loadedTracked] ref. *)
Record Provider : Type := {
  providerState : ShopLoginState;
  loadedTracked : bool
}.

(** [reducerWithDispatchedEventing] with its side effects: the next
    provider and what the step did.  [nowReducer] is the clock as the
    reducer reads it, [nowEffects] as the side effects read it. *)
Definition dispatchAction (presentationMode : PresentationMode)
    (flowVersion : string) (p : Provider)
    (nowReducer nowEffects : Z) (action : ShopLoginAction)
  : Provider * list SideEffect :=
  let previousState := providerState p in
  let enhancedAction :=
    match action with
    | iframeLoaded payload =>
        iframeLoaded
          {| pl_consented := pl_consented payload;
             pl_userFound := pl_userFound payload;
             pl_footerPolicy := pl_footerPolicy payload;
             pl_presentation :=
               getLocalPresentationMode
                 {| gp_dismissed := dismissed previousState;
                    gp_originalPresentationMode := presentationMode;
                    gp_userMatched := None;
                    gp_userRecognized := pl_userFound payload |};
             pl_loginHintMatch := pl_loginHintMatch payload |}
    | _ => action
    end in
  let nextState := shopLoginReducer nowReducer previousState enhancedAction in
  let (effects, tracked) :=
    processSideEffects flowVersion (loadedTracked p) nowEffects enhancedAction
      previousState nextState in
  ({| providerState := nextState; loadedTracked := tracked |}, effects).

(** One dispatched action with the two clock readings of its step. *)
Record Step : Type := {
  stepNowReducer : Z;
  stepNowEffects : Z;
  stepAction : ShopLoginAction
}.

(** A whole session: the provider after the steps and everything the
    steps did, in order. *)
Fixpoint runProvider (presentationMode : PresentationMode)
    (flowVersion : string) (p : Provider) (steps : list Step)
  : Provider * list SideEffect :=
  match steps with
  | [] => (p, [])
  | step :: rest =>
      let (p1, effects1) :=
        dispatchAction presentationMode flowVersion p
          (stepNowReducer step) (stepNowEffects step) (stepAction step) in
      let (p2, effects2) := runProvider presentationMode flowVersion p1 rest in
      (p2, effects1 ++ effects2)%list
  end.

(** The provider as [ShopLoginProvider] mounts it. *)
Definition mountProvider (presentationMode : PresentationMode)
    (textVariant0 urlLoginHint : option string) : Provider :=
  {| providerState :=
       createInitialState (Some presentationMode) textVariant0 urlLoginHint;
     loadedTracked := false |}.

Definition isLoadTiming (e : SideEffect) : bool :=
  match e with
  | RecordLoadDuration _ _ | LogNoMountedTimestamp _ => true
  | _ => false
  end.

Definition isDispatchLoaded (e : SideEffect) : bool :=
  match e with
  | DispatchLoaded _ _ => true
  | _ => false
  end.

Definition isIframeLoaded (step : Step) : bool :=
  match stepAction step with
  | iframeLoaded _ => true
  | _ => false
  end.

Definition count {A} (f : A -> bool) (l : list A) : nat :=
  List.length (filter f l).

End ShopLoginProvider.

(* ------------------------------------------------------------------ *)
(** ** Retrying a dynamic import *)

Module ImportWithRetry.
Import JsString RetryImport.

(** What an import can throw: an [Error], or something that is not one. *)
Inductive Thrown : Type :=
| ThrownError (error : Error)
| ThrownOther.

Inductive ImportOutcome (T : Type) : Type :=
| Imported (module : T)
| ImportFailed (thrown : Thrown).
Arguments Imported {T} module.
Arguments ImportFailed {T} thrown.

(** The three places where one round reads [signal?.aborted]. *)
Inductive Phase : Type := BeforeImport | AfterFailure | AfterDelay.

Inductive Event : Type :=
| CallImporter
| CallRetryImport (path : string)
| Wait (ms : Z).

(** How the promise settles: fulfilled with the module or with
    [undefined], or rejected with the error of the last attempt. *)
Inductive Settled (T : Type) : Type :=
| Fulfilled (value : option T)
| Rejected (error : Error).
Arguments Fulfilled {T} value.
Arguments Rejected {T} error.

(** [RetryConfig]; the signal is given by what [aborted] reads at each
    phase of each round. *)
Record RetryConfig : Type := {
  maxRetries : option Z;
  retryDelay : option Z;
  signal : option (nat -> Phase -> bool)
}.

Definition isImport (e : Event) : bool :=
  match e with
  | CallImporter | CallRetryImport _ => true
  | Wait _ => false
  end.

Definition isWait (e : Event) : bool :=
  match e with
  | Wait _ => true
  | _ => false
  end.

(** The configuration after its defaults: [{maxRetries = 3, retryDelay =
    1000, signal} = {}]. *)
Definition maxRetriesOf (config : option RetryConfig) : Z :=
  match config with
  | Some c => match maxRetries c with Some n => n | None => 3%Z end
  | None => 3%Z
  end.

Definition retryDelayOf (config : option RetryConfig) : Z :=
  match config with
  | Some c => match retryDelay c with Some d => d | None => 1000%Z end
  | None => 1000%Z
  end.

Definition signalOf (config : option RetryConfig)
  : option (nat -> Phase -> bool) :=
  match config with
  | Some c => signal c
  | None => None
  end.

Section WithEnvironment.

Variable T : Type.
Variable URL : Type.
(** The [URL] constructor, and [url.href] once the search parameter [t]
    has been set to the clock reading. *)
Variable newURL : string -> option URL.
Variable hrefWithTimestamp : URL -> Z -> string.
(** The outcome of [importer()] and of [retryImport(path)] in round
    [retryCount], and [Date.now()] in that round. *)
Variable importer : nat -> ImportOutcome T.
Variable retryImport : nat -> string -> ImportOutcome T.
Variable now : nat -> Z.

(** [signal?.aborted] *)
Definition aborted (signal0 : option (nat -> Phase -> bool))
    (retryCount : nat) (phase : Phase) : bool :=
  match signal0 with
  | Some s => s retryCount phase
  | None => false
  end.

(** The import a round makes: the retry path when there is a non-empty
    one, the original importer otherwise. *)
Definition attempt (retryCount : nat) (retryImportPath : option string)
  : Event * ImportOutcome T :=
  match retryImportPath with
  | Some (String c path) =>
      (CallRetryImport (String c path), retryImport retryCount (String c path))
  | _ => (CallImporter, importer retryCount)
  end.

Definition prepend (events : list Event)
    (r : option (Settled T * list Event)) : option (Settled T * list Event) :=
  match r with
  | Some (settled, trace) => Some (settled, (events ++ trace)%list)
  | None => None
  end.

(** [executeWithRetry] for a whole number [maxRetries] and imports that
    settle; [fuel] bounds the rounds followed.  [executeWithRetryJs] below
    lifts both restrictions. *)
Fixpoint executeWithRetry (maxRetries0 retryDelay0 : Z)
    (signal0 : option (nat -> Phase -> bool))
    (fuel retryCount : nat) (retryImportPath : option string)
  : option (Settled T * list Event) :=
  match fuel with
  | O => None
  | S fuel' =>
      if aborted signal0 retryCount BeforeImport then Some (Fulfilled None, [])
      else
        let (call, outcome) := attempt retryCount retryImportPath in
        match outcome with
        | Imported module => Some (Fulfilled (Some module), [call])
        | ImportFailed ThrownOther => Some (Fulfilled None, [call])
        | ImportFailed (ThrownError error) =>
            if aborted signal0 retryCount AfterFailure then
              Some (Fulfilled None, [call])
            else if (Z.of_nat retryCount >=? maxRetries0 - 1)%Z then
              Some (Rejected error, [call])
            else
              (* Try to extract URL from Chrome/Firefox error message *)
              match extractUrlFromError URL newURL error with
              | Some url =>
                  (* Chrome/Firefox: retry with cache-busting timestamp *)
                  if aborted signal0 retryCount AfterDelay then
                    Some (Fulfilled None, [call; Wait retryDelay0])
                  else
                    prepend [call; Wait retryDelay0]
                      (executeWithRetry maxRetries0 retryDelay0 signal0 fuel'
                         (S retryCount)
                         (Some (hrefWithTimestamp url (now retryCount))))
              | None =>
                  if isGenericModuleError error then
                    (* Generic module error (e.g., Safari/WebViews): retry
                       original importer *)
                    if aborted signal0 retryCount AfterDelay then
                      Some (Fulfilled None, [call; Wait retryDelay0])
                    else
                      prepend [call; Wait retryDelay0]
                        (executeWithRetry maxRetries0 retryDelay0 signal0 fuel'
                           (S retryCount) None)
                  else Some (Rejected error, [call])
              end
        end
  end.

(** [importWithRetry]: the rounds followed are as many as [maxRetries]
    allows, and one at least. *)
Definition importWithRetry (config : option RetryConfig)
  : option (Settled T * list Event) :=
  executeWithRetry (maxRetriesOf config) (retryDelayOf config)
    (signalOf config)
    (S (Z.to_nat (maxRetriesOf config - 1))) 0 None.

End WithEnvironment.

(** [maxRetries] is a JavaScript number: a finite one, an infinity or
    [NaN].  The finite doubles are rationals, and [x - 1] is exact for the
    doubles a retry count can reach. *)
Inductive JsNumber : Type :=
| Finite (q : Q)
| PosInfinity
| NegInfinity
| NaN.

(** [retryCount >= maxRetries - 1]: a comparison with [NaN] is false. *)
Definition attemptsUsedUp (retryCount : nat) (maxRetries0 : JsNumber) : bool :=
  match maxRetries0 with
  | Finite q => Qle_bool (q - 1)%Q (inject_Z (Z.of_nat retryCount))
  | PosInfinity => false
  | NegInfinity => true
  | NaN => false
  end.

(** [{maxRetries = 3, retryDelay = 1000, signal}]: a default stands in
    for a property that is [undefined]. *)
Definition maxRetriesOr3 (maxRetries0 : option JsNumber) : JsNumber :=
  match maxRetries0 with
  | Some n => n
  | None => Finite 3%Q
  end.

Definition retryDelayOr1000 (retryDelay0 : option Z) : Z :=
  match retryDelay0 with
  | Some d => d
  | None => 1000%Z
  end.

Section WithPendingImports.

Variable T : Type.
Variable URL : Type.
Variable newURL : string -> option URL.
Variable hrefWithTimestamp : URL -> Z -> string.
(** The outcome of [importer()] and of [retryImport(path)] in round
    [retryCount], [None] when that promise never settles; and
    [Date.now()] in that round. *)
Variable importer : nat -> option (ImportOutcome T).
Variable retryImport : nat -> string -> option (ImportOutcome T).
Variable now : nat -> Z.

Definition attemptJs (retryCount : nat) (retryImportPath : option string)
  : Event * option (ImportOutcome T) :=
  match retryImportPath with
  | Some (String c path) =>
      (CallRetryImport (String c path), retryImport retryCount (String c path))
  | _ => (CallImporter, importer retryCount)
  end.

(** [executeWithRetry] with [maxRetries] any JavaScript number and with
    imports that may never settle; [fuel] bounds the rounds followed, and
    [None] means that the promise has not settled within them. *)
Fixpoint executeWithRetryJs (maxRetries0 : JsNumber) (retryDelay0 : Z)
    (signal0 : option (nat -> Phase -> bool))
    (fuel retryCount : nat) (retryImportPath : option string)
  : option (Settled T * list Event) :=
  match fuel with
  | O => None
  | S fuel' =>
      if aborted signal0 retryCount BeforeImport then Some (Fulfilled None, [])
      else
        let (call, outcome) := attemptJs retryCount retryImportPath in
        match outcome with
        | None => None
        | Some (Imported module) => Some (Fulfilled (Some module), [call])
        | Some (ImportFailed ThrownOther) => Some (Fulfilled None, [call])
        | Some (ImportFailed (ThrownError error)) =>
            if aborted signal0 retryCount AfterFailure then
              Some (Fulfilled None, [call])
            else if attemptsUsedUp retryCount maxRetries0 then
              Some (Rejected error, [call])
            else
              match extractUrlFromError URL newURL error with
              | Some url =>
                  if aborted signal0 retryCount AfterDelay then
                    Some (Fulfilled None, [call; Wait retryDelay0])
                  else
                    prepend T [call; Wait retryDelay0]
                      (executeWithRetryJs maxRetries0 retryDelay0 signal0 fuel'
                         (S retryCount)
                         (Some (hrefWithTimestamp url (now retryCount))))
              | None =>
                  if isGenericModuleError error then
                    if aborted signal0 retryCount AfterDelay then
                      Some (Fulfilled None, [call; Wait retryDelay0])
                    else
                      prepend T [call; Wait retryDelay0]
                        (executeWithRetryJs maxRetries0 retryDelay0 signal0
                           fuel' (S retryCount) None)
                  else Some (Rejected error, [call])
              end
        end
  end.

(** [importWithRetry] with its configuration taken apart. *)
Definition importWithRetryJs (maxRetries0 : option JsNumber)
    (retryDelay0 : option Z) (signal0 : option (nat -> Phase -> bool))
    (fuel : nat) : option (Settled T * list Event) :=
  executeWithRetryJs (maxRetriesOr3 maxRetries0) (retryDelayOr1000 retryDelay0)
    signal0 fuel 0 None.

End WithPendingImports.


(** [n] calls of the importer with a wait of [ms] between two of them. *)
Fixpoint importerRounds (ms : Z) (n : nat) : list Event :=
  match n with
  | O => []
  | S O => [CallImporter]
  | S n' => CallImporter :: Wait ms :: importerRounds ms n'
  end.

(** An importer that always fails the Safari way. *)
Definition safariFailure (n : nat) : ImportOutcome unit :=
  ImportFailed
    (ThrownError {| message := "Importing a module script failed." |}).

End ImportWithRetry.

(* ------------------------------------------------------------------ *)
(** ** Objects and maps keyed by strings *)

Module JsObject.

(** A JavaScript object (or [Map]) with string keys: its entries in
    insertion order, no key twice. *)
Definition Obj (V : Type) : Type := list (string * V).

(** [obj[key]], [map.get(key)] *)
Fixpoint objGet {V} (o : Obj V) (key : string) : option V :=
  match o with
  | [] => None
  | (k, v) :: rest => if String.eqb k key then Some v else objGet rest key
  end.

(** [obj[key] = value], [map.set(key, value)]: an existing key keeps its
    place, a new one goes last. *)
Fixpoint objSet {V} (o : Obj V) (key : string) (value : V) : Obj V :=
  match o with
  | [] => [(key, value)]
  | (k, v) :: rest =>
      if String.eqb k key then (k, value) :: rest
      else (k, v) :: objSet rest key value
  end.

(** [{...a, ...b}] *)
Definition spread {V} (a b : Obj V) : Obj V :=
  fold_left (fun acc kv => objSet acc (fst kv) (snd kv)) b a.

(** [Object.keys(o)], [Array.from(map.keys())] *)
Definition objKeys {V} (o : Obj V) : list string := map fst o.

End JsObject.

(* ------------------------------------------------------------------ *)
(** ** Internationalization: the locale and the dictionaries *)

Module I18n.
Import JsString JsObject.

(** The counters [getDefaultLanguage] records for a candidate it passes
    over. *)
Inductive Counter : Type :=
| UnsupportedLocale (locale : string)
| InvalidLocale (locale : string).

Definition counterLocale (c : Counter) : string :=
  match c with
  | UnsupportedLocale l | InvalidLocale l => l
  end.

(** A non-empty string is truthy. *)
Definition truthy (s : string) : bool :=
  match s with
  | EmptyString => false
  | String _ _ => true
  end.

Section WithLocales.

(** [SUPPORTED_LOCALES] of [./context], and the [language] subtag of
    [new Intl.Locale(tag)], [None] when the constructor throws. *)
Variable SUPPORTED_LOCALES : list string.
Variable intlLocaleLanguage : string -> option string.

Definition isSupportedLocale (locale : string) : bool :=
  arrayIncludes SUPPORTED_LOCALES locale.

(** The candidates in their order of preference, the falsy ones filtered
    out. *)
Definition potentialLocales (overrideLocale : option string)
    (documentLang : string) (shopifyLocale : option string)
    (navigatorLanguages : list string) : list string :=
  filter truthy
    ((match overrideLocale with Some l => [l] | None => [] end)
       ++ [documentLang]
       ++ (match shopifyLocale with Some l => [l] | None => [] end)
       ++ navigatorLanguages)%list.

(** The loop of [getDefaultLanguage]: the first candidate that is
    supported, or whose language is, ends it. *)
Fixpoint pickLocale (candidates : list string) : option string * list Counter :=
  match candidates with
  | [] => (None, [])
  | localeCandidate :: rest =>
      if isSupportedLocale localeCandidate then (Some localeCandidate, [])
      else
        match intlLocaleLanguage localeCandidate with
        | Some language =>
            if truthy language && isSupportedLocale language then
              (* Fallback on the unsupported language, pick the language
                 without the region (e.g. 'en-GB' -> 'en') *)
              (Some language, [])
            else
              let (result, counters) := pickLocale rest in
              (result, UnsupportedLocale localeCandidate :: counters)
        | None =>
            (* Intl.Locale failed to parse the locale *)
            let (result, counters) := pickLocale rest in
            (result, InvalidLocale localeCandidate :: counters)
        end
  end.

Definition getDefaultLanguage (overrideLocale : option string)
    (documentLang : string) (shopifyLocale : option string)
    (navigatorLanguages : list string) : string * list Counter :=
  let (result, counters) :=
    pickLocale
      (potentialLocales overrideLocale documentLang shopifyLocale
         navigatorLanguages) in
  (match result with
   | Some r => if truthy r then r else "en"
   | None => "en"
   end, counters).

(** What a single candidate gives: itself when supported, its language
    when that is supported, nothing otherwise. *)
Definition resolves (localeCandidate : string) : option string :=
  if isSupportedLocale localeCandidate then Some localeCandidate
  else
    match intlLocaleLanguage localeCandidate with
    | Some language =>
        if truthy language && isSupportedLocale language then Some language
        else None
    | None => None
    end.

End WithLocales.

(** The module state of [I18n.tsx]: the callbacks and the feature
    dictionaries waiting for the next update, and the dictionaries per
    locale.  A callback is named by a number. *)
Record Store (V : Type) : Type := {
  pendingCallbacks : list nat;
  pendingTranslations : list (Obj V);
  translations : Obj (Obj V)
}.
Arguments pendingCallbacks {V} s.
Arguments pendingTranslations {V} s.
Arguments translations {V} s.

(** [updateTranslations]: the store after the call and the callbacks
    invoked, in order. *)
Definition updateTranslations {V} (locale : string) (store : Store V)
  : Store V * list nat :=
  let dictionary :=
    fold_left (fun dictionary translations0 => spread dictionary translations0)
      (pendingTranslations store) [] in
  let currentDictionary :=
    match objGet (translations store) locale with
    | Some d => d
    | None => []
    end in
  ({| pendingCallbacks := [];
      pendingTranslations := [];
      translations :=
        objSet (translations store) locale (spread currentDictionary dictionary)
   |},
   pendingCallbacks store).

(** The value the last of the dictionaries that has [key] gives it. *)
Definition lastBinding {V} (dictionaries : list (Obj V)) (key : string)
  : option V :=
  fold_left (fun found d =>
               match objGet d key with
               | Some v => Some v
               | None => found
               end) dictionaries None.

End I18n.

(* ------------------------------------------------------------------ *)
(** ** The authentication domains *)

Module Domains.
Import JsString.

(** [s.slice(0, n)] *)
Fixpoint take (n : nat) (s : string) : string :=
  match n, s with
  | O, _ => EmptyString
  | S _, EmptyString => EmptyString
  | S n', String c s' => String c (take n' s')
  end.

(** [s.endsWith(suffix)] *)
Definition endsWith (s suffix : string) : bool :=
  Nat.leb (String.length suffix) (String.length s)
  && String.eqb (drop (String.length s - String.length suffix) s) suffix.

(** [getDevFqdn]: the pattern [/\.shop\.dev$/] matches the hostnames that
    end in [.shop.dev]. *)
Definition getDevFqdn (hostname : string) : option string :=
  let isLocalDev := endsWith hostname ".shop.dev" in
  let isShopWebDev := String.eqb hostname "web-shop-client.shop.dev" in
  if isLocalDev && negb isShopWebDev then Some "shop.dev" else None.

Record Location : Type := {
  origin : string;
  hostname : string
}.

(** The build-time environment. *)
Record ProcessEnv : Type := {
  CORE_AUTH_DOMAIN : option string;
  PAY_AUTH_DOMAIN : option string;
  PAY_AUTH_ALT_DOMAIN : option string
}.

Record AuthDomains : Type := {
  coreAuthDomain : string;
  payAuthDomain : option string;
  payAuthDomainAlt : option string
}.

Definition getDomains (env : ProcessEnv) (location : Location) : AuthDomains :=
  match getDevFqdn (hostname location) with
  | Some devFqdn =>
      {| coreAuthDomain := "https://shop1.my." ++ devFqdn;
         payAuthDomain := Some ("https://shop-server." ++ devFqdn);
         payAuthDomainAlt := Some ("https://pay-shopify-com." ++ devFqdn) |}
  | None =>
      {| coreAuthDomain :=
           match CORE_AUTH_DOMAIN env with
           | Some (String c d) => String c d
           | _ => origin location
           end;
         payAuthDomain := PAY_AUTH_DOMAIN env;
         payAuthDomainAlt := PAY_AUTH_ALT_DOMAIN env |}
  end.

End Domains.

(* ------------------------------------------------------------------ *)
(** ** The footer policy: a text with links in place of placeholders *)

Module FooterPolicyText.
Import JsString JsObject Domains.

Record FooterPolicyLink : Type := {
  linkText : string;
  linkUrl : string
}.

(** [state.footerPolicy]: the text and, per key, a link or nothing. *)
Record FooterPolicy : Type := {
  policyText : string;
  policyLinks : Obj (option FooterPolicyLink)
}.

(** What is rendered: a piece of text, or the link element that took the
    place of the placeholder of [key]. *)
Inductive Child : Type :=
| TextChild (text : string)
| LinkChild (key : string) (link : FooterPolicyLink).

(** The placeholder of a key in the text. *)
Definition placeholder (key : string) : string := "{" ++ key ++ "}".

(** The map [links]: the entries whose value is truthy. *)
Definition linksMap (entries : Obj (option FooterPolicyLink))
  : Obj FooterPolicyLink :=
  fold_left (fun links kv =>
               match snd kv with
               | Some value => objSet links (fst kv) value
               | None => links
               end) entries [].

(** A key made of letters and underscores only, and not empty: in the
    pattern built from such keys every placeholder stands for itself. *)
Definition isKeyChar (c : ascii) : bool :=
  let n := N_of_ascii c in
  ((65 <=? n)%N && (n <=? 90)%N)
  || ((97 <=? n)%N && (n <=? 122)%N)
  || (n =? 95)%N.

Fixpoint allKeyChars (key : string) : bool :=
  match key with
  | EmptyString => true
  | String c rest => isKeyChar c && allKeyChars rest
  end.

Definition plainKey (key : string) : bool :=
  match key with
  | EmptyString => false
  | String _ _ => allKeyChars key
  end.

(** The alternative of the pattern [({k1}|{k2}|...)] that matches at the
    head of [s], tried in order.  The keys are put into the pattern as
    they are: what is modelled here is the pattern of keys that stand for
    themselves there, the plain keys above.  A key with a character the
    pattern language gives a meaning to makes another pattern, or none at
    all, and is left out of the model. *)
Fixpoint firstPlaceholderAt (linkKeys : list string) (s : string)
  : option string :=
  match linkKeys with
  | [] => None
  | key :: rest =>
      if startsWith s (placeholder key) then Some (placeholder key)
      else firstPlaceholderAt rest s
  end.

(** [text.split(pattern)] for that pattern, whose one capturing group puts
    every separator into the result: the text before a match, the match,
    and so on, and at the end what is left.  [skip] counts the characters
    of a match still to pass, [current] collects the text since the last
    match. *)
Fixpoint splitGo (linkKeys : list string) (s : string) (skip : nat)
    (current : string) : list string :=
  match s with
  | EmptyString => [current]
  | String c s' =>
      match skip with
      | S k => splitGo linkKeys s' k current
      | O =>
          match firstPlaceholderAt linkKeys s with
          | Some separator =>
              current :: separator
                :: splitGo linkKeys s' (String.length separator - 1) ""
          | None => splitGo linkKeys s' 0 (current ++ String c "")
          end
      end
  end.

Definition splitByPlaceholders (linkKeys : list string) (text : string)
  : list string :=
  splitGo linkKeys text 0 "".

(** The body of the [forEach]: an item in braces whose key has a link
    becomes that link. *)
Definition resolveItem (links : Obj FooterPolicyLink) (item : string) : Child :=
  if startsWith item "{" && endsWith item "}" then
    let key := replace (replace item "{" "") "}" "" in
    match objGet links key with
    | Some link => LinkChild key link
    | None => TextChild item
    end
  else TextChild item.

(** The memoized [footerPolicy] of the component: [None] is [null]. *)
Definition footerPolicy (policy : option FooterPolicy) : option (list Child) :=
  match policy with
  | None => None
  | Some p =>
      let links := linksMap (policyLinks p) in
      let linkKeys := objKeys links in
      match linkKeys with
      | [] => Some [TextChild (policyText p)]
      | _ =>
          Some (map (resolveItem links)
                  (splitByPlaceholders linkKeys (policyText p)))
      end
  end.

(** The text a child stands for. *)
Definition sourceOf (child : Child) : string :=
  match child with
  | TextChild text => text
  | LinkChild key _ => placeholder key
  end.

Definition concatStrings (pieces : list string) : string :=
  fold_right append "" pieces.

(** No placeholder of the given keys occurs in the text. *)
Definition placeholderFree (linkKeys : list string) (text : string) : Prop :=
  forall key, In key linkKeys -> includes text (placeholder key) = false.

(** A policy with two links and a key without link. *)
Definition samplePolicy : FooterPolicy :=
  {| policyText := "By continuing, you agree to the {terms} and {privacy}.";
     policyLinks :=
       [ ("terms",
          Some {| linkText := "Terms"; linkUrl := "https://shop.app/terms" |});
         ("client", None);
         ("privacy",
          Some {| linkText := "Privacy Policy";
                  linkUrl := "https://shop.app/privacy" |}) ] |}.

End FooterPolicyText.

(* ------------------------------------------------------------------ *)
(** ** Iframe errors: which ones are worth reporting *)

Module IframeErrors.
Import JsString.

(** The patterns used here are sequences of literal texts and of
    non-empty runs of characters of one class. *)
Inductive Token : Type :=
| Lit (text : string)
| OneOrMore (class : ascii -> bool).

(** [\d] *)
Definition isDigit (c : ascii) : bool :=
  let n := N_of_ascii c in
  (48 <=? n)%N && (n <=? 57)%N.

(** [[^']] *)
Definition notQuote (c : ascii) : bool :=
  negb (Ascii.eqb c "'"%char).

(** A non-empty run followed by whatever [k] accepts, every length of the
    run being tried. *)
Fixpoint oneOrMore (class : ascii -> bool) (k : string -> bool) (s : string)
  : bool :=
  match s with
  | EmptyString => false
  | String c s' => class c && (oneOrMore class k s' || k s')
  end.

(** The pattern matches at the head of [s]. *)
Fixpoint matchHere (pattern : list Token) : string -> bool :=
  match pattern with
  | [] => fun _ => true
  | Lit text :: rest =>
      fun s => startsWith s text && matchHere rest (drop (String.length text) s)
  | OneOrMore class :: rest =>
      fun s => oneOrMore class (matchHere rest) s
  end.

(** [regex.test(s)] for a pattern without flags: it matches somewhere. *)
Fixpoint test (pattern : list Token) (s : string) : bool :=
  matchHere pattern s
  || match s with
     | EmptyString => false
     | String _ s' => test pattern s'
     end.

Definition SILENT_SDK_ERROR_CODES : list string :=
  ["api_unavailable"; "captcha_challenge"; "retriable_server_error"].

Definition CONFLICTING_SUBJECT : list Token :=
  [ Lit "existing customer "; OneOrMore isDigit;
    Lit " on shop "; OneOrMore isDigit;
    Lit " has a conflicting provider subject associated: existing '";
    OneOrMore notQuote;
    Lit "' != incoming '"; OneOrMore notQuote; Lit "'" ].

Definition NO_PREQUALIFICATION : list Token :=
  [ Lit "no_prequalification_amount_available" ].

Definition SILENT_MESSAGE_REGEX : list (list Token) :=
  [ CONFLICTING_SUBJECT; NO_PREQUALIFICATION ].

Definition isUsefulError (code message : string) : bool :=
  negb (arrayIncludes SILENT_SDK_ERROR_CODES code
        || existsb (fun regex => test regex message) SILENT_MESSAGE_REGEX).

(** What the [onError] handlers of the two iframe components do. *)
Inductive ErrorEffect : Type :=
| LeaveBreadcrumb (name : string)
| Notify (message errorName : string)
| RecordSilentError (errorCode : string)
| ClearLoadTimeout
| CallOnError.

(** [onError] of [LoginIframe] *)
Definition loginIframeOnError (code message : string) : list ErrorEffect :=
  (if isUsefulError code message then
     [LeaveBreadcrumb "shop login iframe error";
      Notify message "ShopLoginIframeError"]
   else
     [RecordSilentError code; LeaveBreadcrumb "silent error"])
  ++ [ClearLoadTimeout].

(** [onError] of [AuthorizeIframe]; [hasOnError] says whether the
    component was given an [onError] prop. *)
Definition authorizeIframeOnError (hasOnError : bool) (code message : string)
  : list ErrorEffect :=
  (if isUsefulError code message then
     [LeaveBreadcrumb "authorize error"; Notify message "AuthorizeError"]
   else
     [RecordSilentError code; LeaveBreadcrumb "silent error"])
  ++ [ClearLoadTimeout]
  ++ (if hasOnError then [CallOnError] else []).

(** The texts a pattern stands for. *)
Fixpoint allIn (class : ascii -> bool) (s : string) : bool :=
  match s with
  | EmptyString => true
  | String c s' => class c && allIn class s'
  end.

Inductive Matches : list Token -> string -> Prop :=
| Matches_nil : Matches [] ""
| Matches_lit : forall text rest m,
    Matches rest m -> Matches (Lit text :: rest) (text ++ m)
| Matches_run : forall class rest c run m,
    allIn class (String c run) = true ->
    Matches rest m ->
    Matches (OneOrMore class :: rest) (String c run ++ m).

(** The messages about a conflicting provider subject. *)
Definition conflictingSubject (m : string) : Prop :=
  exists customer shop existing incoming,
    customer <> "" /\ allIn isDigit customer = true
    /\ shop <> "" /\ allIn isDigit shop = true
    /\ existing <> "" /\ allIn notQuote existing = true
    /\ incoming <> "" /\ allIn notQuote incoming = true
    /\ m = "existing customer " ++ customer ++ " on shop " ++ shop
           ++ " has a conflicting provider subject associated: existing '"
           ++ existing ++ "' != incoming '" ++ incoming ++ "'".

End IframeErrors.

(* ================================================================== *)
(** * Properties *)

(* ------------------------------------------------------------------ *)
(** ** Strings *)

Module JsStringFacts.
Import JsString.

Lemma startsWith_app (p r : string) : startsWith (p ++ r) p = true.
Proof.
  induction p as [|c p IH]; simpl; [now destruct r|].
  now rewrite Ascii.eqb_refl, IH.
Qed.

Lemma startsWith_inv (s p : string) :
  startsWith s p = true -> exists r, s = p ++ r.
Proof.
  revert s; induction p as [|c p IH]; intros s H.
  - now exists s.
  - destruct s as [|d s]; simpl in H; [discriminate|].
    apply andb_true_iff in H as [Hc Hs].
    apply Ascii.eqb_eq in Hc; subst d.
    destruct (IH _ Hs) as [r ->]. now exists r.
Qed.

Lemma startsWith_iff (s p : string) :
  startsWith s p = true <-> exists r, s = p ++ r.
Proof.
  split; [apply startsWith_inv|].
  intros [r ->]. apply startsWith_app.
Qed.

Lemma string_app_assoc (a b c : string) : (a ++ b) ++ c = a ++ b ++ c.
Proof. induction a as [|x a IH]; simpl; [reflexivity | now rewrite IH]. Qed.

Lemma string_app_empty_r (a : string) : a ++ "" = a.
Proof. induction a as [|x a IH]; simpl; [reflexivity | now rewrite IH]. Qed.

(** [includes] finds exactly the substrings. *)
Lemma includes_iff (s needle : string) :
  includes s needle = true <-> exists a b, s = a ++ needle ++ b.
Proof.
  split.
  - induction s as [|c s IH]; cbn [includes]; intros H.
    + rewrite orb_false_r in H. apply startsWith_inv in H as [r ->].
      now exists "", r.
    + apply orb_true_iff in H as [H|H].
      * apply startsWith_inv in H as [r ->]. now exists "", r.
      * destruct (IH H) as (a & b & ->). now exists (String c a), b.
  - intros (a & b & ->). induction a as [|c a IH].
    + change ("" ++ needle ++ b) with (needle ++ b).
      destruct (needle ++ b) eqn:E; cbn [includes];
        rewrite <- E, startsWith_app; reflexivity.
    + change (String c a ++ needle ++ b) with (String c (a ++ needle ++ b)).
      cbn [includes]. rewrite IH. apply orb_true_r.
Qed.

(** A text that contains a marker contains every prefix of the marker. *)
Lemma includes_prefix (s p q : string) :
  includes s (p ++ q) = true -> includes s p = true.
Proof.
  rewrite !includes_iff. intros (a & b & ->).
  exists a, (q ++ b). now rewrite string_app_assoc.
Qed.

Lemma drop_app (p r : string) : drop (String.length p) (p ++ r) = r.
Proof. induction p as [|c p IH]; simpl; [now destruct r | exact IH]. Qed.

(** Replacing a text that leads the string removes it there. *)
Lemma replace_prefix (p r rep : string) :
  replace (p ++ r) p rep = rep ++ r.
Proof.
  destruct (p ++ r) eqn:E; cbn [replace]; rewrite <- E, startsWith_app, drop_app;
    reflexivity.
Qed.

Lemma includes_false_startsWith (s p : string) :
  includes s p = false -> startsWith s p = false.
Proof.
  destruct s; cbn [includes]; intros H; now apply orb_false_iff in H as [H _].
Qed.

(** Replacing a text that does not occur changes nothing. *)
Lemma replace_absent (s p rep : string) :
  includes s p = false -> replace s p rep = s.
Proof.
  induction s as [|c s IH]; cbn [includes replace]; intros H.
  - rewrite orb_false_r in H. now rewrite H.
  - apply orb_false_iff in H as [H1 H2]. rewrite H1. now rewrite IH.
Qed.

(** Replacing removes the first occurrence, wherever it starts. *)
Lemma replace_first (a p b rep : string) :
  (forall a1 a2, a = a1 ++ a2 -> a2 <> "" ->
                 startsWith (a2 ++ p ++ b) p = false) ->
  replace (a ++ p ++ b) p rep = a ++ rep ++ b.
Proof.
  induction a as [|c a IH]; intros H.
  - change ("" ++ p ++ b) with (p ++ b). rewrite replace_prefix. reflexivity.
  - change (String c a ++ p ++ b) with (String c (a ++ p ++ b)).
    cbn [replace].
    change (String c (a ++ p ++ b)) with (String c a ++ p ++ b).
    rewrite (H "" (String c a) eq_refl) by discriminate.
    change (String c a ++ rep ++ b) with (String c (a ++ rep ++ b)).
    f_equal. apply IH. intros a1 a2 -> Hne.
    apply (H (String c a1) a2); [reflexivity | assumption].
Qed.

End JsStringFacts.

(* ------------------------------------------------------------------ *)
(** ** Presentation policy and reducer *)

Module ShopLoginFacts.
Import ShopLogin.

(** C1.  The presentation policy: the result is card when the user is
    matched and the widget not dismissed; otherwise button when the
    original mode is button; otherwise card exactly when the user is
    recognized and the widget not dismissed, and button in every remaining
    case.  The result depends on these four inputs only. *)
Theorem getLocalPresentationMode_policy :
  forall (d : bool) (original : PresentationMode) (um : option bool) (ur : bool),
    let mode :=
      getLocalPresentationMode
        {| gp_dismissed := d; gp_originalPresentationMode := original;
           gp_userMatched := um; gp_userRecognized := ur |} in
    (um = Some true /\ d = false -> mode = card)
    /\ (~ (um = Some true /\ d = false) -> original = button -> mode = button)
    /\ (~ (um = Some true /\ d = false) -> original <> button ->
        (mode = card <-> ur = true /\ d = false))
    /\ (mode = card \/ mode = button).
Proof.
  intros d original um ur mode. subst mode. unfold getLocalPresentationMode.
  cbn [gp_dismissed gp_originalPresentationMode gp_userMatched gp_userRecognized].
  destruct um as [[|]|], d, original, ur; cbn;
    repeat split; intros; try tauto; try congruence; try discriminate;
    try (exfalso; tauto); auto.
  all: match goal with
       | H : _ /\ _ |- _ => destruct H; congruence
       | H : ~ _ |- _ => exfalso; apply H; split; reflexivity
       | _ => idtac
       end.
Qed.

Lemma getLocalPresentationMode_policy_witness :
  getLocalPresentationMode
    {| gp_dismissed := false; gp_originalPresentationMode := button;
       gp_userMatched := Some true; gp_userRecognized := false |} = card.
Proof.
  destruct (getLocalPresentationMode_policy false button (Some true) false)
    as [H _].
  apply H. split; reflexivity.
Defined.

(** Dismissing always lands on the button. *)
Lemma dismiss_is_button (now : Z) (s : ShopLoginState) :
  let s' := shopLoginReducer now s dismiss in
  dismissed s' = true /\ localPresentationMode s' = button.
Proof. split; reflexivity. Qed.

(** The policy never answers card for a dismissed widget. *)
Lemma policy_dismissed_button (original : PresentationMode) (um : option bool)
    (ur : bool) :
  getLocalPresentationMode
    {| gp_dismissed := true; gp_originalPresentationMode := original;
       gp_userMatched := um; gp_userRecognized := ur |} = button.
Proof. destruct um as [[|]|], original, ur; reflexivity. Qed.

(** One provider step keeps "dismissed shows the button", unless the action
    reopens a dismissed widget. *)
Lemma provider_step_keeps_button (mode : PresentationMode) (now : Z)
    (s : ShopLoginState) (a : ShopLoginAction) :
  dismissedIsButton s ->
  reopensDismissed s a = false ->
  dismissedIsButton (reducerWithDispatchedEventing mode now s a).
Proof.
  unfold dismissedIsButton, reopensDismissed.
  intros Inv Hsafe.
  destruct a as [ | payload | | | p | th | b | cookie | t ];
    cbn -[getLocalPresentationMode]; intros Hd;
    try (apply Inv; exact Hd); try reflexivity; try discriminate.
  - rewrite Hd. apply policy_dismissed_button.
  - rewrite Hd in Hsafe. destruct p; [reflexivity | discriminate].
  - rewrite Hd in Hsafe. destruct cookie; [reflexivity | discriminate].
Qed.

(** C2 (counterexample).  From the initial state, [dismiss] followed by the
    explicit setter with payload card reaches a dismissed state that shows
    the card. *)
Lemma dismissed_card_reachable :
  ~ (forall s, reachable initialState s -> dismissedIsButton s).
Proof.
  intros H.
  specialize
    (H (shopLoginReducer 0
          (shopLoginReducer 0 initialState dismiss)
          (setLocalPresentationMode card))).
  assert (R : reachable initialState
                (shopLoginReducer 0
                   (shopLoginReducer 0 initialState dismiss)
                   (setLocalPresentationMode card)))
    by (do 2 apply reachable_step; apply reachable_init).
  specialize (H R eq_refl). discriminate H.
Qed.

(** C2 (amended).  In every state reached from the provider's initial state
    through the provider's reducer, by actions none of which writes the
    card mode while the widget is dismissed, a dismissed widget shows the
    button. *)
Theorem provider_dismissed_is_button :
  forall (mode : PresentationMode) (presentationMode : option PresentationMode)
         (textVariant0 urlLoginHint : option string) (s : ShopLoginState),
    providerReachable mode
      (createInitialState presentationMode textVariant0 urlLoginHint) s ->
    dismissedIsButton s.
Proof.
  intros mode pm tv hint s R.
  induction R as [ | s now a R IH Hsafe ].
  - intros Hd. discriminate Hd.
  - apply provider_step_keeps_button; assumption.
Qed.

Lemma provider_dismissed_is_button_witness :
  localPresentationMode
    (reducerWithDispatchedEventing card 5
       (reducerWithDispatchedEventing card 3
          (createInitialState (Some card) None None) dismiss)
       (iframeLoaded
          {| pl_consented := Some true; pl_userFound := true;
             pl_footerPolicy := None; pl_presentation := card;
             pl_loginHintMatch := None |})) = button.
Proof.
  apply (provider_dismissed_is_button card (Some card) None None).
  - apply providerReachable_step; [ | reflexivity ].
    apply providerReachable_step; [ | reflexivity ].
    apply providerReachable_init.
  - reflexivity.
Defined.

(** C3 (counterexample).  Two runs of the reducer on the same state and
    the same [mounted] action, at different clock readings, return
    different states. *)
Lemma shopLoginReducer_reads_clock : ~ clockIndependent.
Proof.
  intros H. specialize (H 0%Z 1%Z initialState mounted). discriminate H.
Qed.

(** C3 (amended).  For every action other than [mounted] the result is
    determined by the state and the action alone; for [mounted] the clock
    reading is stored in [mountedTimestamp] and every other field is
    determined by the state. *)
Theorem shopLoginReducer_pure_except_mounted :
  forall (now1 now2 : Z) (s : ShopLoginState) (a : ShopLoginAction),
    (a <> mounted -> shopLoginReducer now1 s a = shopLoginReducer now2 s a)
    /\ agreeExceptMountedTimestamp
         (shopLoginReducer now1 s a) (shopLoginReducer now2 s a)
    /\ mountedTimestamp (shopLoginReducer now1 s mounted) = Some now1.
Proof.
  intros now1 now2 s a. split; [ | split ].
  - destruct a; intros Hne; try reflexivity. now elim Hne.
  - destruct a; cbn; repeat split; reflexivity.
  - reflexivity.
Qed.

Lemma shopLoginReducer_pure_except_mounted_witness :
  shopLoginReducer 0 initialState (userMatched false)
  = shopLoginReducer 1 initialState (userMatched false).
Proof.
  destruct (shopLoginReducer_pure_except_mounted 0 1 initialState
              (userMatched false)) as [H _].
  apply H. discriminate.
Defined.

(** C10.  An action whose type is none of the handled ones leaves the
    state as it is; [setProcessing] changes the [processing] field only and
    [setParentTheme] the [parentTheme] field only. *)
Theorem shopLoginReducer_frame :
  forall (now : Z) (s : ShopLoginState),
    (forall a, ~ In (actionType a) handledTypes -> shopLoginReducer now s a = s)
    /\ (forall b,
          agreeExceptProcessing (shopLoginReducer now s (setProcessing b)) s
          /\ processing (shopLoginReducer now s (setProcessing b)) = b)
    /\ (forall theme,
          agreeExceptParentTheme (shopLoginReducer now s (setParentTheme theme)) s
          /\ parentTheme (shopLoginReducer now s (setParentTheme theme)) = theme).
Proof.
  intros now s. split; [ | split ].
  - intros a Hn. destruct a; try reflexivity;
      exfalso; apply Hn; cbn; tauto.
  - intros b. cbn. repeat split; reflexivity.
  - intros theme. cbn. repeat split; reflexivity.
Qed.

Lemma shopLoginReducer_frame_witness :
  shopLoginReducer 7 initialState (otherAction "uiRendered") = initialState.
Proof.
  destruct (shopLoginReducer_frame 7 initialState) as [H _].
  apply H. cbn. intros [E|[E|[E|[E|[E|[E|[E|[E|[]]]]]]]]]; discriminate E.
Defined.

End ShopLoginFacts.

(* ------------------------------------------------------------------ *)
(** ** The Bugsnag filter *)

Module BugsnagFacts.
Import JsString JsStringFacts Bugsnag.

Lemma arrayIncludes_In (l : list string) (x : string) :
  arrayIncludes l x = true <-> In x l.
Proof.
  unfold arrayIncludes. rewrite existsb_exists. split.
  - intros (y & Hy & E). apply String.eqb_eq in E. now subst.
  - intros H. exists x. split; [assumption | apply String.eqb_refl].
Qed.

Lemma optIncludes_Some (message0 : option string) (marker : string) :
  optIncludes message0 marker = true <->
  exists m, message0 = Some m /\ includes m marker = true.
Proof.
  destruct message0 as [m|]; cbn; split.
  - intros H. now exists m.
  - intros (m' & E & H). now inversion E; subst.
  - discriminate.
  - intros (m' & E & _). discriminate E.
Qed.

Lemma existsb_optIncludes (e : BugsnagException) (markers : list string) :
  existsb (fun marker => optIncludes (message e) marker) markers = true <->
  messageHasOneOf e markers.
Proof.
  unfold messageHasOneOf. rewrite existsb_exists. split.
  - intros (marker & Hin & H). apply optIncludes_Some in H as (m & E & H).
    now exists m, marker.
  - intros (m & marker & E & Hin & H). exists marker. split; [assumption|].
    apply optIncludes_Some. now exists m.
Qed.

Lemma isInProject_false (e : BugsnagException) :
  isInProject e = false <-> noInProjectFrame e.
Proof.
  unfold isInProject, noInProjectFrame.
  induction (stacktrace e) as [|f l IH]; cbn.
  - split; [intros _ frame [] | reflexivity].
  - rewrite orb_false_iff, IH. split.
    + intros [Hf Hl] frame [<-|Hin]; [assumption | now apply Hl].
    + intros H. split; [apply H; now left | intros frame Hin; apply H; now right].
Qed.

Lemma securityError_iff (e : BugsnagException) (marker1 marker2 : string) :
  String.eqb (errorClass e) "SecurityError"
  && optIncludes (message e) marker1 && optIncludes (message e) marker2 = true
  <-> securityErrorWith e marker1 marker2.
Proof.
  unfold securityErrorWith.
  rewrite !andb_true_iff, String.eqb_eq, !optIncludes_Some. split.
  - intros [[Hc (m & E & H1)] (m' & E' & H2)].
    rewrite E in E'. inversion E'; subst m'.
    split; [assumption|]. now exists m.
  - intros [Hc (m & E & H1 & H2)]. repeat split; try assumption; now exists m.
Qed.

Lemma isShopPayPaymentRequestFeature_iff (metadata : Metadata) :
  isShopPayPaymentRequestFeature (featureOf metadata) = true <->
  inShopPayPaymentRequestFeature metadata.
Proof.
  unfold isShopPayPaymentRequestFeature, featureOf, inShopPayPaymentRequestFeature.
  destruct (custom metadata) as [c|].
  - destruct (feature c) as [[f|]|] eqn:Ef.
    + rewrite arrayIncludes_In. split.
      * intros H. now exists c, f.
      * intros (c' & f' & Ec & Ef' & H). inversion Ec; subst c'.
        rewrite Ef in Ef'. now inversion Ef'; subst.
    + split; [discriminate|]. intros (c' & f' & Ec & Ef' & _).
      inversion Ec; subst c'. rewrite Ef in Ef'. discriminate Ef'.
    + split; [discriminate|]. intros (c' & f' & Ec & Ef' & _).
      inversion Ec; subst c'. rewrite Ef in Ef'. discriminate Ef'.
  - split; [discriminate|]. intros (c' & f' & Ec & _). discriminate Ec.
Qed.

(** [isIgnorable] holds exactly for the three families of the claim. *)
Lemma isIgnorable_iff (e : BugsnagException) (metadata : Metadata) :
  isIgnorable e (featureOf metadata) = true <-> ignorable e metadata.
Proof.
  unfold isIgnorable, ignorable.
  rewrite !orb_true_iff, andb_true_iff, negb_true_iff, isInProject_false,
    isShopPayPaymentRequestFeature_iff.
  unfold isSandboxedCookieError, isCrossOriginFrameAccessError.
  rewrite !securityError_iff.
  tauto.
Qed.

Lemma isUnactionable_iff (e : BugsnagException) :
  isUnactionable e = true <-> In (errorClass e) UNACTIONABLE_ERROR_CLASSES.
Proof. apply arrayIncludes_In. Qed.

Lemma isDynamicImportError_iff (e : BugsnagException) :
  isDynamicImportError e = true <-> dynamicImportError e.
Proof. apply existsb_optIncludes. Qed.

Lemma _isMonorailNetworkError_iff (e : BugsnagException) :
  _isMonorailNetworkError (message e) = true <->
  messageHasOneOf e
    [MONORAIL_NETWORK_ERROR_MARKER; MONORAIL_NETWORK_ERROR_BACKPRESSURE_MARKER].
Proof.
  rewrite <- existsb_optIncludes. unfold _isMonorailNetworkError.
  cbn [existsb]. now rewrite orb_false_r.
Qed.

Lemma isNetworkError_iff (e : BugsnagException) :
  isNetworkError e = true <-> networkError e.
Proof.
  unfold isNetworkError, networkError.
  rewrite !orb_true_iff, String.eqb_eq, existsb_optIncludes,
    _isMonorailNetworkError_iff.
  tauto.
Qed.



(** What the filter's calls put on the [shop_js_network_error] counter:
    [DynamicImportError] for a dynamic-import failure that reaches the
    check, [NetworkError] for the call without argument. *)
Lemma recorded_error_types (event : BugsnagEvent) (metadata : Metadata) :
  let recorded :=
    map handleNetworkError
      (onNetworkErrorCalls (handleCreateBugsnagParamsError event metadata)) in
  recorded = [] \/ recorded = [DynamicImportError] \/ recorded = [NetworkError].
Proof.
  unfold handleCreateBugsnagParamsError.
  destruct (exceptions event) as [|e rest]; [now left|].
  destruct (isIgnorable e (featureOf metadata)); [now left|].
  destruct (isUnactionable e); [now left|].
  destruct (isDynamicImportError e); [right; now left|].
  destruct (isNetworkError e); [right; now right | now left].
Qed.




End BugsnagFacts.

(* ------------------------------------------------------------------ *)
(** ** The retrying exporter *)

Module ExporterWithRetriesFacts.
Import ExporterWithRetries.

Lemma retryAfterOf_Some (error : Thrown) (after : RetryAfter) :
  retryAfterOf error = Some after <-> carriesRetryAfter error after.
Proof.
  unfold carriesRetryAfter. split.
  - destruct error as [[m|]|d]; cbn; intros H; try discriminate H.
    now exists m.
  - intros (m & -> & H). exact H.
Qed.

Lemma retryAfterOf_None (error : Thrown) :
  retryAfterOf error = None <-> forall after, ~ carriesRetryAfter error after.
Proof.
  split.
  - intros H after C. apply retryAfterOf_Some in C. congruence.
  - intros H. destruct (retryAfterOf error) as [after|] eqn:E; [|reflexivity].
    apply retryAfterOf_Some in E. now elim (H after).
Qed.

Section Exporter.

Variable exporter : Signal -> nat -> CallOutcome.
Variable getKeepalive : nat -> bool.

Local Abbreviation export := (exportWithRetries exporter getKeepalive).

Lemma exportOf_eq (signal : Signal) :
  exportOf exporter getKeepalive signal = export signal.
Proof. destruct signal; reflexivity. Qed.

(** A fulfilled call settles the export at once. *)
Lemma export_fulfilled (signal : Signal) (fuel attempt : nat) :
  exporter signal attempt = Fulfilled ->
  export signal (S fuel) attempt
  = Some (Resolved, [ExporterCall signal (getKeepalive attempt)]).
Proof. intros H. cbn. now rewrite H. Qed.

(** An error without back-off is rethrown after the single call. *)
Lemma export_rethrows (signal : Signal) (fuel attempt : nat) (error : Thrown) :
  exporter signal attempt = Rejected error ->
  retryAfterOf error = None ->
  export signal (S fuel) attempt
  = Some (Threw error, [ExporterCall signal (getKeepalive attempt)]).
Proof. intros H N. cbn. now rewrite H, N. Qed.

(** An error with back-off arms the timer and hands over to the retry. *)
Lemma export_retries (signal : Signal) (fuel attempt : nat) (error : Thrown)
    (after : RetryAfter) :
  exporter signal attempt = Rejected error ->
  retryAfterOf error = Some after ->
  export signal (S fuel) attempt
  = match export signal fuel (S attempt) with
    | None => None
    | Some (inner, trace) =>
        Some (Resolved,
              ExporterCall signal (getKeepalive attempt)
                :: SetTimeout (seconds after * 1000)
                :: trace ++ leftover inner)
    end.
Proof. intros H N. cbn. now rewrite H, N. Qed.


(** More attempts allowed never change a settled export. *)
Lemma export_fuel_mono (signal : Signal) (fuel fuel' attempt : nat)
    (x : Settled * list Event) :
  fuel <= fuel' ->
  export signal fuel attempt = Some x ->
  export signal fuel' attempt = Some x.
Proof.
  revert fuel' attempt x.
  induction fuel as [|fuel IH]; intros fuel' attempt x Hle H;
    [discriminate|].
  destruct fuel' as [|fuel']; [lia|].
  cbn in H |- *.
  destruct (exporter signal attempt) as [|error]; [assumption|].
  destruct (retryAfterOf error) as [after|]; [|assumption].
  destruct (export signal fuel (S attempt)) as [[inner tr]|] eqn:E;
    [|discriminate].
  rewrite (IH fuel' (S attempt) (inner, tr)); [assumption | lia | assumption].
Qed.

(** While the server keeps asking to come back later, the export stays
    pending. *)
Lemma export_pending (signal : Signal) (fuel attempt : nat) :
  (forall n, attempt <= n -> n < attempt + fuel ->
     exists error after,
       exporter signal n = Rejected error /\ retryAfterOf error = Some after) ->
  export signal fuel attempt = None.
Proof.
  revert attempt. induction fuel as [|fuel IH]; intros attempt H;
    [reflexivity|].
  destruct (H attempt) as (error & after & He & Ha); [lia | lia |].
  rewrite (export_retries _ _ _ _ _ He Ha).
  rewrite IH; [reflexivity|].
  intros n H1 H2. apply H; lia.
Qed.

(** A chain of [n] back-offs followed by an answer that is not one: the
    export settles, having called the exporter [n + 1] times and armed one
    timer per back-off, with the delay the server asked for. *)
Lemma export_chain (signal : Signal) (delays : list RetryAfter)
    (attempt : nat) :
  (forall i after, nth_error delays i = Some after ->
     exists error,
       exporter signal (attempt + i) = Rejected error
       /\ retryAfterOf error = Some after) ->
  (exporter signal (attempt + List.length delays) = Fulfilled
   \/ exists error,
        exporter signal (attempt + List.length delays) = Rejected error
        /\ retryAfterOf error = None) ->
  exists r trace,
    export signal (S (List.length delays)) attempt = Some (r, trace)
    /\ exporterCalls trace = S (List.length delays)
    /\ timers trace = map (fun after => seconds after * 1000)%Z delays
    /\ (delays <> [] -> r = Resolved).
Proof.
  revert attempt. induction delays as [|after delays IH]; intros attempt Hd Hend.
  - cbn [List.length] in *. rewrite Nat.add_0_r in Hend.
    destruct Hend as [Hf | (error & He & Hn)].
    + rewrite (export_fulfilled _ _ _ Hf).
      do 2 eexists. repeat split; try (intros H; now elim H).
    + rewrite (export_rethrows _ _ _ _ He Hn).
      do 2 eexists. repeat split; try (intros H; now elim H).
  - destruct (Hd 0 after eq_refl) as (error & He & Ha).
    rewrite Nat.add_0_r in He. cbn [List.length].
    rewrite (export_retries _ _ _ _ _ He Ha).
    destruct (IH (S attempt)) as (r & trace & E & Hc & Ht & _).
    + intros i a Hi. destruct (Hd (S i) a Hi) as (error' & He' & Ha').
      exists error'. split; [|assumption].
      now replace (S attempt + i) with (attempt + S i) by lia.
    + cbn [List.length] in Hend.
      now replace (S attempt + List.length delays)
        with (attempt + S (List.length delays)) by lia.
    + rewrite E. do 2 eexists. split; [reflexivity|].
      split; [ | split ].
      * unfold exporterCalls in *. cbn [filter List.length].
        rewrite filter_app, length_app, Hc.
        destruct r; cbn; lia.
      * unfold timers in *. cbn [flat_map map]. rewrite flat_map_app, Ht.
        destruct r; cbn; now rewrite app_nil_r.
      * reflexivity.
Qed.


End Exporter.


End ExporterWithRetriesFacts.

(* ------------------------------------------------------------------ *)
(** ** The windoid demultiplexer *)

Module WindoidFacts.
Import Windoid.

(** Split on the message type the way the [switch] does. *)
Ltac switch_on t :=
  repeat match goal with
         | |- context [String.eqb ?x ?c] =>
             is_var x; destruct (String.eqb_spec x c) as [->|?]
         end;
  cbn [String.eqb Ascii.eqb Bool.eqb orb andb].

(** Split on whatever a handler or the window reference turns out to be. *)
Ltac split_callbacks :=
  repeat match goal with
         | |- context [handleComplete ?p ?d] =>
             destruct (handleComplete p d) eqn:?
         | |- context [handleError ?p] =>
             destruct (handleError p) as [?|] eqn:?
         | |- context [handleCustomFlowSideEffect ?p] =>
             destruct (handleCustomFlowSideEffect p) as [?|] eqn:?
         | |- context [handleOpen ?p] =>
             destruct (handleOpen p) as [[|]|] eqn:?
         | |- context [handleClose ?p] =>
             destruct (handleClose p) as [[|]|] eqn:?
         | |- context [windoidPresent ?p] =>
             destruct (windoidPresent p) eqn:?
         | f : MessageEventData -> Completion |- context [?g ?d] =>
             constr_eq f g; destruct (f d) eqn:?
         end;
  cbn [fst snd app].

Ltac run_switch :=
  unfold handleWindoidMessage, handlerFor, closeWindoid, awaitOptional, await,
    emit, ret, bind; cbn [type].




(** Handlers that return normally let the whole run return normally. *)
Lemma wellBehaved_normal (p : Props) (data : MessageEventData) :
  wellBehaved p -> fst (handleWindoidMessage p data) = Normal.
Proof.
  intros (Hc & He & Hs & Ho & Hcl).
  destruct data as [t body]. run_switch.
  switch_on t; split_callbacks; try reflexivity; try congruence.
  all: try (rewrite Hc in *; discriminate).
  all: match goal with
       | H : forall f d, Some ?c = Some f -> f d = Normal,
         E : ?c ?d = Abrupt |- _ =>
           rewrite (H c d eq_refl) in E; discriminate E
       end.
Qed.






End WindoidFacts.

(* ------------------------------------------------------------------ *)
(** ** Posting after the iframe has loaded *)

Module IframePostMessageFacts.
Import IframePostMessage.

(** Waiting posts nothing. *)
Lemma waitForMessage_posts_nothing (messageType : string) (incoming : list string) :
  Forall (fun o => isPosted o = false)
    (fst (waitForMessage messageType incoming)).
Proof.
  induction incoming as [|m rest IH]; cbn; [constructor|].
  destruct (String.eqb m messageType).
  - repeat constructor.
  - destruct (waitForMessage messageType rest) as [obs k]. cbn in *.
    constructor; [reflexivity | assumption].
Qed.

(** The wait ends only with the awaited message. *)
Lemma waitForMessage_ends_with_awaited (messageType : string)
    (incoming : list string) (obs : list Obs) (rest : list string) :
  waitForMessage messageType incoming = (obs, Some rest) ->
  In (Received messageType) obs.
Proof.
  revert obs. induction incoming as [|m l IH]; cbn; intros obs H;
    [discriminate|].
  destruct (String.eqb_spec m messageType) as [->|Hne].
  - inversion H. now left.
  - destruct (waitForMessage messageType l) as [obs' k].
    inversion H; subst. right. now apply IH.
Qed.

(** The wait ends as soon as the awaited message arrives. *)
Lemma waitForMessage_resolves (messageType : string) (incoming : list string) :
  In messageType incoming ->
  exists rest, snd (waitForMessage messageType incoming) = Some rest.
Proof.
  induction incoming as [|m l IH]; cbn; intros H; [contradiction|].
  destruct (String.eqb_spec m messageType) as [->|Hne].
  - now eexists.
  - destruct H as [H|H]; [congruence|].
    destruct (waitForMessage messageType l) as [obs k]. now apply IH.
Qed.

(** A post found in a trace lies beyond any leading stretch without
    posts. *)
Lemma post_beyond_quiet_prefix (quiet tail pre post : list Obs)
    (event : string) (tracked : bool) :
  Forall (fun o => isPosted o = false) quiet ->
  (quiet ++ tail = pre ++ Posted event tracked :: post)%list ->
  exists pre', (pre = quiet ++ pre')%list.
Proof.
  intros Hq. revert pre.
  induction Hq as [|o quiet Ho Hq IH]; intros pre H.
  - now exists pre.
  - destruct pre as [|o' pre]; cbn in H; inversion H; subst.
    + discriminate Ho.
    + destruct (IH pre) as [pre' ->]; [assumption|]. now exists pre'.
Qed.

(** A helper that first waits for [loaded] posts only after it came. *)
Lemma await_then_post (event : string) (tracked : bool) (incoming : list string) :
  postsOnlyAfterLoaded
    (run [AwaitMessage "loaded"; PostMessage event tracked] incoming).
Proof.
  unfold postsOnlyAfterLoaded. cbn [run].
  pose proof (waitForMessage_posts_nothing "loaded" incoming) as Hq.
  pose proof (waitForMessage_ends_with_awaited "loaded" incoming) as He.
  destruct (waitForMessage "loaded" incoming) as [obs [rest|]]; cbn [fst] in Hq;
    intros pre e t post H;
    destruct (post_beyond_quiet_prefix _ _ _ _ _ _ Hq H) as [pre' ->].
  - apply in_or_app. left. now apply (He obs rest).
  - rewrite <- app_assoc in H. apply app_inv_head in H.
    destruct pre'; discriminate H.
Qed.

(** Once [loaded] arrives the held-back message is posted. *)
Lemma await_then_post_delivers (event : string) (tracked : bool)
    (incoming : list string) :
  In "loaded" incoming ->
  In (Posted event tracked)
    (run [AwaitMessage "loaded"; PostMessage event tracked] incoming).
Proof.
  intros H. cbn [run].
  destruct (waitForMessage_resolves "loaded" incoming H) as [rest E].
  destruct (waitForMessage "loaded" incoming) as [obs k]. cbn in E. subst k.
  apply in_or_app. right. now left.
Qed.

(** Both helpers hold the message back exactly when asked to and the
    iframe has not loaded. *)
Lemma helpers_programs (loaded : bool) (event : string)
    (options : option IframePostMessageOptions) :
  (wantsAfterLoaded options /\ loaded = false ->
   AuthorizeIframe.postMessageHelper loaded event options
   = [AwaitMessage "loaded"; PostMessage event true]
   /\ LoginIframe.postMessageHelper loaded event options
      = [AwaitMessage "loaded"; PostMessage event false])
  /\ (~ wantsAfterLoaded options \/ loaded = true ->
      AuthorizeIframe.postMessageHelper loaded event options
      = [PostMessage event true]
      /\ LoginIframe.postMessageHelper loaded event options
         = [PostMessage event false]).
Proof.
  unfold AuthorizeIframe.postMessageHelper, LoginIframe.postMessageHelper.
  split.
  - intros [(o & -> & Ho) ->]. rewrite Ho. split; reflexivity.
  - intros [Hn | ->].
    + destruct options as [[[[|]|]]|]; cbn;
        try (split; reflexivity).
      exfalso. apply Hn. now eexists.
    + rewrite !andb_false_r. split; reflexivity.
Qed.

(** C7.  Called with [afterLoaded] set while the loaded flag is false, the
    helper posts nothing before a [loaded] message has been received;
    called without [afterLoaded], or with the flag already true, it posts
    at once.  This holds for the helper of AuthorizeIframe and for the one
    of LoginIframe. *)
Theorem postMessageHelper_waits_for_loaded :
  forall (loaded : bool) (event : string)
         (options : option IframePostMessageOptions) (incoming : list string),
    (wantsAfterLoaded options -> loaded = false ->
     postsOnlyAfterLoaded
       (run (AuthorizeIframe.postMessageHelper loaded event options) incoming)
     /\ postsOnlyAfterLoaded
          (run (LoginIframe.postMessageHelper loaded event options) incoming))
    /\ (~ wantsAfterLoaded options \/ loaded = true ->
        run (AuthorizeIframe.postMessageHelper loaded event options) incoming
        = [Posted event true]
        /\ run (LoginIframe.postMessageHelper loaded event options) incoming
           = [Posted event false]).
Proof.
  intros loaded event options incoming.
  destruct (helpers_programs loaded event options) as [Hw Hi].
  split.
  - intros Ha Hl. destruct (Hw (conj Ha Hl)) as [-> ->].
    split; apply await_then_post.
  - intros H. destruct (Hi H) as [-> ->]. split; reflexivity.
Qed.

Lemma postMessageHelper_waits_for_loaded_witness :
  postsOnlyAfterLoaded
    (run (LoginIframe.postMessageHelper false "sessiontokenrequest"
            (Some {| afterLoaded := Some true |}))
       ["resize_iframe"; "loaded"; "close"]).
Proof.
  destruct
    (postMessageHelper_waits_for_loaded false "sessiontokenrequest"
       (Some {| afterLoaded := Some true |})
       ["resize_iframe"; "loaded"; "close"]) as [H _].
  apply H; [ | reflexivity ].
  eexists. split; reflexivity.
Defined.

End IframePostMessageFacts.

(* ------------------------------------------------------------------ *)
(** ** Dynamic-import error classifiers *)

Module RetryImportFacts.
Import JsString JsStringFacts RetryImport.

(** The generic Safari/WebView failure is recognized by its text,
    wherever it stands in the message. *)
Lemma isGenericModuleError_iff (error : Error) :
  isGenericModuleError error = true <->
  exists a b, message error = a ++ GENERIC_MODULE_ERROR ++ b.
Proof. apply includes_iff. Qed.

Section WithURL.

Variable URL : Type.
Variable newURL : string -> option URL.

Lemma convertStringToUrl_eq (url : string) :
  convertStringToUrl URL newURL url = newURL url.
Proof. unfold convertStringToUrl. now destruct (newURL url). Qed.

(** The text handed to the [URL] constructor when the marker leads the
    message. *)
Lemma extract_prefixed (error : Error) (rest : string) :
  message error = FAILED_TO_FETCH_PREFIX ++ rest ->
  extractUrlFromError URL newURL error = newURL (trim rest).
Proof.
  intros E. unfold extractUrlFromError.
  now rewrite convertStringToUrl_eq, E, replace_prefix.
Qed.

(** The same when the marker occurs first somewhere inside. *)
Lemma extract_first_occurrence (error : Error) (a b : string) :
  message error = a ++ FAILED_TO_FETCH_PREFIX ++ b ->
  (forall a1 a2, a = a1 ++ a2 -> a2 <> "" ->
     startsWith (a2 ++ FAILED_TO_FETCH_PREFIX ++ b) FAILED_TO_FETCH_PREFIX
     = false) ->
  extractUrlFromError URL newURL error = newURL (trim (a ++ b)).
Proof.
  intros E H. unfold extractUrlFromError.
  rewrite convertStringToUrl_eq, E, (replace_first a _ b "" H).
  reflexivity.
Qed.

(** Without the marker the whole message is tried. *)
Lemma extract_unmarked (error : Error) :
  includes (message error) FAILED_TO_FETCH_PREFIX = false ->
  extractUrlFromError URL newURL error = newURL (trim (message error)).
Proof.
  intros H. unfold extractUrlFromError.
  now rewrite convertStringToUrl_eq, replace_absent.
Qed.

End WithURL.

(** C8 (counterexample).  A message in which the marker does not lead (it
    follows a space): read as a prefix to strip, nothing is removed and
    the remainder is no URL; the code removes the marker where it stands
    and returns the URL that follows. *)
Lemma extractUrlFromError_not_prefix_strip :
  ~ (forall (URL : Type) (newURL : string -> option URL) (error : Error),
       extractUrlFromError URL newURL error
       = spec_extractUrlFromError URL newURL error).
Proof.
  intros H.
  specialize
    (H string httpsOnly
       {| message :=
            " Failed to fetch dynamically imported module: https://cdn.shopify.com/shop-js/chunk.js" |}).
  vm_compute in H. discriminate H.
Qed.

(** C8 (amended).  Both classifiers are total.  [isGenericModuleError]
    holds exactly when the message contains the generic text.
    [extractUrlFromError] removes the first occurrence of the fetch
    marker, wherever it stands, trims what is left and returns the URL
    parsed from it, or null when that text is no URL; in particular a
    message that starts with the marker yields the URL that follows it. *)
Theorem import_error_classifiers :
  forall (URL : Type) (newURL : string -> option URL) (error : Error),
    (isGenericModuleError error = true <->
     exists a b, message error = a ++ GENERIC_MODULE_ERROR ++ b)
    /\ (forall rest,
          message error = FAILED_TO_FETCH_PREFIX ++ rest ->
          extractUrlFromError URL newURL error = newURL (trim rest))
    /\ (forall a b,
          message error = a ++ FAILED_TO_FETCH_PREFIX ++ b ->
          (forall a1 a2, a = a1 ++ a2 -> a2 <> "" ->
             startsWith (a2 ++ FAILED_TO_FETCH_PREFIX ++ b)
               FAILED_TO_FETCH_PREFIX = false) ->
          extractUrlFromError URL newURL error = newURL (trim (a ++ b)))
    /\ (includes (message error) FAILED_TO_FETCH_PREFIX = false ->
        extractUrlFromError URL newURL error
        = newURL (trim (message error)))
    /\ (newURL (trim (replace (message error) FAILED_TO_FETCH_PREFIX ""))
        = None ->
        extractUrlFromError URL newURL error = None).
Proof.
  intros URL newURL error. repeat split.
  - apply isGenericModuleError_iff.
  - apply isGenericModuleError_iff.
  - intros rest. apply extract_prefixed.
  - intros a b. apply extract_first_occurrence.
  - apply extract_unmarked.
  - intros H. unfold extractUrlFromError.
    now rewrite convertStringToUrl_eq.
Qed.

Lemma import_error_classifiers_witness :
  extractUrlFromError string httpsOnly
    {| message :=
         "Failed to fetch dynamically imported module: https://cdn.shopify.com/shop-js/chunk.js " |}
  = Some "https://cdn.shopify.com/shop-js/chunk.js".
Proof.
  destruct
    (import_error_classifiers string httpsOnly
       {| message :=
            "Failed to fetch dynamically imported module: https://cdn.shopify.com/shop-js/chunk.js " |})
    as (_ & H & _).
  rewrite (H "https://cdn.shopify.com/shop-js/chunk.js " eq_refl).
  reflexivity.
Defined.

End RetryImportFacts.

(* ------------------------------------------------------------------ *)
(** ** Grouping export errors *)

Module OpenTelemetryUtilsFacts.
Import JsString OpenTelemetryUtils.

(** Whatever the message, the result is the first character of one of the
    grouped texts, or [otherErrors]. *)
Lemma groupOpentelError_range (message : string) :
  In (groupOpentelError message)
    ["B"; "e"; "E"; "F"; "I"; "M"; "Y"; "N"; "S"; "otherErrors"].
Proof.
  unfold groupOpentelError, groupOpentelErrorIn, opentelErrorGrouping,
    objectValues.
  cbn [map snd find charAt String.get].
  repeat match goal with
         | |- context [if ?b then _ else _] => destruct b
         end;
    cbn; auto 12.
Qed.

(** The result is never one of the nine group keys. *)
Lemma groupOpentelError_never_a_key (message : string) :
  ~ In (groupOpentelError message) (objectKeys opentelErrorGrouping).
Proof.
  intros H. pose proof (groupOpentelError_range message) as R.
  cbn in H, R.
  repeat (destruct R as [R|R]; [rewrite <- R in H; clear R|]);
    [.. | contradiction];
    repeat (destruct H as [H|H]; [discriminate H|]); contradiction.
Qed.

(** C9.  On an error whose message is the grouped text of
    [blockedRequest], the code answers the single character "B" where the
    claim, and the reading of the record by entries, give the key
    [blockedRequest]; no message at all makes the code answer one of the
    nine keys. *)
Theorem groupOpentelError_returns_first_character :
  groupOpentelError "Blocked Request" = "B"
  /\ spec_groupOpentelError "Blocked Request" = "blockedRequest"
  /\ (forall message,
        ~ In (groupOpentelError message) (objectKeys opentelErrorGrouping)).
Proof.
  split; [vm_compute; reflexivity|].
  split; [vm_compute; reflexivity|].
  apply groupOpentelError_never_a_key.
Qed.

End OpenTelemetryUtilsFacts.

(* ------------------------------------------------------------------ *)
(** ** Reducer runs and the provider's side effects *)

Module ShopLoginProviderFacts.
Import ShopLogin ShopLoginProvider.

Lemma runReducer_snoc (s : ShopLoginState) (steps : list (Z * ShopLoginAction))
    (now : Z) (a : ShopLoginAction) :
  runReducer s (steps ++ [(now, a)])
  = shopLoginReducer now (runReducer s steps) a.
Proof. unfold runReducer. now rewrite fold_left_app. Qed.

(** X1.  Short of [resetState], no action ever clears the [dismissed] or
    the [loaded] flag: once set they stay set along any run. *)
Theorem dismissed_and_loaded_are_sticky :
  forall (s : ShopLoginState) (steps : list (Z * ShopLoginAction)),
    forallb (fun step => negb (isResetState (snd step))) steps = true ->
    (dismissed s = true -> dismissed (runReducer s steps) = true)
    /\ (loaded s = true -> loaded (runReducer s steps) = true).
Proof.
  intros s steps. revert s.
  induction steps as [|[now a] steps IH]; intros s H; [split; auto|].
  cbn in H. apply andb_true_iff in H as [Ha Hs].
  change (runReducer s ((now, a) :: steps))
    with (runReducer (shopLoginReducer now s a) steps).
  destruct (IH (shopLoginReducer now s a) Hs) as [Hd Hl].
  split; intros E.
  - apply Hd. destruct a; cbn in *; try assumption; try reflexivity;
      discriminate.
  - apply Hl. destruct a; cbn in *; try assumption; try reflexivity;
      discriminate.
Qed.

Lemma dismissed_and_loaded_are_sticky_witness :
  dismissed
    (runReducer initialState
       [(1%Z, dismiss); (2%Z, userMatched false);
        (3%Z, setLocalPresentationMode card)]) = true.
Proof.
  destruct
    (dismissed_and_loaded_are_sticky
       (shopLoginReducer 1 initialState dismiss)
       [(2%Z, userMatched false); (3%Z, setLocalPresentationMode card)]
       eq_refl) as [H _].
  apply H. reflexivity.
Defined.

(** X2.  The reducer never writes a login hint or a text variant: after
    any run each is the value the run started with, or undefined. *)
Theorem loginHint_and_textVariant_only_cleared :
  forall (s : ShopLoginState) (steps : list (Z * ShopLoginAction)),
    (loginHint (runReducer s steps) = loginHint s
     \/ loginHint (runReducer s steps) = None)
    /\ (textVariant (runReducer s steps) = textVariant s
        \/ textVariant (runReducer s steps) = None).
Proof.
  intros s steps. revert s.
  induction steps as [|[now a] steps IH]; intros s; [split; now left|].
  change (runReducer s ((now, a) :: steps))
    with (runReducer (shopLoginReducer now s a) steps).
  destruct (IH (shopLoginReducer now s a)) as [[Hh|Hh] [Ht|Ht]];
    rewrite ?Hh, ?Ht; split; auto;
    destruct a; cbn; auto.
Qed.

(** The state the provider keeps is the one the reducer computes from the
    action once the policy has filled in the presentation. *)
Lemma dispatchAction_state (mode : PresentationMode) (flowVersion : string)
    (p : Provider) (n1 n2 : Z) (a : ShopLoginAction) :
  providerState (fst (dispatchAction mode flowVersion p n1 n2 a))
  = reducerWithDispatchedEventing mode n1 (providerState p) a.
Proof.
  unfold dispatchAction.
  destruct (processSideEffects _ _ _ _ _ _) as [effects tracked].
  destruct a; reflexivity.
Qed.

(** One step: timing is recorded only while untracked, and tracking is on
    after any [iframeLoaded]. *)
Lemma dispatchAction_timing (mode : PresentationMode) (flowVersion : string)
    (p : Provider) (n1 n2 : Z) (a : ShopLoginAction) :
  let r := dispatchAction mode flowVersion p n1 n2 a in
  count isDispatchLoaded (snd r)
  = (if isIframeLoaded {| stepNowReducer := n1; stepNowEffects := n2;
                          stepAction := a |} then 1 else 0)
  /\ count isLoadTiming (snd r)
     = (if negb (loadedTracked p)
           && isIframeLoaded {| stepNowReducer := n1; stepNowEffects := n2;
                                stepAction := a |} then 1 else 0)
  /\ loadedTracked (fst r)
     = loadedTracked p
       || isIframeLoaded {| stepNowReducer := n1; stepNowEffects := n2;
                            stepAction := a |}.
Proof.
  unfold dispatchAction, count, isIframeLoaded. cbn [stepAction].
  destruct p as [s tracked]. cbn [providerState loadedTracked].
  destruct a as [ | payload | | | m | th | b | cookie | t ];
    cbn [processSideEffects].
  all: try (cbn; rewrite ?orb_false_r, ?andb_false_r; repeat split;
            reflexivity).
  - (* dismiss *)
    destruct (PresentationMode_eqb (localPresentationMode s) card && _);
      cbn; rewrite ?orb_false_r, ?andb_false_r; repeat split; reflexivity.
  - (* iframeLoaded *)
    destruct tracked; cbn [fst snd negb andb orb].
    + repeat split; reflexivity.
    + match goal with
      | |- context [match mountedTimestamp ?st with _ => _ end] =>
          destruct (mountedTimestamp st) as [ts|];
            [destruct (Z.eqb ts 0)|]
      end;
        match goal with
        | |- context [if ?c then [TrackPresentationModeChange _ _ _] else _] =>
            destruct c
        end;
        try match goal with
            | |- context [if ?c then [TrackPresentationModeChange _ _ _] else _] =>
                destruct c
            end;
        repeat split; reflexivity.
Qed.

Lemma count_app {A} (f : A -> bool) (l1 l2 : list A) :
  count f (l1 ++ l2) = count f l1 + count f l2.
Proof. unfold count. now rewrite filter_app, length_app. Qed.

Lemma count_cons {A} (f : A -> bool) (x : A) (l : list A) :
  count f (x :: l) = (if f x then 1 else 0) + count f l.
Proof. unfold count. cbn [filter]. now destruct (f x). Qed.

Lemma runProvider_timing (mode : PresentationMode) (flowVersion : string)
    (steps : list Step) (p : Provider) :
  let r := runProvider mode flowVersion p steps in
  count isDispatchLoaded (snd r) = count isIframeLoaded steps
  /\ count isLoadTiming (snd r)
     = (if negb (loadedTracked p) && existsb isIframeLoaded steps
        then 1 else 0)
  /\ loadedTracked (fst r) = loadedTracked p || existsb isIframeLoaded steps.
Proof.
  revert p. induction steps as [|step steps IH]; intros p.
  - cbn. rewrite andb_false_r, orb_false_r. repeat split; reflexivity.
  - cbn [runProvider].
    pose proof (dispatchAction_timing mode flowVersion p
                  (stepNowReducer step) (stepNowEffects step)
                  (stepAction step)) as H1.
    destruct (dispatchAction mode flowVersion p (stepNowReducer step)
                (stepNowEffects step) (stepAction step)) as [p1 e1].
    specialize (IH p1).
    destruct (runProvider mode flowVersion p1 steps) as [p2 e2].
    cbn [fst snd] in *.
    replace {| stepNowReducer := stepNowReducer step;
               stepNowEffects := stepNowEffects step;
               stepAction := stepAction step |} with step in H1
      by now destruct step.
    destruct H1 as (A1 & A2 & A3). destruct IH as (B1 & B2 & B3).
    rewrite !count_app, A1, A2, B1, B2, B3, A3, count_cons.
    cbn [existsb].
    destruct (loadedTracked p), (isIframeLoaded step),
      (existsb isIframeLoaded steps); cbn; repeat split; lia.
Qed.

(** X3.  Over a whole session of a freshly mounted provider, every
    [iframeLoaded] action dispatches a loaded event, but the load timing
    (the duration histogram, or the log line when no mount timestamp is
    there) is recorded once only: at the first [iframeLoaded], and never
    again, not even after [resetState]. *)
Theorem load_timing_recorded_once :
  forall (mode : PresentationMode) (flowVersion : string)
         (textVariant0 urlLoginHint : option string) (steps : list Step),
    let effects :=
      snd (runProvider mode flowVersion
             (mountProvider mode textVariant0 urlLoginHint) steps) in
    count isDispatchLoaded effects = count isIframeLoaded steps
    /\ count isLoadTiming effects
       = (if existsb isIframeLoaded steps then 1 else 0).
Proof.
  intros mode fv tv hint steps effects. subst effects.
  destruct (runProvider_timing mode fv steps (mountProvider mode tv hint))
    as (H1 & H2 & _).
  split; assumption.
Qed.

(** X4.  A provider mounted in button mode never leaves it on its own
    account: as long as nobody dispatches the explicit setter or a user
    match, every state of the session shows the button and every loaded
    event reports the button, whether or not the user is found. *)
Theorem button_provider_stays_button :
  forall (flowVersion : string) (textVariant0 urlLoginHint : option string)
         (steps : list Step),
    forallb (fun step =>
               match stepAction step with
               | setLocalPresentationMode _ | userMatched _ => false
               | _ => true
               end) steps = true ->
    let r := runProvider button flowVersion
               (mountProvider button textVariant0 urlLoginHint) steps in
    localPresentationMode (providerState (fst r)) = button
    /\ (forall presentation userFound,
          In (DispatchLoaded presentation userFound) (snd r) ->
          presentation = button).
Proof.
  intros fv tv hint steps.
  assert (G : forall p,
             localPresentationMode (providerState p) = button ->
             forallb (fun step =>
                        match stepAction step with
                        | setLocalPresentationMode _ | userMatched _ => false
                        | _ => true
                        end) steps = true ->
             localPresentationMode
               (providerState (fst (runProvider button fv p steps))) = button
             /\ (forall presentation userFound,
                   In (DispatchLoaded presentation userFound)
                     (snd (runProvider button fv p steps)) ->
                   presentation = button)).
  { induction steps as [|step steps IH]; intros p Hp Hs.
    - split; [exact Hp | intros ? ? []].
    - cbn in Hs. apply andb_true_iff in Hs as [Ha Hs].
      cbn [runProvider].
      assert (S1 : localPresentationMode
                     (providerState
                        (fst (dispatchAction button fv p (stepNowReducer step)
                                (stepNowEffects step) (stepAction step))))
                   = button
                   /\ forall presentation userFound,
                        In (DispatchLoaded presentation userFound)
                          (snd (dispatchAction button fv p
                                  (stepNowReducer step) (stepNowEffects step)
                                  (stepAction step))) ->
                        presentation = button).
      { unfold dispatchAction. destruct p as [s tracked].
        cbn [providerState loadedTracked] in *.
        destruct (stepAction step) as [ | payload | | | m | th | b | c | t ];
          try discriminate Ha; cbn [processSideEffects].
        - destruct (PresentationMode_eqb (localPresentationMode s) card && _);
            cbn; split; try reflexivity;
            intros ? ? H; repeat (destruct H as [H|H]; try discriminate H);
            contradiction.
        - assert (P : forall d u,
                     getLocalPresentationMode
                       {| gp_dismissed := d;
                          gp_originalPresentationMode := button;
                          gp_userMatched := None;
                          gp_userRecognized := u |} = button)
            by (intros [|] [|]; reflexivity).
          cbn [shopLoginReducer pl_presentation pl_userFound
                 pl_consented pl_footerPolicy pl_loginHintMatch].
          unfold set_matched, set_localPresentationMode.
          cbn [localPresentationMode mountedTimestamp]. rewrite P.
          destruct tracked; cbn [fst snd providerState].
          + split; [reflexivity|].
            intros ? ? [H|[]]. now inversion H.
          + split; [reflexivity|].
            intros ? ? H.
            destruct H as [H|H]; [now inversion H|].
            destruct H as [H|H].
            * destruct (mountedTimestamp _) as [ts|];
                [destruct (Z.eqb ts 0)|]; discriminate H.
            * repeat match type of H with
                     | In _ (if ?c then _ else _) => destruct c
                     end;
                repeat (destruct H as [H|H]; try discriminate H);
                contradiction.
        - cbn. split; [exact Hp | intros ? ? []].
        - cbn. split; [reflexivity | intros ? ? []].
        - cbn. split; [exact Hp | intros ? ? []].
        - cbn. split; [exact Hp | intros ? ? []].
        - cbn. split; [exact Hp | intros ? ? []]. }
      destruct (dispatchAction button fv p (stepNowReducer step)
                  (stepNowEffects step) (stepAction step)) as [p1 e1].
      cbn [fst snd] in S1. destruct S1 as [S1 S2].
      specialize (IH p1 S1 Hs).
      destruct (runProvider button fv p1 steps) as [p2 e2].
      cbn [fst snd] in *. destruct IH as [I1 I2].
      split; [exact I1|].
      intros presentation userFound H. apply in_app_or in H as [H|H];
        [now apply (S2 _ userFound) | now apply (I2 _ userFound)]. }
  intros Hs. apply G; [reflexivity | exact Hs].
Qed.

Lemma button_provider_stays_button_witness :
  localPresentationMode
    (providerState
       (fst (runProvider button "email_capture" (mountProvider button None None)
               [ {| stepNowReducer := 10; stepNowEffects := 11;
                    stepAction := mounted |};
                 {| stepNowReducer := 20; stepNowEffects := 21;
                    stepAction :=
                      iframeLoaded
                        {| pl_consented := None; pl_userFound := true;
                           pl_footerPolicy := None; pl_presentation := card;
                           pl_loginHintMatch := Some true |} |} ])))
  = button.
Proof.
  destruct
    (button_provider_stays_button "email_capture" None None
       [ {| stepNowReducer := 10; stepNowEffects := 11;
            stepAction := mounted |};
         {| stepNowReducer := 20; stepNowEffects := 21;
            stepAction :=
              iframeLoaded
                {| pl_consented := None; pl_userFound := true;
                   pl_footerPolicy := None; pl_presentation := card;
                   pl_loginHintMatch := Some true |} |} ]
       eq_refl) as [H _].
  exact H.
Defined.

(** X5.  Dismissing reports a presentation-mode change exactly when the
    widget showed the card; a second [dismiss] right after the first
    reports nothing. *)
Theorem dismiss_tracks_card_to_button_only :
  forall (mode : PresentationMode) (flowVersion : string) (p : Provider)
         (n1 n2 n3 n4 : Z),
    let r1 := dispatchAction mode flowVersion p n1 n2 dismiss in
    snd r1
    = (match localPresentationMode (providerState p) with
       | card => [TrackPresentationModeChange button card dismissed_reason]
       | button => []
       end)
    /\ snd (dispatchAction mode flowVersion (fst r1) n3 n4 dismiss) = [].
Proof.
  intros mode fv [s tracked] n1 n2 n3 n4. unfold dispatchAction.
  cbn [providerState loadedTracked shopLoginReducer processSideEffects
         set_localPresentationMode set_dismissed localPresentationMode].
  destruct (localPresentationMode s); split; reflexivity.
Qed.

End ShopLoginProviderFacts.

(* ------------------------------------------------------------------ *)
(** ** More on the retrying exporter *)

Module ExporterWithRetriesMore.
Import ExporterWithRetries ExporterWithRetriesFacts.

(** X6.  The promise of an export rejects only with the error of its own
    first call, and only when that error carries no [retryAfter]: it has
    then made that single call and armed no timer.  An error raised by a
    retry never reaches the caller. *)
Theorem retry_errors_never_reach_caller :
  forall (exporter : Signal -> nat -> CallOutcome) (getKeepalive : nat -> bool)
         (signal : Signal) (fuel attempt : nat) (error : Thrown)
         (trace : list Event),
    exportOf exporter getKeepalive signal fuel attempt
    = Some (Threw error, trace) ->
    exporter signal attempt = Rejected error
    /\ (forall after, ~ carriesRetryAfter error after)
    /\ trace = [ExporterCall signal (getKeepalive attempt)].
Proof.
  intros exporter gk signal fuel attempt error trace.
  rewrite exportOf_eq.
  destruct fuel as [|fuel]; [discriminate|]. cbn.
  destruct (exporter signal attempt) as [|e]; [discriminate|].
  destruct (retryAfterOf e) as [after|] eqn:E.
  - destruct (exportWithRetries exporter gk signal fuel (S attempt))
      as [[inner tr]|]; discriminate.
  - intros H. inversion H; subst. repeat split.
    now apply retryAfterOf_None.
Qed.

Lemma retry_errors_never_reach_caller_witness :
  (fun _ _ => Rejected (OtherError "offline")) Metrics 0
  = Rejected (OtherError "offline").
Proof.
  destruct
    (retry_errors_never_reach_caller
       (fun _ _ => Rejected (OtherError "offline")) (fun _ => false)
       Metrics 1 0 (OtherError "offline") [ExporterCall Metrics false]
       eq_refl) as [H _].
  exact H.
Defined.

(** X7.  A chain of back-offs followed by an answer that is not one: the
    export settles; it has called the wrapped exporter once per back-off
    plus once, and armed one timer per back-off, in order, each with the
    delay the server asked for at that attempt, in milliseconds. *)
Theorem export_follows_the_servers_delays :
  forall (exporter : Signal -> nat -> CallOutcome) (getKeepalive : nat -> bool)
         (signal : Signal) (delays : list RetryAfter) (attempt : nat),
    (forall i after, nth_error delays i = Some after ->
       exists error,
         exporter signal (attempt + i) = Rejected error
         /\ carriesRetryAfter error after) ->
    exporter signal (attempt + List.length delays) = Fulfilled ->
    exists trace,
      exportOf exporter getKeepalive signal (S (List.length delays)) attempt
      = Some (Resolved, trace)
      /\ exporterCalls trace = S (List.length delays)
      /\ timers trace = map (fun after => seconds after * 1000)%Z delays.
Proof.
  intros exporter gk signal delays attempt Hd Hend.
  rewrite exportOf_eq.
  destruct (export_chain exporter gk signal delays attempt)
    as (r & trace & E & Hc & Ht & Hr).
  - intros i after Hi. destruct (Hd i after Hi) as (error & He & Ha).
    exists error. split; [assumption | now apply retryAfterOf_Some].
  - now left.
  - exists trace. repeat split; try assumption.
    destruct delays as [|d delays].
    + cbn in E |- *. rewrite Nat.add_0_r in Hend. rewrite Hend in E |- *.
      now inversion E.
    + rewrite E. now rewrite Hr.
Qed.

Lemma export_follows_the_servers_delays_witness :
  exists trace,
    exportOf backoffOnce (fun _ => true) Logs 2 0 = Some (Resolved, trace)
    /\ exporterCalls trace = 2
    /\ timers trace = [2000%Z].
Proof.
  apply (export_follows_the_servers_delays backoffOnce (fun _ => true) Logs
           [ {| seconds := 2 |} ] 0).
  - intros [|[|i]] after H; cbn in H; inversion H; subst.
    eexists. split; [reflexivity|]. eexists. split; reflexivity.
  - reflexivity.
Defined.

(** What has been done so far stays done: the progress of an export is
    the beginning of the trace it settles with. *)
Lemma exportProgress_prefix (exporter : Signal -> nat -> CallOutcome)
    (getKeepalive : nat -> bool) (signal : Signal) (fuel : nat) :
  forall attempt settled trace followed,
    exportWithRetries exporter getKeepalive signal fuel attempt
    = Some (settled, trace) ->
    exists rest,
      trace
      = (exportProgress exporter getKeepalive signal followed attempt
           ++ rest)%list.
Proof.
  induction fuel as [|fuel IH]; intros attempt settled trace followed;
    [discriminate|].
  destruct followed as [|followed]; [intros _; now exists trace|].
  cbn [exportWithRetries exportProgress].
  destruct (exporter signal attempt) as [|error].
  - intros E. inversion E; subst. now exists [].
  - destruct (retryAfterOf error) as [after|].
    + destruct (exportWithRetries exporter getKeepalive signal fuel
                  (S attempt)) as [[inner tr]|] eqn:R; [|discriminate].
      intros E. inversion E; subst.
      destruct (IH _ _ _ followed R) as [rest ->].
      exists (rest ++ leftover inner)%list. cbn [app].
      now rewrite <- app_assoc.
    + intros E. inversion E; subst. now exists [].
Qed.

(** While the server keeps asking to come back later, every attempt is a
    call followed by a timer. *)
Lemma exportProgress_backoff (exporter : Signal -> nat -> CallOutcome)
    (getKeepalive : nat -> bool) (signal : Signal)
    (delays : nat -> RetryAfter) (fuel : nat) :
  forall attempt,
    (forall n, attempt <= n -> n < attempt + fuel ->
       exists error,
         exporter signal n = Rejected error
         /\ retryAfterOf error = Some (delays n)) ->
    exportProgress exporter getKeepalive signal fuel attempt
    = backoffRounds getKeepalive signal delays attempt fuel.
Proof.
  unfold backoffRounds.
  induction fuel as [|fuel IH]; intros attempt H; [reflexivity|].
  cbn [exportProgress seq flat_map app].
  destruct (H attempt) as (error & -> & ->); [lia | lia |].
  rewrite IH; [reflexivity|]. intros n H1 H2. apply H; lia.
Qed.

(** When the server relents after [fuel] back-offs, the export resolves
    with these rounds and the call that succeeded. *)
Lemma export_relents (exporter : Signal -> nat -> CallOutcome)
    (getKeepalive : nat -> bool) (signal : Signal)
    (delays : nat -> RetryAfter) (fuel : nat) :
  forall attempt,
    (forall n, attempt <= n -> n < attempt + fuel ->
       exists error,
         exporter signal n = Rejected error
         /\ retryAfterOf error = Some (delays n)) ->
    exporter signal (attempt + fuel) = Fulfilled ->
    exportWithRetries exporter getKeepalive signal (S fuel) attempt
    = Some (Resolved,
            (backoffRounds getKeepalive signal delays attempt fuel
               ++ [ExporterCall signal (getKeepalive (attempt + fuel))])%list).
Proof.
  unfold backoffRounds.
  induction fuel as [|fuel IH]; intros attempt H Hend.
  - rewrite Nat.add_0_r in *. cbn. now rewrite Hend.
  - destruct (H attempt) as (error & He & Ha); [lia | lia |].
    rewrite (export_retries exporter getKeepalive signal (S fuel) attempt
               error (delays attempt) He Ha).
    rewrite (IH (S attempt)).
    + cbn [seq flat_map app leftover]. rewrite app_nil_r.
      now replace (S attempt + fuel) with (attempt + S fuel) by lia.
    + intros n H1 H2. apply H; lia.
    + now replace (S attempt + fuel) with (attempt + S fuel) by lia.
Qed.

(** X8.  The exporter sets no cap on retries.  While the server keeps
    answering with [retryAfter], the promise of the export is still
    pending however many attempts are followed, and by then every one of
    these attempts has called the wrapped exporter and armed the timer for
    the next.  Should the server accept at the attempt after these, the
    export resolves, with exactly these rounds and that last call. *)
Theorem export_has_no_retry_cap :
  forall (exporter : Signal -> nat -> CallOutcome) (getKeepalive : nat -> bool)
         (signal : Signal) (attempt : nat) (delays : nat -> RetryAfter),
    (forall n, attempt <= n ->
       exists error,
         exporter signal n = Rejected error
         /\ carriesRetryAfter error (delays n)) ->
    forall fuel,
      exportOf exporter getKeepalive signal fuel attempt = None
      /\ exportProgress exporter getKeepalive signal fuel attempt
         = backoffRounds getKeepalive signal delays attempt fuel
      /\ (forall relenting : Signal -> nat -> CallOutcome,
            (forall n, n < attempt + fuel ->
                       relenting signal n = exporter signal n) ->
            relenting signal (attempt + fuel) = Fulfilled ->
            exportOf relenting getKeepalive signal (S fuel) attempt
            = Some (Resolved,
                    (backoffRounds getKeepalive signal delays attempt fuel
                       ++ [ExporterCall signal
                             (getKeepalive (attempt + fuel))])%list)).
Proof.
  intros exporter gk signal attempt delays H fuel.
  assert (Hr : forall n, attempt <= n ->
             exists error,
               exporter signal n = Rejected error
               /\ retryAfterOf error = Some (delays n)).
  { intros n Hn. destruct (H n Hn) as (error & He & Ha).
    exists error. split; [assumption | now apply retryAfterOf_Some]. }
  split; [|split].
  - rewrite exportOf_eq. apply export_pending. intros n Hn _.
    destruct (Hr n Hn) as (error & He & Ha). now exists error, (delays n).
  - apply exportProgress_backoff. intros n Hn _. now apply Hr.
  - intros relenting Hsame Hend. rewrite exportOf_eq.
    apply export_relents; [|exact Hend].
    intros n H1 H2. rewrite (Hsame n H2). now apply Hr.
Qed.

Lemma export_has_no_retry_cap_witness :
  exportOf
    (fun _ _ =>
       Rejected
         (OpenTelemetryClientError
            (Some {| retryAfter := Some {| seconds := 1 |} |})))
    (fun _ => true) Metrics 50 0 = None
  /\ exportProgress
       (fun _ _ =>
          Rejected
            (OpenTelemetryClientError
               (Some {| retryAfter := Some {| seconds := 1 |} |})))
       (fun _ => true) Metrics 2 0
     = [ExporterCall Metrics true; SetTimeout 1000;
        ExporterCall Metrics true; SetTimeout 1000].
Proof.
  assert (H : forall n, 0 <= n ->
            exists error,
              (fun (_ : Signal) (_ : nat) =>
                 Rejected
                   (OpenTelemetryClientError
                      (Some {| retryAfter := Some {| seconds := 1 |} |})))
                Metrics n = Rejected error
              /\ carriesRetryAfter error {| seconds := 1 |}).
  { intros n _. eexists. split; [reflexivity|].
    eexists. split; reflexivity. }
  split.
  - apply (export_has_no_retry_cap _ (fun _ => true) Metrics 0
             (fun _ => {| seconds := 1 |}) H 50).
  - apply (export_has_no_retry_cap _ (fun _ => true) Metrics 0
             (fun _ => {| seconds := 1 |}) H 2).
Defined.

End ExporterWithRetriesMore.

(* ------------------------------------------------------------------ *)
(** ** More on the windoid demultiplexer *)

Module WindoidMore.
Import Windoid WindoidFacts.

(** X9.  When the handler of the message's type rejects, the run ends
    right there: it rejects too, the call of that handler is the last
    thing that happened, the window is not closed, and no event is
    dispatched but the one that precedes the handler of an open or close
    message. *)
Theorem handler_failure_stops_the_run :
  forall (p : Props) (data : MessageEventData) (h : Handler),
    handlerFor (type data) = Some h ->
    outcomeOf p h data = Abrupt ->
    handleWindoidMessage p data
    = (Abrupt, (dispatchedBefore h ++ [Invoke h])%list)
    /\ ~ In CloseWindoid (snd (handleWindoidMessage p data))
    /\ (forall name detail bubbles,
          In (DispatchEvent name detail bubbles)
            (snd (handleWindoidMessage p data)) ->
          In (DispatchEvent name detail bubbles) (dispatchedBefore h)).
Proof.
  intros p data h Hh Ho.
  assert (E : handleWindoidMessage p data
              = (Abrupt, (dispatchedBefore h ++ [Invoke h])%list)).
  { revert Hh Ho. destruct data as [t body]. run_switch.
    unfold outcomeOf, dispatchedBefore.
    switch_on t; intros Hh; inversion Hh; subst h; cbn [type];
      split_callbacks; intros Ho; try discriminate Ho; reflexivity. }
  rewrite E. cbn [snd]. split; [reflexivity|]. split.
  - intros H. apply in_app_or in H as [H|[H|[]]]; [|discriminate H].
    destruct h; cbn in H; repeat (destruct H as [H|H]; try discriminate H);
      contradiction.
  - intros name detail bubbles H.
    apply in_app_or in H as [H|[H|[]]]; [exact H | discriminate H].
Qed.

Lemma handler_failure_stops_the_run_witness :
  handleWindoidMessage
    {| handleClose := Some Abrupt;
       handleComplete := fun _ => Normal;
       handleError := None;
       handleOpen := None;
       handleCustomFlowSideEffect := None;
       windoidPresent := true |}
    {| type := "close"; body := "" |}
  = (Abrupt, [DispatchEvent "windoidclosed" None None; Invoke HandleClose]).
Proof.
  destruct
    (handler_failure_stops_the_run
       {| handleClose := Some Abrupt;
          handleComplete := fun _ => Normal;
          handleError := None;
          handleOpen := None;
          handleCustomFlowSideEffect := None;
          windoidPresent := true |}
       {| type := "close"; body := "" |} HandleClose eq_refl eq_refl)
    as [H _].
  exact H.
Defined.

End WindoidMore.

(* ------------------------------------------------------------------ *)
(** ** More on the Bugsnag filter *)

Module BugsnagMore.
Import JsString JsStringFacts Bugsnag BugsnagFacts.

(** X10.  Every failure that carries the Chrome dynamic-import marker is a
    network error for [isNetworkError] as well as a dynamic-import error:
    only the order of the two checks in the filter tells them apart. *)
Theorem chrome_dynamic_import_is_also_network_error :
  forall (e : BugsnagException),
    optIncludes (message e) "Failed to fetch dynamically imported module"
    = true ->
    isDynamicImportError e = true /\ isNetworkError e = true.
Proof.
  intros e H. apply optIncludes_Some in H as (m & Em & Hm). split.
  - apply isDynamicImportError_iff.
    exists m, "Failed to fetch dynamically imported module".
    repeat split; [assumption | now left | assumption].
  - apply isNetworkError_iff. right. left.
    exists m, "Failed to fetch".
    repeat split; [assumption | right; now left |].
    now apply (includes_prefix m "Failed to fetch"
                 " dynamically imported module").
Qed.

Lemma chrome_dynamic_import_is_also_network_error_witness :
  isNetworkError
    {| errorClass := "Error";
       message := Some "Failed to fetch dynamically imported module: x";
       stacktrace := [] |} = true.
Proof.
  destruct
    (chrome_dynamic_import_is_also_network_error
       {| errorClass := "Error";
          message := Some "Failed to fetch dynamically imported module: x";
          stacktrace := [] |} eq_refl) as [_ H].
  exact H.
Defined.

(** X11.  A report the filter drops is handed back untouched; a report it
    lets through keeps its exceptions, is decorated, and has triggered no
    call of [onNetworkError].  In no case is [onNetworkError] called more
    than once. *)
Theorem filter_decorates_only_what_it_lets_through :
  forall (event : BugsnagEvent) (metadata : Metadata),
    (returned (handleCreateBugsnagParamsError event metadata) = ReturnsFalse ->
     eventAfter (handleCreateBugsnagParamsError event metadata) = event)
    /\ (returned (handleCreateBugsnagParamsError event metadata)
        = ReturnsUndefined ->
        exceptions (eventAfter (handleCreateBugsnagParamsError event metadata))
        = exceptions event
        /\ decorated (eventAfter (handleCreateBugsnagParamsError event metadata))
           = Some metadata
        /\ onNetworkErrorCalls (handleCreateBugsnagParamsError event metadata)
           = [])
    /\ List.length
         (onNetworkErrorCalls (handleCreateBugsnagParamsError event metadata))
       <= 1.
Proof.
  intros event metadata. unfold handleCreateBugsnagParamsError.
  destruct (exceptions event) as [|e rest] eqn:E.
  - cbn. repeat split; try discriminate; lia.
  - destruct (isIgnorable e (featureOf metadata));
      [cbn; repeat split; try discriminate; lia|].
    destruct (isUnactionable e);
      [cbn; repeat split; try discriminate; lia|].
    destruct (isDynamicImportError e);
      [cbn; repeat split; try discriminate; lia|].
    destruct (isNetworkError e);
      [cbn; repeat split; try discriminate; lia|].
    cbn. repeat split; try discriminate; try assumption; lia.
Qed.

Lemma filter_decorates_only_what_it_lets_through_witness :
  decorated
    (eventAfter
       (handleCreateBugsnagParamsError
          {| exceptions :=
               [ {| errorClass := "RangeError"; message := Some "out of range";
                    stacktrace := [ {| inProject := true |} ] |} ];
             decorated := None |}
          {| custom := None |}))
  = Some {| custom := None |}.
Proof.
  destruct
    (filter_decorates_only_what_it_lets_through
       {| exceptions :=
            [ {| errorClass := "RangeError"; message := Some "out of range";
                 stacktrace := [ {| inProject := true |} ] |} ];
          decorated := None |}
       {| custom := None |}) as (_ & H & _).
  destruct (H eq_refl) as (_ & K & _). exact K.
Defined.

(** X12.  For a report that is ignorable or whose class is unactionable,
    [onNetworkError] is never called, whatever the message says: a
    [TypeError] with a network or dynamic-import text leaves no trace in
    the network-error counter. *)
Theorem guarded_reports_record_no_network_error :
  forall (event : BugsnagEvent) (metadata : Metadata)
         (e : BugsnagException) (rest : list BugsnagException),
    exceptions event = e :: rest ->
    ignorable e metadata \/ In (errorClass e) UNACTIONABLE_ERROR_CLASSES ->
    onNetworkErrorCalls (handleCreateBugsnagParamsError event metadata) = []
    /\ returned (handleCreateBugsnagParamsError event metadata) = ReturnsFalse.
Proof.
  intros event metadata e rest E H.
  rewrite <- isIgnorable_iff, <- isUnactionable_iff in H.
  unfold handleCreateBugsnagParamsError. rewrite E.
  destruct (isIgnorable e (featureOf metadata)); [split; reflexivity|].
  destruct (isUnactionable e); [split; reflexivity|].
  destruct H as [H|H]; discriminate H.
Qed.

Lemma guarded_reports_record_no_network_error_witness :
  onNetworkErrorCalls
    (handleCreateBugsnagParamsError
       {| exceptions :=
            [ {| errorClass := "TypeError"; message := Some "Load failed";
                 stacktrace := [ {| inProject := true |} ] |} ];
          decorated := None |}
       {| custom := None |}) = [].
Proof.
  destruct
    (guarded_reports_record_no_network_error
       {| exceptions :=
            [ {| errorClass := "TypeError"; message := Some "Load failed";
                 stacktrace := [ {| inProject := true |} ] |} ];
          decorated := None |}
       {| custom := None |} _ _ eq_refl) as [H _].
  - right. cbn. tauto.
  - exact H.
Defined.

End BugsnagMore.

(* ------------------------------------------------------------------ *)
(** ** More on deferred posting *)

Module IframePostMessageMore.
Import IframePostMessage IframePostMessageFacts.

(** What the wait observes: the messages up to the first awaited one. *)
Lemma waitForMessage_trace (messageType : string) (incoming : list string) :
  (In messageType incoming ->
   exists before rest,
     incoming = (before ++ messageType :: rest)%list
     /\ ~ In messageType before
     /\ waitForMessage messageType incoming
        = ((map Received before ++ [Received messageType])%list, Some rest))
  /\ (~ In messageType incoming ->
      waitForMessage messageType incoming = (map Received incoming, None)).
Proof.
  induction incoming as [|m l [IH1 IH2]]; cbn [waitForMessage].
  - split; [intros [] | reflexivity].
  - destruct (String.eqb_spec m messageType) as [->|Hne]; split.
    + intros _. exists [], l. repeat split. intros [].
    + intros H. elim H. now left.
    + intros [H|H]; [congruence|].
      destruct (IH1 H) as (before & rest & -> & Hb & E).
      exists (m :: before), rest. rewrite E. repeat split.
      intros [K|K]; [congruence | now apply Hb].
    + intros H. rewrite IH2; [reflexivity|].
      intros K. apply H. now right.
Qed.

(** X13.  A message held back until the iframe has loaded is posted once,
    right after the first [loaded] message and whatever came before it; if
    no [loaded] message ever arrives, nothing is posted.  This holds for
    the helper of AuthorizeIframe and for the one of LoginIframe. *)
Theorem deferred_message_posted_right_after_loaded :
  forall (event : string) (options : option IframePostMessageOptions)
         (incoming : list string),
    wantsAfterLoaded options ->
    (In "loaded" incoming ->
     exists before rest,
       incoming = (before ++ "loaded" :: rest)%list
       /\ ~ In "loaded" before
       /\ run (AuthorizeIframe.postMessageHelper false event options) incoming
          = (map Received before
               ++ [Received "loaded"; Posted event true])%list
       /\ run (LoginIframe.postMessageHelper false event options) incoming
          = (map Received before
               ++ [Received "loaded"; Posted event false])%list)
    /\ (~ In "loaded" incoming ->
        run (AuthorizeIframe.postMessageHelper false event options) incoming
        = map Received incoming
        /\ run (LoginIframe.postMessageHelper false event options) incoming
           = map Received incoming).
Proof.
  intros event options incoming Hw.
  destruct (helpers_programs false event options) as [Hp _].
  destruct (Hp (conj Hw eq_refl)) as [-> ->]. cbn [run].
  destruct (waitForMessage_trace "loaded" incoming) as [H1 H2].
  split.
  - intros Hin. destruct (H1 Hin) as (before & rest & E & Hb & W).
    exists before, rest. rewrite W. rewrite <- !app_assoc.
    repeat split; assumption.
  - intros Hn. rewrite (H2 Hn). rewrite !app_nil_r. split; reflexivity.
Qed.

Lemma deferred_message_posted_right_after_loaded_witness :
  run (LoginIframe.postMessageHelper false "emailsubmitted"
         (Some {| afterLoaded := Some true |}))
    ["resize_iframe"; "error"]
  = [Received "resize_iframe"; Received "error"].
Proof.
  destruct
    (deferred_message_posted_right_after_loaded "emailsubmitted"
       (Some {| afterLoaded := Some true |}) ["resize_iframe"; "error"])
    as [_ H].
  - eexists. split; reflexivity.
  - destruct H as [_ K]; [|exact K].
    cbn. intros [E|[E|[]]]; discriminate E.
Defined.

End IframePostMessageMore.

(* ------------------------------------------------------------------ *)
(** ** Retrying a dynamic import *)

Module ImportWithRetryFacts.
Import JsString RetryImport ImportWithRetry.

Section WithEnvironment.

Variable T : Type.
Variable URL : Type.
Variable newURL : string -> option URL.
Variable hrefWithTimestamp : URL -> Z -> string.
Variable importer : nat -> ImportOutcome T.
Variable retryImport : nat -> string -> ImportOutcome T.
Variable now : nat -> Z.

Local Abbreviation execute :=
  (executeWithRetry T URL newURL hrefWithTimestamp importer retryImport now).
Local Abbreviation attemptOf := (attempt T importer retryImport).

Lemma attempt_is_import (retryCount : nat) (path : option string) :
  isImport (fst (attemptOf retryCount path)) = true
  /\ isWait (fst (attemptOf retryCount path)) = false.
Proof. destruct path as [[|c p]|]; split; reflexivity. Qed.

(** One round, spelled out by cases. *)
Ltac one_round retryCount path :=
  cbn [executeWithRetry];
  let call := fresh "call" in
  let outcome := fresh "outcome" in
  let Ea := fresh "Ea" in
  destruct (aborted _ retryCount BeforeImport) eqn:?;
  [ | pose proof (attempt_is_import retryCount path);
      destruct (attemptOf retryCount path) as [call outcome] eqn:Ea;
      cbn [fst snd] in *;
      destruct outcome as [module | [error | ]];
      [ | destruct (aborted _ retryCount AfterFailure) eqn:?;
          [ | destruct (Z.of_nat retryCount >=? _)%Z eqn:?;
              [ | destruct (extractUrlFromError URL newURL error) as [url|] eqn:?;
                  [ destruct (aborted _ retryCount AfterDelay) eqn:?
                  | destruct (isGenericModuleError error) eqn:?;
                    [ destruct (aborted _ retryCount AfterDelay) eqn:? | ] ] ] ]
        | ] ].



(** Where a rejection comes from. *)
Lemma execute_rejects (maxRetries0 retryDelay0 : Z)
    (signal0 : option (nat -> Phase -> bool)) (fuel : nat) :
  forall retryCount path error trace,
    execute maxRetries0 retryDelay0 signal0 fuel retryCount path
    = Some (Rejected error, trace) ->
    exists lastCount lastPath,
      retryCount <= lastCount
      /\ snd (attemptOf lastCount lastPath) = ImportFailed (ThrownError error)
      /\ aborted signal0 lastCount BeforeImport = false
      /\ aborted signal0 lastCount AfterFailure = false
      /\ ((Z.of_nat lastCount >= maxRetries0 - 1)%Z
          \/ (extractUrlFromError URL newURL error = None
              /\ isGenericModuleError error = false))
      /\ List.length (filter isImport trace) = S (lastCount - retryCount).
Proof.
  induction fuel as [|fuel IH]; intros retryCount path error0 trace;
    [discriminate|].
  one_round retryCount path; intros E; try discriminate E.
  - inversion E; subst. exists retryCount, path. rewrite Ea.
    destruct H as [Hi _]. cbn [filter snd]. rewrite Hi.
    match goal with
    | G : (_ >=? _)%Z = true |- _ => apply Z.geb_le in G
    end.
    split; [lia|]. split; [reflexivity|]. split; [assumption|].
    split; [assumption|]. split; [left; lia|]. cbn. lia.
  - destruct (execute maxRetries0 retryDelay0 signal0 fuel (S retryCount)
                (Some (hrefWithTimestamp url (now retryCount))))
      as [[s1 t1]|] eqn:R; [|discriminate].
    cbn in E. inversion E; subst.
    destruct (IH _ _ _ _ R) as (lc & lp & L1 & L2 & L3 & L4 & L5 & L6).
    exists lc, lp. destruct H as [Hi _]. cbn [filter isImport].
    rewrite Hi. cbn [List.length]. rewrite L6.
    split; [lia|]. split; [assumption|]. split; [assumption|].
    split; [assumption|]. split; [assumption|]. lia.
  - destruct (execute maxRetries0 retryDelay0 signal0 fuel (S retryCount) None)
      as [[s1 t1]|] eqn:R; [|discriminate].
    cbn in E. inversion E; subst.
    destruct (IH _ _ _ _ R) as (lc & lp & L1 & L2 & L3 & L4 & L5 & L6).
    exists lc, lp. destruct H as [Hi _]. cbn [filter isImport].
    rewrite Hi. cbn [List.length]. rewrite L6.
    split; [lia|]. split; [assumption|]. split; [assumption|].
    split; [assumption|]. split; [assumption|]. lia.
  - inversion E; subst. exists retryCount, path. rewrite Ea.
    destruct H as [Hi _]. cbn [filter snd]. rewrite Hi.
    split; [lia|]. split; [reflexivity|]. split; [assumption|].
    split; [assumption|]. split; [right; split; assumption|]. cbn. lia.
Qed.

(** Rounds that keep failing with the generic module error. *)
Lemma execute_generic_rounds (maxRetries0 retryDelay0 : Z)
    (errors : nat -> Error) (remaining : nat) :
  (forall n, importer n = ImportFailed (ThrownError (errors n))) ->
  (forall n, isGenericModuleError (errors n) = true
             /\ extractUrlFromError URL newURL (errors n) = None) ->
  forall retryCount fuel,
    Z.of_nat (retryCount + S remaining) = maxRetries0 ->
    remaining < fuel ->
    execute maxRetries0 retryDelay0 None fuel retryCount None
    = Some (Rejected (errors (retryCount + remaining)),
            importerRounds retryDelay0 (S remaining)).
Proof.
  intros Himp Herr.
  induction remaining as [|remaining IH]; intros retryCount fuel Hm Hf;
    (destruct fuel as [|fuel]; [lia|]);
    cbn [executeWithRetry aborted attempt]; rewrite Himp.
  - replace (Z.of_nat retryCount >=? maxRetries0 - 1)%Z with true
      by (symmetry; apply Z.geb_le; lia).
    now rewrite Nat.add_0_r.
  - replace (Z.of_nat retryCount >=? maxRetries0 - 1)%Z with false
      by (symmetry; rewrite Z.geb_leb; apply Z.leb_gt; lia).
    destruct (Herr retryCount) as [Hg Hu]. rewrite Hu, Hg.
    rewrite (IH (S retryCount) fuel); [|lia|lia].
    cbn [prepend app importerRounds].
    now replace (S retryCount + remaining) with (retryCount + S remaining)
      by lia.
Qed.

(** X15.  [importWithRetry] rejects only with the [Error] its last import
    attempt threw, with the signal not aborted at that point, and only for
    one of two reasons: the attempts are used up, or the error is neither a
    fetch failure with a parsable URL nor the generic module error.  The
    failed attempt is the last of the trace. *)
Theorem importWithRetry_rejects_with_last_error :
  forall (config : option RetryConfig) (error : Error) (trace : list Event),
    importWithRetry T URL newURL hrefWithTimestamp importer retryImport now
      config = Some (Rejected error, trace) ->
    exists lastCount lastPath,
      snd (attemptOf lastCount lastPath) = ImportFailed (ThrownError error)
      /\ aborted (signalOf config) lastCount AfterFailure = false
      /\ ((Z.of_nat lastCount >= maxRetriesOf config - 1)%Z
          \/ (extractUrlFromError URL newURL error = None
              /\ isGenericModuleError error = false))
      /\ List.length (filter isImport trace) = S lastCount.
Proof.
  intros config error trace E. unfold importWithRetry in E.
  destruct (execute_rejects _ _ _ _ _ _ _ _ E)
    as (lc & lp & _ & L2 & _ & L4 & L5 & L6).
  exists lc, lp. rewrite Nat.sub_0_r in L6. repeat split; assumption.
Qed.

(** X16.  While the importer keeps failing with the generic module error
    and nobody aborts, [importWithRetry] calls the original importer
    exactly [maxRetries] times with a wait of [retryDelay] between two
    calls, and then rejects with the error of the last call. *)
Theorem importWithRetry_exhausts_generic_failures :
  forall (config : option RetryConfig) (errors : nat -> Error) (rounds : nat),
    (forall n, importer n = ImportFailed (ThrownError (errors n))) ->
    (forall n, isGenericModuleError (errors n) = true
               /\ extractUrlFromError URL newURL (errors n) = None) ->
    signalOf config = None ->
    maxRetriesOf config = Z.of_nat (S rounds) ->
    importWithRetry T URL newURL hrefWithTimestamp importer retryImport now
      config
    = Some (Rejected (errors rounds),
            importerRounds (retryDelayOf config) (S rounds)).
Proof.
  intros config errors rounds Himp Herr Hs Hm. unfold importWithRetry.
  rewrite Hs.
  rewrite (execute_generic_rounds (maxRetriesOf config) (retryDelayOf config)
             errors rounds Himp Herr 0); [reflexivity | lia | lia].
Qed.

(** X17.  After a failure whose message carries a URL the retry does not
    call the importer again: it waits, then imports that URL with the
    clock reading as cache-busting parameter, and a success there fulfils
    the promise with the module. *)
Theorem importWithRetry_retries_with_cache_busting :
  forall (config : option RetryConfig) (error : Error) (url : URL)
         (module : T),
    importer 0 = ImportFailed (ThrownError error) ->
    extractUrlFromError URL newURL error = Some url ->
    hrefWithTimestamp url (now 0) <> "" ->
    retryImport 1 (hrefWithTimestamp url (now 0)) = Imported module ->
    signalOf config = None ->
    (2 <= maxRetriesOf config)%Z ->
    importWithRetry T URL newURL hrefWithTimestamp importer retryImport now
      config
    = Some (Fulfilled (Some module),
            [CallImporter; Wait (retryDelayOf config);
             CallRetryImport (hrefWithTimestamp url (now 0))]).
Proof.
  intros config error url module Hi Hu Hne Hr Hs Hm. unfold importWithRetry.
  rewrite Hs.
  destruct (Z.to_nat (maxRetriesOf config - 1)) as [|fuel] eqn:F; [lia|].
  cbn [executeWithRetry aborted attempt]. rewrite Hi.
  replace (Z.of_nat 0 >=? maxRetriesOf config - 1)%Z with false
    by (symmetry; rewrite Z.geb_leb; apply Z.leb_gt; lia).
  rewrite Hu.
  destruct (hrefWithTimestamp url (now 0)) as [|c href] eqn:Eh;
    [now elim Hne|].
  cbn [executeWithRetry aborted attempt]. rewrite Hr. reflexivity.
Qed.

End WithEnvironment.

Lemma importWithRetry_rejects_with_last_error_witness :
  exists lastCount lastPath,
    snd (attempt unit safariFailure (fun _ _ => Imported tt) lastCount lastPath)
    = ImportFailed
        (ThrownError {| message := "Importing a module script failed." |})
    /\ aborted (signalOf None) lastCount AfterFailure = false
    /\ ((Z.of_nat lastCount >= maxRetriesOf None - 1)%Z
        \/ (extractUrlFromError string httpsOnly
              {| message := "Importing a module script failed." |} = None
            /\ isGenericModuleError
                 {| message := "Importing a module script failed." |} = false))
    /\ List.length
         (filter isImport
            [CallImporter; Wait 1000; CallImporter; Wait 1000; CallImporter])
       = S lastCount.
Proof.
  apply (importWithRetry_rejects_with_last_error unit string httpsOnly
           (fun u _ => u) safariFailure (fun _ _ => Imported tt)
           (fun _ => 0%Z) None).
  reflexivity.
Defined.

Lemma importWithRetry_exhausts_generic_failures_witness :
  importWithRetry unit string httpsOnly (fun u _ => u) safariFailure
    (fun _ _ => Imported tt) (fun _ => 0%Z)
    (Some {| maxRetries := Some 5%Z; retryDelay := Some 1000%Z;
             signal := None |})
  = Some (Rejected {| message := "Importing a module script failed." |},
          importerRounds 1000 5).
Proof.
  apply (importWithRetry_exhausts_generic_failures unit string httpsOnly
           (fun u _ => u) safariFailure (fun _ _ => Imported tt)
           (fun _ => 0%Z)
           (Some {| maxRetries := Some 5%Z; retryDelay := Some 1000%Z;
                    signal := None |})
           (fun _ => {| message := "Importing a module script failed." |}) 4).
  - reflexivity.
  - intros n. split; vm_compute; reflexivity.
  - reflexivity.
  - reflexivity.
Defined.

Lemma importWithRetry_retries_with_cache_busting_witness :
  importWithRetry unit string httpsOnly
    (fun u t => u ++ "?t=1700000000000")
    (fun _ =>
       ImportFailed
         (ThrownError
            {| message :=
                 "Failed to fetch dynamically imported module: https://cdn.shopify.com/en.js" |}))
    (fun _ _ => Imported tt) (fun _ => 1700000000000%Z) None
  = Some (Fulfilled (Some tt),
          [CallImporter; Wait 1000;
           CallRetryImport "https://cdn.shopify.com/en.js?t=1700000000000"]).
Proof.
  apply (importWithRetry_retries_with_cache_busting unit string httpsOnly
           (fun u t => u ++ "?t=1700000000000")
           (fun _ =>
              ImportFailed
                (ThrownError
                   {| message :=
                        "Failed to fetch dynamically imported module: https://cdn.shopify.com/en.js" |}))
           (fun _ _ => Imported tt) (fun _ => 1700000000000%Z) None
           {| message :=
                "Failed to fetch dynamically imported module: https://cdn.shopify.com/en.js" |}
           "https://cdn.shopify.com/en.js" tt).
  - reflexivity.
  - vm_compute. reflexivity.
  - discriminate.
  - reflexivity.
  - reflexivity.
  - vm_compute. discriminate.
Defined.


Section WithPendingImports.

Variable T : Type.
Variable URL : Type.
Variable newURL : string -> option URL.
Variable hrefWithTimestamp : URL -> Z -> string.
Variable importer : nat -> option (ImportOutcome T).
Variable retryImport : nat -> string -> option (ImportOutcome T).
Variable now : nat -> Z.

Local Abbreviation executeJs :=
  (executeWithRetryJs T URL newURL hrefWithTimestamp importer retryImport now).




(** A round that fails the generic way with retries left: wait, then
    call the importer again. *)
Lemma executeWithRetryJs_generic_round (maxRetries0 : JsNumber)
    (retryDelay0 : Z) (fuel retryCount : nat) (error : Error) :
  importer retryCount = Some (ImportFailed (ThrownError error)) ->
  attemptsUsedUp retryCount maxRetries0 = false ->
  isGenericModuleError error = true ->
  extractUrlFromError URL newURL error = None ->
  executeJs maxRetries0 retryDelay0 None (S fuel) retryCount None
  = prepend T [CallImporter; Wait retryDelay0]
      (executeJs maxRetries0 retryDelay0 None fuel (S retryCount) None).
Proof.
  intros Hi Hu Hg He. cbn [executeWithRetryJs aborted attemptJs].
  now rewrite Hi, Hu, He, Hg.
Qed.

(** X27.  With [maxRetries] infinite or [NaN] the attempts are never
    used up.  While the importer keeps failing with the generic module
    error and nobody aborts, the promise never settles; and when the
    importer succeeds after any number of such failures, every one of them
    has been followed by a wait and a new call, and the promise is
    fulfilled with the module. *)
Theorem importWithRetry_without_bound_keeps_retrying :
  forall (maxRetries0 : JsNumber) (retryDelay0 : option Z)
         (errors : nat -> Error),
    maxRetries0 = PosInfinity \/ maxRetries0 = NaN ->
    (forall n, isGenericModuleError (errors n) = true
               /\ extractUrlFromError URL newURL (errors n) = None) ->
    ((forall n, importer n = Some (ImportFailed (ThrownError (errors n)))) ->
     forall fuel,
       importWithRetryJs T URL newURL hrefWithTimestamp importer retryImport
         now (Some maxRetries0) retryDelay0 None fuel = None)
    /\ (forall failures module,
          (forall n, n < failures ->
             importer n = Some (ImportFailed (ThrownError (errors n)))) ->
          importer failures = Some (Imported module) ->
          importWithRetryJs T URL newURL hrefWithTimestamp importer
            retryImport now (Some maxRetries0) retryDelay0 None (S failures)
          = Some (Fulfilled (Some module),
                  importerRounds (retryDelayOr1000 retryDelay0)
                    (S failures))).
Proof.
  intros maxRetries0 retryDelay0 errors Hm Herr.
  assert (Hu : forall n, attemptsUsedUp n maxRetries0 = false)
    by (intros n; destruct Hm as [-> | ->]; reflexivity).
  unfold importWithRetryJs. cbn [maxRetriesOr3]. split.
  - intros Himp fuel. generalize 0 as retryCount.
    induction fuel as [|fuel IH]; intros retryCount; [reflexivity|].
    destruct (Herr retryCount) as [Hg He].
    rewrite (executeWithRetryJs_generic_round _ _ _ _ _
               (Himp retryCount) (Hu retryCount) Hg He).
    now rewrite IH.
  - intros failures module Hfail Hok.
    enough (G : forall remaining retryCount,
               retryCount + remaining = failures ->
               executeJs maxRetries0 (retryDelayOr1000 retryDelay0) None
                 (S remaining) retryCount None
               = Some (Fulfilled (Some module),
                       importerRounds (retryDelayOr1000 retryDelay0)
                         (S remaining)))
      by (apply G; reflexivity).
    induction remaining as [|remaining IH]; intros retryCount Hc.
    + rewrite Nat.add_0_r in Hc. subst retryCount.
      cbn [executeWithRetryJs aborted attemptJs]. now rewrite Hok.
    + destruct (Herr retryCount) as [Hg He].
      rewrite (executeWithRetryJs_generic_round _ _ _ _ _
                 (Hfail retryCount ltac:(lia)) (Hu retryCount) Hg He).
      rewrite (IH (S retryCount)) by lia. reflexivity.
Qed.

End WithPendingImports.


Lemma importWithRetry_without_bound_keeps_retrying_witness :
  importWithRetryJs unit string httpsOnly (fun u _ => u)
    (fun n => Some (safariFailure n)) (fun _ _ => Some (Imported tt))
    (fun _ => 0%Z) (Some PosInfinity) None None 100
  = None.
Proof.
  destruct
    (importWithRetry_without_bound_keeps_retrying unit string httpsOnly
       (fun u _ => u) (fun n => Some (safariFailure n))
       (fun _ _ => Some (Imported tt)) (fun _ => 0%Z) PosInfinity None
       (fun _ => {| message := "Importing a module script failed." |}))
    as [H _].
  - now left.
  - intros n. split; vm_compute; reflexivity.
  - apply H. intros n. reflexivity.
Defined.

End ImportWithRetryFacts.

(* ------------------------------------------------------------------ *)
(** ** Objects, locales and dictionaries *)

Module JsObjectFacts.
Import JsObject.

Lemma objGet_objSet_same {V} (o : Obj V) (key : string) (value : V) :
  objGet (objSet o key value) key = Some value.
Proof.
  induction o as [|[k v] o IH]; cbn.
  - now rewrite String.eqb_refl.
  - destruct (String.eqb_spec k key) as [->|Hne]; cbn.
    + now rewrite String.eqb_refl.
    + destruct (String.eqb_spec k key); [contradiction | exact IH].
Qed.

Lemma objGet_objSet_other {V} (o : Obj V) (key other : string) (value : V) :
  key <> other -> objGet (objSet o key value) other = objGet o other.
Proof.
  intros Hne. induction o as [|[k v] o IH]; cbn.
  - destruct (String.eqb_spec key other); [contradiction | reflexivity].
  - destruct (String.eqb_spec k key) as [->|Hk]; cbn.
    + destruct (String.eqb_spec key other); [contradiction | reflexivity].
    + destruct (String.eqb_spec k other); [reflexivity | exact IH].
Qed.

Lemma objGet_absent {V} (o : Obj V) (key : string) :
  ~ In key (objKeys o) -> objGet o key = None.
Proof.
  induction o as [|[k v] o IH]; cbn; intros H; [reflexivity|].
  destruct (String.eqb_spec k key) as [->|Hne].
  - elim H. now left.
  - apply IH. intros K. apply H. now right.
Qed.

Lemma objKeys_objSet {V} (o : Obj V) (key : string) (value : V) :
  forall k, In k (objKeys (objSet o key value)) <-> k = key \/ In k (objKeys o).
Proof.
  induction o as [|[k0 v0] o IH]; intros k; cbn.
  - intuition congruence.
  - destruct (String.eqb_spec k0 key) as [->|Hne]; cbn.
    + intuition congruence.
    + rewrite IH. intuition congruence.
Qed.

Lemma wellFormed_objSet {V} (o : Obj V) (key : string) (value : V) :
  NoDup (objKeys o) -> NoDup (objKeys (objSet o key value)).
Proof.
  induction o as [|[k0 v0] o IH]; cbn; intros H.
  - constructor; [intros [] | constructor].
  - inversion H as [|? ? Hn Hd]; subst.
    destruct (String.eqb_spec k0 key) as [->|Hne]; cbn.
    + now constructor.
    + constructor; [|now apply IH].
      intros K. apply (objKeys_objSet o key value) in K as [K|K];
        [congruence | contradiction].
Qed.

Lemma wellFormed_spread {V} (a b : Obj V) :
  NoDup (objKeys a) -> NoDup (objKeys (spread a b)).
Proof.
  unfold spread. revert a.
  induction b as [|[k v] b IH]; intros a H; [exact H|].
  cbn. apply IH. now apply wellFormed_objSet.
Qed.

(** Reading a spread: the right operand wins, key by key. *)
Lemma objGet_spread {V} (a b : Obj V) (key : string) :
  NoDup (objKeys b) ->
  objGet (spread a b) key
  = match objGet b key with
    | Some v => Some v
    | None => objGet a key
    end.
Proof.
  unfold spread. revert a.
  induction b as [|[k v] b IH]; intros a H; [reflexivity|].
  cbn in H. inversion H as [|? ? Hn Hd]; subst.
  cbn [fold_left fst snd objGet]. rewrite (IH _ Hd).
  destruct (String.eqb_spec k key) as [->|Hne].
  - rewrite (objGet_absent b key Hn). apply objGet_objSet_same.
  - now rewrite (objGet_objSet_other a k key v Hne).
Qed.

End JsObjectFacts.

Module I18nFacts.
Import JsString JsObject JsObjectFacts I18n.

Section WithLocales.

Variable SUPPORTED_LOCALES : list string.
Variable intlLocaleLanguage : string -> option string.

Local Abbreviation supported := (isSupportedLocale SUPPORTED_LOCALES).
Local Abbreviation pick := (pickLocale SUPPORTED_LOCALES intlLocaleLanguage).
Local Abbreviation resolvesTo := (resolves SUPPORTED_LOCALES intlLocaleLanguage).
Local Abbreviation defaultLanguage :=
  (getDefaultLanguage SUPPORTED_LOCALES intlLocaleLanguage).

Lemma supported_In (locale : string) :
  supported locale = true <-> In locale SUPPORTED_LOCALES.
Proof.
  unfold isSupportedLocale, arrayIncludes. rewrite existsb_exists. split.
  - intros (y & Hy & E). apply String.eqb_eq in E. now subst.
  - intros H. exists locale. split; [assumption | apply String.eqb_refl].
Qed.

Lemma resolves_supported (c r : string) :
  resolvesTo c = Some r -> In r SUPPORTED_LOCALES /\ (truthy c = true -> truthy r = true).
Proof.
  unfold resolves.
  destruct (supported c) eqn:Ec.
  - intros H. inversion H; subst. split; [now apply supported_In | auto].
  - destruct (intlLocaleLanguage c) as [language|]; [|discriminate].
    destruct (truthy language && supported language) eqn:El; [|discriminate].
    apply andb_true_iff in El as [Et Es].
    intros H. inversion H; subst. split; [now apply supported_In | auto].
Qed.

(** The loop stops at the first candidate that resolves. *)
Lemma pickLocale_first (before after : list string) (c r : string) :
  (forall b, In b before -> resolvesTo b = None) ->
  resolvesTo c = Some r ->
  exists counters,
    pick (before ++ c :: after) = (Some r, counters)
    /\ map counterLocale counters = before.
Proof.
  intros Hb Hc. induction before as [|b before IH]; cbn [app pickLocale].
  - exists []. split; [|reflexivity].
    unfold resolves in Hc.
    destruct (supported c); [now inversion Hc|].
    destruct (intlLocaleLanguage c) as [language|]; [|discriminate].
    destruct (truthy language && supported language); [|discriminate].
    now inversion Hc.
  - destruct IH as (counters & E & Hm);
      [intros x Hx; apply Hb; now right|].
    pose proof (Hb b (or_introl eq_refl)) as Hn. unfold resolves in Hn.
    rewrite E.
    destruct (supported b); [discriminate|].
    destruct (intlLocaleLanguage b) as [language|].
    + destruct (truthy language && supported language); [discriminate|].
      eexists. split; [reflexivity|]. cbn. now rewrite Hm.
    + eexists. split; [reflexivity|]. cbn. now rewrite Hm.
Qed.

(** Without any candidate that resolves the loop runs to the end. *)
Lemma pickLocale_none (candidates : list string) :
  (forall c, In c candidates -> resolvesTo c = None) ->
  exists counters,
    pick candidates = (None, counters)
    /\ map counterLocale counters = candidates.
Proof.
  induction candidates as [|c candidates IH]; intros H; cbn [pickLocale].
  - now exists [].
  - destruct IH as (counters & E & Hm);
      [intros x Hx; apply H; now right|].
    pose proof (H c (or_introl eq_refl)) as Hn. unfold resolves in Hn.
    rewrite E.
    destruct (supported c); [discriminate|].
    destruct (intlLocaleLanguage c) as [language|].
    + destruct (truthy language && supported language); [discriminate|].
      eexists. split; [reflexivity|]. cbn. now rewrite Hm.
    + eexists. split; [reflexivity|]. cbn. now rewrite Hm.
Qed.

Lemma pickLocale_result (candidates : list string) (r : string) :
  fst (pick candidates) = Some r ->
  exists c, In c candidates /\ resolvesTo c = Some r.
Proof.
  induction candidates as [|c candidates IH]; cbn [pickLocale];
    [discriminate|].
  unfold resolves.
  destruct (supported c) eqn:Es.
  - intros H. inversion H; subst. exists r. split; [now left|].
    unfold resolves. now rewrite Es.
  - destruct (intlLocaleLanguage c) as [language|] eqn:El.
    + destruct (truthy language && supported language) eqn:Et.
      * intros H. inversion H; subst. exists c. split; [now left|].
        unfold resolves. now rewrite Es, El, Et.
      * destruct (pick candidates) as [res counters]. cbn [fst] in *.
        intros H. destruct (IH H) as (x & Hx & Hr). exists x.
        split; [now right | exact Hr].
    + destruct (pick candidates) as [res counters]. cbn [fst] in *.
      intros H. destruct (IH H) as (x & Hx & Hr). exists x.
      split; [now right | exact Hr].
Qed.

Lemma potentialLocales_truthy (o : option string) (d : string)
    (s : option string) (l : list string) (c : string) :
  In c (potentialLocales o d s l) -> truthy c = true.
Proof. unfold potentialLocales. intros H. now apply filter_In in H. Qed.

(** X18.  The locale [getDefaultLanguage] settles on is a supported
    locale, or [en]: whatever the page, the shop and the browser
    announce, no unsupported or empty locale is ever chosen. *)
Theorem getDefaultLanguage_is_supported_or_en :
  forall (overrideLocale : option string) (documentLang : string)
         (shopifyLocale : option string) (navigatorLanguages : list string),
    In (fst (getDefaultLanguage SUPPORTED_LOCALES intlLocaleLanguage
               overrideLocale documentLang shopifyLocale navigatorLanguages))
      SUPPORTED_LOCALES
    \/ fst (getDefaultLanguage SUPPORTED_LOCALES intlLocaleLanguage
              overrideLocale documentLang shopifyLocale navigatorLanguages)
       = "en".
Proof.
  intros o d s l. unfold getDefaultLanguage.
  pose proof (pickLocale_result (potentialLocales o d s l)) as H.
  destruct (pick (potentialLocales o d s l)) as [[r|] counters];
    cbn [fst] in *; [|now right].
  destruct (H r eq_refl) as (c & Hc & Hr).
  destruct (resolves_supported c r Hr) as [Hs Ht].
  rewrite (Ht (potentialLocales_truthy _ _ _ _ _ Hc)). now left.
Qed.

(** X19.  The candidates are tried in order: override, document language,
    shop locale, browser languages.  The first one that is supported, or
    whose language is, decides, and a counter is recorded for each
    candidate before it and for none after it; when no candidate
    resolves, the result is [en] and every candidate is counted. *)
Theorem getDefaultLanguage_first_candidate_wins :
  forall (overrideLocale : option string) (documentLang : string)
         (shopifyLocale : option string) (navigatorLanguages : list string),
    (forall before c after r,
       potentialLocales overrideLocale documentLang shopifyLocale
         navigatorLanguages = (before ++ c :: after)%list ->
       (forall b, In b before -> resolvesTo b = None) ->
       resolvesTo c = Some r ->
       fst (defaultLanguage overrideLocale documentLang shopifyLocale
              navigatorLanguages) = r
       /\ map counterLocale
            (snd (defaultLanguage overrideLocale documentLang shopifyLocale
                    navigatorLanguages)) = before)
    /\ ((forall c,
           In c (potentialLocales overrideLocale documentLang shopifyLocale
                   navigatorLanguages) -> resolvesTo c = None) ->
        fst (defaultLanguage overrideLocale documentLang shopifyLocale
               navigatorLanguages) = "en"
        /\ map counterLocale
             (snd (defaultLanguage overrideLocale documentLang shopifyLocale
                     navigatorLanguages))
           = potentialLocales overrideLocale documentLang shopifyLocale
               navigatorLanguages).
Proof.
  intros o d s l. unfold getDefaultLanguage. split.
  - intros before c after r E Hb Hc.
    assert (Ht : truthy c = true).
    { apply (potentialLocales_truthy o d s l). rewrite E.
      apply in_or_app. right. now left. }
    rewrite E.
    destruct (pickLocale_first before after c r Hb Hc) as (counters & -> & Hm).
    destruct (resolves_supported c r Hc) as [_ Hr]. rewrite (Hr Ht).
    split; [reflexivity | exact Hm].
  - intros H. destruct (pickLocale_none _ H) as (counters & -> & Hm).
    split; [reflexivity | exact Hm].
Qed.

End WithLocales.

Lemma getDefaultLanguage_first_candidate_wins_witness :
  fst (getDefaultLanguage ["en"; "fr"; "de"]
         (fun tag => if String.eqb tag "fr-CA" then Some "fr" else None)
         None "xx" (Some "fr-CA") ["de"]) = "fr".
Proof.
  destruct
    (getDefaultLanguage_first_candidate_wins ["en"; "fr"; "de"]
       (fun tag => if String.eqb tag "fr-CA" then Some "fr" else None)
       None "xx" (Some "fr-CA") ["de"]) as [H _].
  destruct (H ["xx"] "fr-CA" ["de"] "fr") as [K _].
  - reflexivity.
  - intros b [<-|[]]. reflexivity.
  - reflexivity.
  - exact K.
Defined.

(** Merging the waiting dictionaries, one after the other. *)
Lemma objGet_merged {V} (pending : list (Obj V)) (acc : Obj V) (key : string) :
  Forall (fun d => NoDup (objKeys d)) pending ->
  objGet (fold_left (fun dictionary d => spread dictionary d) pending acc) key
  = fold_left (fun found d =>
                 match objGet d key with
                 | Some v => Some v
                 | None => found
                 end) pending (objGet acc key).
Proof.
  intros H. revert acc.
  induction H as [|d pending Hd Hp IH]; intros acc; [reflexivity|].
  cbn [fold_left]. rewrite IH. now rewrite (objGet_spread acc d key Hd).
Qed.

Lemma wellFormed_merged {V} (pending : list (Obj V)) (acc : Obj V) :
  NoDup (objKeys acc) ->
  NoDup (objKeys (fold_left (fun dictionary d => spread dictionary d)
                    pending acc)).
Proof.
  revert acc. induction pending as [|d pending IH]; intros acc H; [exact H|].
  cbn [fold_left]. apply IH. now apply wellFormed_spread.
Qed.

(** X20.  [updateTranslations] flushes the two queues, invokes every
    waiting callback once and in order, leaves the dictionaries of the
    other locales alone, and stores for the given locale a dictionary in
    which each key has the value of the last waiting dictionary that
    defines it, or else the value it had before. *)
Theorem updateTranslations_merges_and_flushes :
  forall (V : Type) (locale : string) (store : Store V),
    Forall (fun d => NoDup (objKeys d)) (pendingTranslations store) ->
    snd (updateTranslations locale store) = pendingCallbacks store
    /\ pendingCallbacks (fst (updateTranslations locale store)) = []
    /\ pendingTranslations (fst (updateTranslations locale store)) = []
    /\ (forall other, other <> locale ->
          objGet (translations (fst (updateTranslations locale store))) other
          = objGet (translations store) other)
    /\ exists dictionary,
         objGet (translations (fst (updateTranslations locale store))) locale
         = Some dictionary
         /\ forall key,
              objGet dictionary key
              = match lastBinding (pendingTranslations store) key with
                | Some v => Some v
                | None =>
                    match objGet (translations store) locale with
                    | Some current => objGet current key
                    | None => None
                    end
                end.
Proof.
  intros V locale store Hwf. unfold updateTranslations.
  cbn [fst snd pendingCallbacks pendingTranslations translations].
  repeat split.
  - intros other Hne. apply objGet_objSet_other. congruence.
  - eexists. split; [apply objGet_objSet_same|].
    intros key. rewrite objGet_spread.
    + rewrite (objGet_merged _ [] key Hwf). cbn [objGet]. unfold lastBinding.
      destruct (fold_left _ (pendingTranslations store) None);
        [reflexivity|].
      now destruct (objGet (translations store) locale).
    + apply wellFormed_merged. constructor.
Qed.

Lemma updateTranslations_merges_and_flushes_witness :
  pendingTranslations
    (fst (updateTranslations "fr"
            {| pendingCallbacks := [1; 2];
               pendingTranslations :=
                 [ [("button.close", "Fermer")];
                   [("button.close", "Quitter"); ("title", "Shop")] ];
               translations := [("en", [("button.close", "Close")])] |}))
  = [].
Proof.
  destruct
    (updateTranslations_merges_and_flushes string "fr"
       {| pendingCallbacks := [1; 2];
          pendingTranslations :=
            [ [("button.close", "Fermer")];
              [("button.close", "Quitter"); ("title", "Shop")] ];
          translations := [("en", [("button.close", "Close")])] |})
    as (_ & _ & H & _).
  - repeat constructor; cbn; intuition discriminate.
  - exact H.
Defined.

End I18nFacts.

(* ------------------------------------------------------------------ *)
(** ** The authentication domains *)

Module DomainsFacts.
Import JsString JsStringFacts Domains.

Lemma string_length_app (a b : string) :
  String.length (a ++ b) = String.length a + String.length b.
Proof. induction a as [|c a IH]; cbn; [reflexivity | now rewrite IH]. Qed.

Lemma take_drop (n : nat) (s : string) : take n s ++ drop n s = s.
Proof.
  revert s. induction n as [|n IH]; intros s; [reflexivity|].
  destruct s as [|c s]; cbn; [reflexivity | now rewrite IH].
Qed.

(** [endsWith] finds exactly the suffixes. *)
Lemma endsWith_iff (s suffix : string) :
  endsWith s suffix = true <-> exists p, s = p ++ suffix.
Proof.
  unfold endsWith. rewrite andb_true_iff, Nat.leb_le, String.eqb_eq. split.
  - intros [_ E].
    exists (take (String.length s - String.length suffix) s).
    rewrite <- E at 2. symmetry. apply take_drop.
  - intros [p ->]. rewrite string_length_app. split; [lia|].
    replace (String.length p + String.length suffix - String.length suffix)
      with (String.length p) by lia.
    apply drop_app.
Qed.

(** X21.  [getDevFqdn] answers [shop.dev] exactly for the hostnames that
    end in [.shop.dev], the Shop Web client's own host excepted, and
    nothing for every other hostname. *)
Theorem getDevFqdn_recognizes_local_dev_hosts :
  forall (hostname0 : string),
    (getDevFqdn hostname0 = Some "shop.dev" <->
     (exists sub, hostname0 = sub ++ ".shop.dev")
     /\ hostname0 <> "web-shop-client.shop.dev")
    /\ (getDevFqdn hostname0 = Some "shop.dev" \/ getDevFqdn hostname0 = None).
Proof.
  intros h. unfold getDevFqdn.
  rewrite <- (endsWith_iff h ".shop.dev").
  destruct (endsWith h ".shop.dev");
    destruct (String.eqb_spec h "web-shop-client.shop.dev") as [E|N]; cbn;
    (split; [split|]); try tauto; try discriminate; auto;
    intros [K1 K2]; try discriminate; contradiction.
Qed.

(** X22.  On a local development host the three authentication domains
    are the fixed [shop.dev] ones, whatever the build environment and the
    page's origin; on every other host the pay domains are those of the
    environment and the core domain is the environment's when it is set
    and not empty, the page's origin otherwise. *)
Theorem getDomains_by_host :
  forall (env : ProcessEnv) (location : Location),
    ((exists sub, hostname location = sub ++ ".shop.dev")
     /\ hostname location <> "web-shop-client.shop.dev" ->
     getDomains env location
     = {| coreAuthDomain := "https://shop1.my.shop.dev";
          payAuthDomain := Some "https://shop-server.shop.dev";
          payAuthDomainAlt := Some "https://pay-shopify-com.shop.dev" |})
    /\ (~ ((exists sub, hostname location = sub ++ ".shop.dev")
           /\ hostname location <> "web-shop-client.shop.dev") ->
        payAuthDomain (getDomains env location) = PAY_AUTH_DOMAIN env
        /\ payAuthDomainAlt (getDomains env location) = PAY_AUTH_ALT_DOMAIN env
        /\ (forall domain,
              CORE_AUTH_DOMAIN env = Some domain -> domain <> "" ->
              coreAuthDomain (getDomains env location) = domain)
        /\ (CORE_AUTH_DOMAIN env = None \/ CORE_AUTH_DOMAIN env = Some "" ->
            coreAuthDomain (getDomains env location) = origin location)).
Proof.
  intros env location.
  unfold getDomains, getDevFqdn.
  rewrite <- (endsWith_iff (hostname location) ".shop.dev").
  destruct (endsWith (hostname location) ".shop.dev");
    destruct (String.eqb_spec (hostname location) "web-shop-client.shop.dev")
      as [E|N]; cbn [andb negb].
  all: split; [intros [K1 K2]; try discriminate K1; try contradiction;
               reflexivity|].
  all: intros H; try (elim H; split; [reflexivity | assumption]).
  all: cbn; repeat split.
  all: try (intros domain -> Hne; destruct domain;
            [now elim Hne | reflexivity]).
  all: intros [-> | ->]; reflexivity.
Qed.

Lemma getDevFqdn_recognizes_local_dev_hosts_witness :
  getDevFqdn "checkout.shop.dev" = Some "shop.dev".
Proof.
  destruct (getDevFqdn_recognizes_local_dev_hosts "checkout.shop.dev")
    as [H _].
  apply H. split; [now exists "checkout" | discriminate].
Defined.

Lemma getDomains_by_host_witness :
  coreAuthDomain
    (getDomains
       {| CORE_AUTH_DOMAIN := Some "";
          PAY_AUTH_DOMAIN := Some "https://shop.app";
          PAY_AUTH_ALT_DOMAIN := Some "https://pay.shopify.com" |}
       {| origin := "https://web-shop-client.shop.dev";
          hostname := "web-shop-client.shop.dev" |})
  = "https://web-shop-client.shop.dev".
Proof.
  destruct
    (getDomains_by_host
       {| CORE_AUTH_DOMAIN := Some "";
          PAY_AUTH_DOMAIN := Some "https://shop.app";
          PAY_AUTH_ALT_DOMAIN := Some "https://pay.shopify.com" |}
       {| origin := "https://web-shop-client.shop.dev";
          hostname := "web-shop-client.shop.dev" |}) as [_ H].
  destruct H as (_ & _ & _ & K).
  - cbn. intros [_ N]. now apply N.
  - apply K. now right.
Defined.

End DomainsFacts.

(* ------------------------------------------------------------------ *)
(** ** The footer policy text *)

Module FooterPolicyTextFacts.
Import JsString JsStringFacts JsObject JsObjectFacts Domains DomainsFacts
  FooterPolicyText.

Lemma startsWith_empty (s : string) : startsWith s "" = true.
Proof. now destruct s. Qed.

Lemma includes_char_cons (d c : ascii) (s : string) :
  includes (String d s) (String c "")
  = Ascii.eqb c d || includes s (String c "").
Proof.
  cbn [includes startsWith]. now rewrite startsWith_empty, andb_true_r.
Qed.

Lemma replace_char_cons (d c : ascii) (s : string) :
  replace (String d s) (String c "") ""
  = if Ascii.eqb c d then s else String d (replace s (String c "") "").
Proof.
  cbn [replace startsWith]. rewrite startsWith_empty, andb_true_r.
  now destruct (Ascii.eqb c d).
Qed.

(** A key of letters and underscores has no brace in it. *)
Lemma plainKey_braceFree (key : string) :
  allKeyChars key = true ->
  includes key "{" = false /\ includes key "}" = false.
Proof.
  induction key as [|d key IH]; [split; reflexivity|].
  cbn [allKeyChars]. intros H. apply andb_true_iff in H as [Hd Hk].
  destruct (IH Hk) as [I1 I2].
  rewrite !includes_char_cons, I1, I2, !orb_false_r.
  split.
  - destruct (Ascii.eqb_spec "{"%char d) as [<-|]; [discriminate Hd | reflexivity].
  - destruct (Ascii.eqb_spec "}"%char d) as [<-|]; [discriminate Hd | reflexivity].
Qed.

(** Taking the closing brace off a text that ends with it. *)
Lemma unbrace (x key y : string) :
  replace x "}" "" = key ->
  includes key "}" = false ->
  x = y ++ "}" ->
  x = key ++ "}".
Proof.
  revert key y. induction x as [|d x IH]; intros key y Hr Hk Hy.
  - destruct y; discriminate Hy.
  - rewrite replace_char_cons in Hr.
    destruct (Ascii.eqb_spec "}"%char d) as [<-|Hne].
    + subst key. destruct y as [|e y]; cbn in Hy.
      * now inversion Hy.
      * inversion Hy; subst.
        assert (K : includes (y ++ "}") "}" = true)
          by (apply includes_iff; now exists y, "").
        congruence.
    + subst key. rewrite includes_char_cons in Hk.
      apply orb_false_iff in Hk as [_ Hk].
      destruct y as [|e y]; cbn in Hy.
      * inversion Hy; subst. now elim Hne.
      * inversion Hy; subst. cbn. f_equal.
        now apply (IH _ y).
Qed.

Lemma objGet_Some_In {V} (o : Obj V) (key : string) (v : V) :
  objGet o key = Some v -> In key (objKeys o).
Proof.
  induction o as [|[k w] o IH]; cbn; [discriminate|].
  destruct (String.eqb_spec k key) as [->|Hne]; [now left|].
  intros H. right. now apply IH.
Qed.

Lemma In_objGet_Some {V} (o : Obj V) (key : string) :
  In key (objKeys o) -> exists v, objGet o key = Some v.
Proof.
  induction o as [|[k w] o IH]; cbn; [intros []|].
  destruct (String.eqb_spec k key) as [->|Hne]; [now eexists|].
  intros [H|H]; [congruence | now apply IH].
Qed.

(** A resolved item stands for the item it came from. *)
Lemma sourceOf_resolveItem (links : Obj FooterPolicyLink) (item : string) :
  (forall key, In key (objKeys links) -> includes key "}" = false) ->
  sourceOf (resolveItem links item) = item.
Proof.
  intros Hplain. unfold resolveItem.
  destruct (startsWith item "{" && endsWith item "}") eqn:E; [|reflexivity].
  apply andb_true_iff in E as [Es Ee].
  destruct (objGet links (replace (replace item "{" "") "}" ""))
    as [link|] eqn:G; [|reflexivity].
  cbn [sourceOf]. unfold placeholder.
  apply startsWith_inv in Es as [x ->].
  apply endsWith_iff in Ee as [y Ey].
  rewrite replace_prefix in G |- *. cbn [append] in G |- *.
  f_equal.
  destruct y as [|e y]; cbn in Ey; [destruct x; discriminate Ey|].
  inversion Ey; subst. symmetry.
  apply (unbrace _ _ y eq_refl); [|reflexivity].
  apply Hplain. now apply (objGet_Some_In _ _ link).
Qed.

Lemma firstPlaceholderAt_Some (linkKeys : list string) (s separator : string) :
  firstPlaceholderAt linkKeys s = Some separator ->
  exists key, In key linkKeys /\ separator = placeholder key
              /\ startsWith s separator = true.
Proof.
  induction linkKeys as [|k linkKeys IH]; cbn [firstPlaceholderAt];
    [discriminate|].
  destruct (startsWith s (placeholder k)) eqn:E.
  - intros H. inversion H; subst. exists k.
    split; [now left|]. split; [reflexivity | exact E].
  - intros H. destruct (IH H) as (key & Hin & Hs & Hp).
    exists key. split; [now right|]. split; assumption.
Qed.

Lemma firstPlaceholderAt_None (linkKeys : list string) (s key : string) :
  firstPlaceholderAt linkKeys s = None -> In key linkKeys ->
  startsWith s (placeholder key) = false.
Proof.
  induction linkKeys as [|k linkKeys IH]; cbn [firstPlaceholderAt];
    [intros _ []|].
  destruct (startsWith s (placeholder k)) eqn:E; [discriminate|].
  intros H [<-|Hin]; [exact E | now apply IH].
Qed.

Lemma concatStrings_cons (piece : string) (pieces : list string) :
  concatStrings (piece :: pieces) = piece ++ concatStrings pieces.
Proof. reflexivity. Qed.

(** Splitting loses nothing: the pieces put together are the text. *)
Lemma concat_splitGo (linkKeys : list string) (s : string) :
  forall skip current,
    concatStrings (splitGo linkKeys s skip current) = current ++ drop skip s.
Proof.
  induction s as [|c s IH]; intros skip current.
  - cbn. destruct skip; cbn; now rewrite !string_app_empty_r.
  - destruct skip as [|k]; cbn [splitGo drop].
    + destruct (firstPlaceholderAt linkKeys (String c s)) as [separator|] eqn:F.
      * destruct (firstPlaceholderAt_Some _ _ _ F) as (key & _ & Hs & Hp).
        apply startsWith_inv in Hp as [r Hr].
        rewrite !concatStrings_cons, IH. cbn [append].
        destruct separator as [|e separator];
          [unfold placeholder in Hs; discriminate Hs|].
        cbn in Hr. inversion Hr; subst.
        cbn [String.length]. rewrite Nat.sub_succ, Nat.sub_0_r, drop_app.
        reflexivity.
      * rewrite IH. cbn [drop]. now rewrite string_app_assoc.
    + apply IH.
Qed.

(** Splitting a text that ends where [current] does. *)
Lemma string_snoc_inv (a b current : string) (c : ascii) :
  a ++ b = current ++ String c "" -> b <> "" ->
  exists b0, b = b0 ++ String c "" /\ current = a ++ b0.
Proof.
  revert current. induction a as [|x a IH]; intros current H Hb.
  - exists current. now split.
  - destruct current as [|y current]; cbn in H; inversion H; subst.
    + destruct a; [cbn in *; now elim Hb | discriminate].
    + destruct (IH current) as (b0 & -> & ->); [assumption | assumption |].
      now exists b0.
Qed.

(** Every piece is a placeholder, or has no placeholder in it. *)
Lemma pieces_splitGo (linkKeys : list string) (s : string) :
  forall skip current,
    (skip = 0 ->
     forall a b, current = a ++ b -> b <> "" ->
                 firstPlaceholderAt linkKeys (b ++ s) = None) ->
    (skip <> 0 -> current = "") ->
    Forall (fun piece =>
              (exists key, In key linkKeys /\ piece = placeholder key)
              \/ placeholderFree linkKeys piece)
      (splitGo linkKeys s skip current).
Proof.
  assert (Free : forall current rest,
             (forall a b, current = a ++ b -> b <> "" ->
                          firstPlaceholderAt linkKeys (b ++ rest) = None) ->
             placeholderFree linkKeys current).
  { intros current rest Inv key Hin.
    destruct (includes current (placeholder key)) eqn:E; [|reflexivity].
    apply includes_iff in E as (a & b & ->).
    assert (N : firstPlaceholderAt linkKeys
                  ((placeholder key ++ b) ++ rest) = None).
    { apply (Inv a); [reflexivity|]. unfold placeholder. discriminate. }
    pose proof (firstPlaceholderAt_None _ _ key N Hin) as K.
    rewrite string_app_assoc, startsWith_app in K. discriminate K. }
  induction s as [|c s IH]; intros skip current Inv Hskip.
  - cbn. constructor; [|constructor]. right.
    destruct skip as [|k].
    + apply (Free current ""). now apply Inv.
    + rewrite Hskip by discriminate. intros key _. reflexivity.
  - destruct skip as [|k]; cbn [splitGo].
    + specialize (Inv eq_refl).
      destruct (firstPlaceholderAt linkKeys (String c s)) as [separator|] eqn:F.
      * constructor; [right; now apply (Free current (String c s))|].
        constructor.
        { left. destruct (firstPlaceholderAt_Some _ _ _ F) as (key & Hin & Hs & _).
          now exists key. }
        apply IH; [|reflexivity].
        intros _ a b E Hb. destruct a; cbn in E; [|discriminate].
        subst b. now elim Hb.
      * apply IH; [|intros K; now elim K].
        intros _ a b E Hb.
        destruct (string_snoc_inv a b current c (eq_sym E) Hb)
          as (b0 & -> & ->).
        rewrite string_app_assoc. cbn [append].
        destruct b0 as [|e b0]; [exact F|].
        apply (Inv a); [reflexivity | discriminate].
    + apply IH; [intros ->|intros _; apply Hskip; discriminate].
      rewrite Hskip by discriminate.
      intros a b E Hb. destruct a; cbn in E; [|discriminate].
      subst b. now elim Hb.
Qed.

Lemma linksMap_keys (entries : Obj (option FooterPolicyLink)) (key : string) :
  In key (objKeys (linksMap entries)) ->
  exists link, In (key, Some link) entries.
Proof.
  unfold linksMap.
  assert (G : forall acc,
             In key (objKeys
                       (fold_left
                          (fun links kv =>
                             match snd kv with
                             | Some value => objSet links (fst kv) value
                             | None => links
                             end) entries acc)) ->
             In key (objKeys acc) \/ exists link, In (key, Some link) entries).
  { induction entries as [|[k [v|]] entries IH]; intros acc H; cbn in H.
    - now left.
    - destruct (IH _ H) as [K|(link & K)].
      + apply objKeys_objSet in K as [->|K]; [|now left].
        right. exists v. now left.
      + right. exists link. now right.
    - destruct (IH _ H) as [K|(link & K)]; [now left|].
      right. exists link. now right. }
  intros H. destruct (G [] H) as [[]|K]. exact K.
Qed.

(** X23.  Rendering loses no text: with link keys made of letters and
    underscores, putting back the placeholder for each link element and
    joining the children gives the policy text again, character for
    character. *)
Theorem footerPolicy_preserves_the_text :
  forall (policy : FooterPolicy) (children : list Child),
    (forall key link, In (key, Some link) (policyLinks policy) ->
                      plainKey key = true) ->
    footerPolicy (Some policy) = Some children ->
    concatStrings (map sourceOf children) = policyText policy.
Proof.
  intros policy children Hplain. cbn [footerPolicy].
  assert (Hb : forall key,
             In key (objKeys (linksMap (policyLinks policy))) ->
             includes key "}" = false).
  { intros key Hin. destruct (linksMap_keys _ _ Hin) as [link Hl].
    specialize (Hplain key link Hl). destruct key; [discriminate|].
    now apply plainKey_braceFree. }
  destruct (objKeys (linksMap (policyLinks policy))) as [|k ks] eqn:Ek.
  - intros H. inversion H; subst. cbn. apply string_app_empty_r.
  - rewrite <- Ek in Hb |- *. intros H. inversion H; subst. clear H.
    rewrite map_map.
    rewrite (map_ext _ (fun item => item)
               (fun item => sourceOf_resolveItem _ item Hb)).
    rewrite map_id. unfold splitByPlaceholders.
    now rewrite concat_splitGo.
Qed.

(** X24.  With link keys made of letters and underscores, every
    placeholder of a key that has a link is turned into that key's link:
    each link element carries the link stored under its key, and no piece
    of text that is left contains the placeholder of any key with a
    link. *)
Theorem footerPolicy_resolves_every_placeholder :
  forall (policy : FooterPolicy) (children : list Child),
    (forall key link, In (key, Some link) (policyLinks policy) ->
                      plainKey key = true) ->
    footerPolicy (Some policy) = Some children ->
    (forall key link, In (LinkChild key link) children ->
                      objGet (linksMap (policyLinks policy)) key = Some link)
    /\ (objKeys (linksMap (policyLinks policy)) <> [] ->
        forall text, In (TextChild text) children ->
                     placeholderFree
                       (objKeys (linksMap (policyLinks policy))) text).
Proof.
  intros policy children Hplain. cbn [footerPolicy].
  set (links := linksMap (policyLinks policy)).
  assert (Hb : forall key, In key (objKeys links) ->
                           includes key "{" = false
                           /\ includes key "}" = false).
  { intros key Hin. destruct (linksMap_keys _ _ Hin) as [link Hl].
    specialize (Hplain key link Hl). destruct key; [discriminate|].
    now apply plainKey_braceFree. }
  destruct (objKeys links) as [|k ks] eqn:Ek.
  - intros H. inversion H; subst. split.
    + intros key link [K|[]]. discriminate K.
    + intros K. now elim K.
  - rewrite <- Ek in *. intros H. inversion H; subst. clear H. split.
    + intros key link Hin. apply in_map_iff in Hin as (item & Hr & _).
      unfold resolveItem in Hr.
      destruct (startsWith item "{" && endsWith item "}"); [|discriminate].
      destruct (objGet links (replace (replace item "{" "") "}" ""))
        as [l|] eqn:G; [|discriminate].
      now inversion Hr; subst.
    + intros _ text Hin. apply in_map_iff in Hin as (item & Hr & Hitem).
      pose proof (pieces_splitGo (objKeys links) (policyText policy) 0 "")
        as P.
      rewrite Forall_forall in P.
      assert (Inv : 0 = 0 ->
                    forall a b, "" = a ++ b -> b <> "" ->
                      firstPlaceholderAt (objKeys links) (b ++ policyText policy)
                      = None).
      { intros _ a b E Hne. destruct a; [|discriminate E].
        cbn in E. subst b. now elim Hne. }
      destruct (P Inv (fun K => False_ind _ (K eq_refl)) item Hitem)
        as [(key & Hk & ->)|Hfree].
      * exfalso. unfold resolveItem in Hr.
        destruct (Hb key Hk) as [B1 B2].
        assert (S1 : startsWith (placeholder key) "{" = true)
          by (unfold placeholder; cbn; apply startsWith_empty).
        assert (S2 : endsWith (placeholder key) "}" = true).
        { apply endsWith_iff. exists ("{" ++ key). unfold placeholder.
          now rewrite string_app_assoc. }
        rewrite S1, S2 in Hr. cbn [andb] in Hr.
        assert (Ekey : replace (replace (placeholder key) "{" "") "}" "" = key).
        { unfold placeholder. rewrite (replace_prefix "{" (key ++ "}") "").
          cbn [append].
          rewrite <- (string_app_empty_r (key ++ "}")), string_app_assoc.
          rewrite (replace_first key "}" "" "").
          - cbn. apply string_app_empty_r.
          - intros a1 a2 -> Hne.
            destruct a2 as [|d a2]; [now elim Hne|].
            cbn [append startsWith]. rewrite startsWith_empty, andb_true_r.
            assert (I : includes (a1 ++ String d a2) "}" = false) by exact B2.
            destruct (Ascii.eqb_spec "}"%char d) as [<-|]; [|reflexivity].
            assert (T : includes (a1 ++ String "}" a2) "}" = true)
              by (apply includes_iff; now exists a1, a2).
            congruence. }
        rewrite Ekey in Hr.
        destruct (In_objGet_Some links key Hk) as [v Hv].
        rewrite Hv in Hr. discriminate Hr.
      * unfold resolveItem in Hr.
        destruct (startsWith item "{" && endsWith item "}");
          [destruct (objGet links _); [discriminate|]|];
          now inversion Hr; subst.
Qed.

Lemma samplePolicy_plain :
  forall key link, In (key, Some link) (policyLinks samplePolicy) ->
                   plainKey key = true.
Proof.
  intros key link [H|[H|[H|[]]]]; inversion H; reflexivity.
Qed.

Lemma footerPolicy_preserves_the_text_witness :
  concatStrings
    (map sourceOf
       [ TextChild "By continuing, you agree to the ";
         LinkChild "terms"
           {| linkText := "Terms"; linkUrl := "https://shop.app/terms" |};
         TextChild " and ";
         LinkChild "privacy"
           {| linkText := "Privacy Policy";
              linkUrl := "https://shop.app/privacy" |};
         TextChild "." ])
  = "By continuing, you agree to the {terms} and {privacy}.".
Proof.
  apply (footerPolicy_preserves_the_text samplePolicy).
  - exact samplePolicy_plain.
  - reflexivity.
Defined.

Lemma footerPolicy_resolves_every_placeholder_witness :
  objGet (linksMap (policyLinks samplePolicy)) "privacy"
  = Some {| linkText := "Privacy Policy";
            linkUrl := "https://shop.app/privacy" |}.
Proof.
  destruct
    (footerPolicy_resolves_every_placeholder samplePolicy
       [ TextChild "By continuing, you agree to the ";
         LinkChild "terms"
           {| linkText := "Terms"; linkUrl := "https://shop.app/terms" |};
         TextChild " and ";
         LinkChild "privacy"
           {| linkText := "Privacy Policy";
              linkUrl := "https://shop.app/privacy" |};
         TextChild "." ]
       samplePolicy_plain eq_refl) as [H _].
  apply H. cbn. auto 8.
Defined.

End FooterPolicyTextFacts.

(* ------------------------------------------------------------------ *)
(** ** Iframe errors *)

Module IframeErrorsFacts.
Import JsString JsStringFacts IframeErrors.

(** A run: one character of the class at least, then what follows. *)
Lemma oneOrMore_iff (class : ascii -> bool) (k : string -> bool) (s : string) :
  oneOrMore class k s = true <->
  exists c run r,
    s = String c run ++ r /\ allIn class (String c run) = true /\ k r = true.
Proof.
  induction s as [|c s IH]; cbn [oneOrMore].
  - split; [discriminate | intros (c & run & r & E & _); discriminate E].
  - rewrite andb_true_iff, orb_true_iff, IH. split.
    + intros [Hc [(c' & run & r & -> & Ha & Hk) | Hk]].
      * exists c, (String c' run), r. repeat split; [|exact Hk].
        cbn [allIn] in *. now rewrite Hc.
      * exists c, "", s. repeat split; [|exact Hk].
        cbn. now rewrite Hc.
    + intros (c0 & run & r & E & Ha & Hk). cbn in E. inversion E; subst.
      cbn [allIn] in Ha. apply andb_true_iff in Ha as [Hc Hr].
      split; [exact Hc|].
      destruct run as [|c' run]; [right; exact Hk|].
      left. exists c', run, r. repeat split; assumption.
Qed.

(** The matcher accepts exactly the texts that start with a match. *)
Lemma matchHere_iff (pattern : list Token) :
  forall s, matchHere pattern s = true <->
            exists m r, s = m ++ r /\ Matches pattern m.
Proof.
  induction pattern as [|[text|class] rest IH]; intros s; cbn [matchHere].
  - split; [intros _|reflexivity]. exists "", s. split; [reflexivity|constructor].
  - rewrite andb_true_iff. split.
    + intros [Hs Hm]. apply startsWith_inv in Hs as [r0 ->].
      rewrite drop_app in Hm. apply IH in Hm as (m & r & -> & Hm).
      exists (text ++ m), r. split; [now rewrite string_app_assoc|].
      now constructor.
    + intros (m0 & r & -> & Hm). inversion Hm; subst.
      rewrite string_app_assoc, startsWith_app, drop_app.
      split; [reflexivity|]. apply IH. now exists m, r.
  - rewrite oneOrMore_iff. split.
    + intros (c & run & r0 & -> & Ha & Hk).
      apply IH in Hk as (m & r & -> & Hm).
      exists (String c run ++ m), r. split; [now rewrite string_app_assoc|].
      now constructor.
    + intros (m0 & r & -> & Hm). inversion Hm; subst.
      exists c, run, (m ++ r). rewrite string_app_assoc.
      repeat split; [assumption|]. apply IH. now exists m, r.
Qed.

(** [test] finds a match wherever it starts. *)
Lemma test_iff (pattern : list Token) (s : string) :
  test pattern s = true <->
  exists a m b, s = a ++ m ++ b /\ Matches pattern m.
Proof.
  induction s as [|c s IH]; cbn [test]; rewrite orb_true_iff, matchHere_iff.
  - split.
    + intros [(m & r & E & Hm) | H]; [|discriminate].
      now exists "", m, r.
    + intros (a & m & b & E & Hm). left.
      destruct a; [|discriminate E]. now exists m, b.
  - rewrite IH. split.
    + intros [(m & r & E & Hm) | (a & m & b & -> & Hm)].
      * now exists "", m, r.
      * now exists (String c a), m, b.
    + intros (a & m & b & E & Hm). destruct a as [|x a]; cbn in E.
      * left. now exists m, b.
      * inversion E; subst. right. now exists a, m, b.
Qed.

Lemma Matches_conflictingSubject (m : string) :
  Matches CONFLICTING_SUBJECT m <-> conflictingSubject m.
Proof.
  unfold CONFLICTING_SUBJECT, conflictingSubject. split.
  - intros H.
    repeat match goal with
           | K : Matches (_ :: _) _ |- _ => inversion K; subst; clear K
           | K : Matches [] _ |- _ => inversion K; subst; clear K
           end.
    do 4 eexists. repeat split; try eassumption; try discriminate.
  - intros (customer & shop & existing & incoming
            & Hc & Ac & Hs & As & He & Ae & Hi & Ai & ->).
    destruct customer; [now elim Hc|]. destruct shop; [now elim Hs|].
    destruct existing; [now elim He|]. destruct incoming; [now elim Hi|].
    repeat (first [ apply Matches_lit | apply Matches_run; [assumption|] ]).
    change "'" with ("'" ++ ""). apply Matches_lit. constructor.
Qed.

Lemma Matches_noPrequalification (m : string) :
  Matches NO_PREQUALIFICATION m <-> m = "no_prequalification_amount_available".
Proof.
  unfold NO_PREQUALIFICATION. split.
  - intros H. inversion H; subst.
    match goal with K : Matches [] _ |- _ => inversion K; subst end.
    reflexivity.
  - intros ->.
    change "no_prequalification_amount_available"
      with ("no_prequalification_amount_available" ++ "").
    constructor. constructor.
Qed.

(** The errors kept silent. *)
Lemma isUsefulError_false (code message : string) :
  isUsefulError code message = false <->
  In code SILENT_SDK_ERROR_CODES
  \/ (exists a m b, message = a ++ m ++ b /\ conflictingSubject m)
  \/ (exists a b,
        message = a ++ "no_prequalification_amount_available" ++ b).
Proof.
  unfold isUsefulError, SILENT_MESSAGE_REGEX.
  rewrite negb_false_iff, orb_true_iff. cbn [existsb].
  rewrite !orb_true_iff, !test_iff, BugsnagFacts.arrayIncludes_In. split.
  - intros [H | [(a & m & b & E & Hm) | [(a & m & b & E & Hm) | H]]].
    + now left.
    + right. left. exists a, m, b. split; [exact E|].
      now apply Matches_conflictingSubject.
    + right. right. apply Matches_noPrequalification in Hm. subst m.
      now exists a, b.
    + discriminate H.
  - intros [H | [(a & m & b & E & Hm) | (a & b & E)]].
    + now left.
    + right. left. exists a, m, b. split; [exact E|].
      now apply Matches_conflictingSubject.
    + right. right. left.
      exists a, "no_prequalification_amount_available", b.
      split; [exact E|]. now apply Matches_noPrequalification.
Qed.

(** X25.  [isUsefulError] calls an error not worth reporting exactly when
    its code is one of the three silent codes, or its message contains,
    anywhere, a notice of a conflicting provider subject (customer and shop
    numbers, two quoted non-empty subjects) or the text
    [no_prequalification_amount_available]. *)
Theorem isUsefulError_silences_exactly :
  forall (code message : string),
    isUsefulError code message = false <->
    In code SILENT_SDK_ERROR_CODES
    \/ (exists a m b, message = a ++ m ++ b /\ conflictingSubject m)
    \/ (exists a b,
          message = a ++ "no_prequalification_amount_available" ++ b).
Proof.
  intros code message. split; intros H.
  - now apply isUsefulError_false.
  - now apply isUsefulError_false.
Qed.

(** X26.  The error handlers of both iframe components send an error to
    Bugsnag exactly when it is not a silent one; a silent error is counted
    and leaves a breadcrumb instead.  Either way the load timeout is
    cleared, and it is cleared before the component's own [onError] prop is
    called. *)
Theorem iframe_errors_notify_unless_silent :
  forall (hasOnError : bool) (code message : string),
    let silent :=
      In code SILENT_SDK_ERROR_CODES
      \/ (exists a m b, message = a ++ m ++ b /\ conflictingSubject m)
      \/ (exists a b,
            message = a ++ "no_prequalification_amount_available" ++ b) in
    (silent ->
     loginIframeOnError code message
     = [RecordSilentError code; LeaveBreadcrumb "silent error";
        ClearLoadTimeout]
     /\ authorizeIframeOnError hasOnError code message
        = ([RecordSilentError code; LeaveBreadcrumb "silent error";
            ClearLoadTimeout]
             ++ (if hasOnError then [CallOnError] else []))%list)
    /\ (~ silent ->
        loginIframeOnError code message
        = [LeaveBreadcrumb "shop login iframe error";
           Notify message "ShopLoginIframeError"; ClearLoadTimeout]
        /\ authorizeIframeOnError hasOnError code message
           = ([LeaveBreadcrumb "authorize error";
               Notify message "AuthorizeError"; ClearLoadTimeout]
                ++ (if hasOnError then [CallOnError] else []))%list).
Proof.
  intros hasOnError code message silent. subst silent.
  rewrite <- isUsefulError_false.
  unfold loginIframeOnError, authorizeIframeOnError.
  destruct (isUsefulError code message); split.
  - discriminate.
  - intros _. split; reflexivity.
  - intros _. split; reflexivity.
  - intros H. now elim H.
Qed.

Lemma isUsefulError_silences_exactly_witness :
  isUsefulError "server_error"
    "identity: existing customer 42 on shop 7 has a conflicting provider subject associated: existing 'a' != incoming 'b' (409)"
  = false.
Proof.
  apply (isUsefulError_silences_exactly "server_error").
  right. left.
  exists "identity: ",
    "existing customer 42 on shop 7 has a conflicting provider subject associated: existing 'a' != incoming 'b'",
    " (409)".
  split; [reflexivity|].
  exists "42", "7", "a", "b".
  repeat split; try discriminate; reflexivity.
Defined.

Lemma iframe_errors_notify_unless_silent_witness :
  loginIframeOnError "captcha_challenge" "challenge required"
  = [RecordSilentError "captcha_challenge"; LeaveBreadcrumb "silent error";
     ClearLoadTimeout].
Proof.
  destruct (iframe_errors_notify_unless_silent false "captcha_challenge"
              "challenge required") as [H _].
  destruct H as [K _]; [|exact K].
  left. cbn. tauto.
Defined.

End IframeErrorsFacts.
